(** * Topology of voxelised geomodels: the label encoder and graph extraction

    A shallow embedding of [notebooks/experimental/topology/topology_numpy.py].

    Data, as the program has it:
    - a NumPy integer array holds 64-bit signed integers ([astype(int)]);
      they are modelled as [Z] with the wrap-around written out ([Int64]);
    - [lb] is a flat array of shape (V), [fb] a stack of shape (n_faults, V),
      a labels block is a nested list of shape (nx, ny, nz);
    - a Python [str] is a [list ascii]; a [dict] keyed by strings that is
      iterated is an association list in insertion order; a [dict] keyed by
      integers that is only looked up is a [gmap Z Z]; a [set] of tuples is a
      duplicate-free list;
    - a Python exception is the [None] of an [option]; an array argument that
      is overwritten in place is returned next to the result. *)

From Stdlib Require Import ZArith Lia Ascii String.
From stdpp Require Import base option list sorting strings gmap.

Local Open Scope Z_scope.

(** ** 64-bit signed integers of NumPy *)

Module Int64.

Definition wrap (z : Z) : Z := (z + 2 ^ 63) mod 2 ^ 64 - 2 ^ 63.

Definition add (a b : Z) : Z := wrap (a + b).
Definition sub (a b : Z) : Z := wrap (a - b).
Definition abs (a : Z) : Z := wrap (Z.abs a).

(** [2 ** e] on an integer array: a negative exponent raises
    [ValueError], a large one wraps silently. *)
Definition pow2 (e : Z) : option Z :=
  if e <? 0 then None else Some (wrap (2 ^ e)).

Definition in_range (z : Z) : Prop := - 2 ^ 63 <= z < 2 ^ 63.
End Int64.

(** ** Python and NumPy primitives *)

Definition str : Type := list ascii.

(** A string literal. *)
Definition lit (x : string) : str := list_ascii_of_string x.

(** [np.arange(n)] *)
Definition arange (n : nat) : list Z := Z.of_nat <$> seq 0 n.

(** [a.min()]: raises [ValueError] on an empty array. *)
Definition np_min (l : list Z) : option Z :=
  match l with
  | [] => None
  | x :: l' => Some (foldl Z.min x l')
  end.

(** [a.sum(axis=0)] on an array of shape (k, V): the rows are added
    elementwise, in 64-bit arithmetic. *)
Definition sum_axis0 (rows : list (list Z)) : list Z :=
  match rows with
  | [] => []
  | r :: rs => foldl (zip_with Int64.add) r rs
  end.

(** [np.concatenate((lb[None, :], fb), axis=0)]: the rows of [fb] must be as
    long as [lb], or NumPy raises [ValueError]. *)
Definition concatenate_rows (lb : list Z) (fb : list (list Z))
  : option (list (list Z)) :=
  if forallb (λ row : list Z, (length row =? length lb)%nat) fb
  then Some (lb :: fb) else None.

(** ** The label encoder, [get_labels_block] *)

(** Lines 55 and 56: [fb -= 1] and [fb += np.arange(n_faults)[None, :].T],
    both in place on the caller's array. *)
Definition fb_sub_1 (fb : list (list Z)) : list (list Z) :=
  (λ row : list Z, (λ x, Int64.sub x 1) <$> row) <$> fb.

Definition fb_add_arange (fb : list (list Z)) : list (list Z) :=
  zip_with (λ i (row : list Z), (λ x, Int64.add x i) <$> row)
    (arange (length fb)) fb.

(** The result of a call: the contents of the caller's [fb] array after the
    call, and the returned labels ([None] when the call raises). [lb] is
    rebound to a fresh array on line 68 and never written. *)
Record labels_result := {
  fb_after : list (list Z);
  labels_of : option (list Z)
}.

Definition get_labels_block (lb : list Z) (fb : list (list Z))
  : labels_result :=
  let n_faults := Z.of_nat (length fb) in
  let fb := fb_sub_1 fb in
  let fb := fb_add_arange fb in
  {| fb_after := fb;
     labels_of :=
       m ← np_min lb;
       let lb :=
         (λ x, Int64.add (Int64.add (Int64.sub x m) n_faults) 2) <$> lb in
       stacked ← concatenate_rows lb fb;
       labels ← mapM (mapM Int64.pow2) stacked;
       Some (sum_axis0 labels) |}.

(** The number of set bits of the binary representation. *)
Fixpoint pop_pos (p : positive) : nat :=
  match p with
  | xH => 1
  | xO p' => pop_pos p'
  | xI p' => S (pop_pos p')
  end.

Definition popcount (z : Z) : nat :=
  match z with
  | Z0 => 0
  | Zpos p => pop_pos p
  | Zneg p => pop_pos p
  end.

(** ** Strings: [np.binary_repr], [str.zfill], slices, [in] *)

Fixpoint bin_pos (p : positive) (acc : str) : str :=
  match p with
  | xH => "1"%char :: acc
  | xO p' => bin_pos p' ("0"%char :: acc)
  | xI p' => bin_pos p' ("1"%char :: acc)
  end.

(** [np.binary_repr(num)] without a width: ['0'] for zero, the binary digits
    for a positive number, a minus sign and the digits of the magnitude for a
    negative one. *)
Definition binary_repr (num : Z) : str :=
  match num with
  | Z0 => ["0"%char]
  | Zpos p => bin_pos p []
  | Zneg p => "-"%char :: bin_pos p []
  end.

(** [x.zfill(width)]: zeros are inserted on the left, after a leading sign. *)
Definition zfill (width : Z) (x : str) : str :=
  let pad := replicate (Z.to_nat (width - Z.of_nat (length x))) "0"%char in
  match x with
  | c :: x' =>
      if bool_decide (c = "+"%char ∨ c = "-"%char)
      then c :: pad ++ x' else pad ++ x
  | [] => pad
  end.

(** [x * k] for a string [x] and an integer [k]. *)
Definition str_mul (x : str) (k : Z) : str :=
  mjoin (replicate (Z.to_nat k) x).

(** A slice bound of a sequence of length [n]: [None] stands for an omitted
    bound, a negative bound counts from the end, and bounds are clipped. *)
Definition slice_bound (n : Z) (i : option Z) (dflt : Z) : Z :=
  match i with
  | None => dflt
  | Some i => if i <? 0 then Z.max (n + i) 0 else Z.min i n
  end.

Definition pyslice : Type := option Z * option Z.

(** [l[start:stop]] *)
Definition py_slice {A} (sl : pyslice) (l : list A) : list A :=
  let n := Z.of_nat (length l) in
  let a := slice_bound n sl.1 0 in
  let b := slice_bound n sl.2 n in
  take (Z.to_nat (b - a)) (drop (Z.to_nat a) l).

Fixpoint str_prefix (a k : str) : bool :=
  match a, k with
  | [], _ => true
  | x :: a', y :: k' => bool_decide (x = y) && str_prefix a' k'
  | _ :: _, [] => false
  end.

(** [a in k]: [a] occurs in [k] as a substring. *)
Fixpoint str_in (a k : str) : bool :=
  str_prefix a k ||
  match k with
  | [] => false
  | _ :: k' => str_in a k'
  end.

(** ** Sequences: [np.unique], [range], [list.index], loops *)

Fixpoint insert_uniq (x : Z) (l : list Z) : list Z :=
  match l with
  | [] => [x]
  | y :: l' =>
      if x <? y then x :: l
      else if x =? y then l
      else y :: insert_uniq x l'
  end.

(** [np.unique(a)]: the sorted distinct values of the flattened array. *)
Definition np_unique (l : list Z) : list Z := foldr insert_uniq [] l.

(** [range(a, b)] *)
Definition py_range (a b : Z) : list Z :=
  (λ i : nat, a + Z.of_nat i) <$> seq 0 (Z.to_nat (b - a)).

(** [l.index(x)]: the first position of [x], [ValueError] when absent. *)
Fixpoint index_of `{EqDecision A} (x : A) (l : list A) : option nat :=
  match l with
  | [] => None
  | y :: l' => if decide (y = x) then Some 0%nat else S <$> index_of x l'
  end.

(** A [for] loop over [l] whose body may raise; [st] is the state the body
    updates. *)
Fixpoint for_each {A S} (l : list A) (body : A → S → option S) (st : S)
  : option S :=
  match l with
  | [] => Some st
  | x :: l' => st' ← body x st; for_each l' body st'
  end.

(** [enumerate(l)] *)
Definition enumerate {A} (l : list A) : list (nat * A) :=
  zip (seq 0 (length l)) l.

(** [d[k] = v] on a dictionary kept in insertion order: an existing key keeps
    its place. *)
Fixpoint dict_set `{EqDecision K} {V} (k : K) (v : V) (d : list (K * V))
  : list (K * V) :=
  match d with
  | [] => [(k, v)]
  | (k', v') :: d' =>
      if decide (k' = k) then (k, v) :: d' else (k', v') :: dict_set k v d'
  end.

(** [st.add(x)] on a set. *)
Definition set_add `{EqDecision A} (x : A) (st : list A) : list A :=
  if decide (x ∈ st) then st else st ++ [x].

(** [itertools.combinations(l, r)], in its lexicographic order. *)
Fixpoint combinations {A} (l : list A) (r : nat) : list (list A) :=
  match r with
  | O => [[]]
  | S r' =>
      match l with
      | [] => []
      | x :: l' => (cons x <$> combinations l' r') ++ combinations l' r
      end
  end.

(** ** Three-dimensional arrays *)

Definition arr3 (A : Type) : Type := list (list (list A)).

Definition map3 {A B} (f : A → B) (a : arr3 A) : arr3 B :=
  (λ plane : list (list A), (λ row : list A, f <$> row) <$> plane) <$> a.

Definition flatten3 {A} (a : arr3 A) : list A := mjoin (mjoin a).

(** The lengths of all rows; two rectangular arrays with elements have the
    same NumPy shape exactly when these agree. *)
Definition shape3 {A} (a : arr3 A) : list (list nat) :=
  (λ plane : list (list A), length <$> plane) <$> a.

Definition same_shape {A B} (a : arr3 A) (b : arr3 B) : bool :=
  bool_decide (shape3 a = shape3 b).

(** [a[sx, sy, sz]] *)
Definition slice3 {A} (sl : pyslice * pyslice * pyslice) (a : arr3 A)
  : arr3 A :=
  let '(sx, sy, sz) := sl in
  (λ plane : list (list A), py_slice sz <$> py_slice sy plane)
    <$> py_slice sx a.

Definition all_ : pyslice := (None, None).

(** The elementwise combination of two blocks of one shape. *)
Definition zip3 (f : Z → Z → Z) (a b : arr3 Z) : arr3 Z :=
  zip_with (zip_with (zip_with f)) a b.

(** [np.abs(a + b)] for two arrays of one shape. Operands of different
    shapes, which NumPy would broadcast or reject, are left out as [None];
    the two shifted views of [get_topo_block] have one shape for every
    [n_shift >= 1]. *)
Definition abs_sum3 (a b : arr3 Z) : option (arr3 Z) :=
  if same_shape a b
  then Some (map3 Int64.abs (zip3 Int64.add a b))
  else None.

(** [np.concatenate((a[None], b[None], c[None]), axis=0)]: [ValueError]
    unless the shapes agree. *)
Definition stack3 (a b c : arr3 Z) : option (list (arr3 Z)) :=
  if same_shape a b && same_shape b c then Some [a; b; c] else None.

(** [a[mask]] for a boolean array [mask]: the elements under a [True], in
    row-major order; [IndexError] unless [mask] has the shape of [a]. *)
Definition mask_select (a : arr3 Z) (mask : arr3 bool) : option (list Z) :=
  if same_shape a mask
  then Some ((filter (λ xb : Z * bool, xb.2 = true)
                (zip (flatten3 a) (flatten3 mask))).*1)
  else None.

(** ** The topology block, [get_topo_block] *)

Definition get_topo_block (labels : arr3 Z) (n_shift : Z)
  : option (list (arr3 Z)) :=
  let from_n : pyslice := (Some n_shift, None) in
  let to_n : pyslice := (None, Some (- n_shift)) in
  sum_x ← abs_sum3 (slice3 (from_n, all_, all_) labels)
                   (slice3 (to_n, all_, all_) labels);
  sum_y ← abs_sum3 (slice3 (all_, from_n, all_) labels)
                   (slice3 (all_, to_n, all_) labels);
  sum_z ← abs_sum3 (slice3 (all_, all_, from_n) labels)
                   (slice3 (all_, all_, to_n) labels);
  let sl : pyslice := (Some (n_shift / 2), Some (- n_shift / 2)) in
  stack3 (slice3 (all_, sl, sl) sum_x)
         (slice3 (sl, all_, sl) sum_y)
         (slice3 (sl, sl, all_) sum_z).

(** ** The edge extractor, [get_edges] *)

Definition slicers (n_shift : Z)
  : list ((pyslice * pyslice * pyslice) * (pyslice * pyslice * pyslice)) :=
  let slice_fit : pyslice := (Some (n_shift - 1), Some (- n_shift)) in
  let from_n : pyslice := (Some n_shift, None) in
  let to_n : pyslice := (None, Some (- n_shift)) in
  [ ((from_n, slice_fit, slice_fit), (to_n, slice_fit, slice_fit));
    ((slice_fit, from_n, slice_fit), (slice_fit, to_n, slice_fit));
    ((slice_fit, slice_fit, from_n), (slice_fit, slice_fit, to_n)) ].

(** [np.unique(a[filter_])[0]] *)
Definition first_label (a : arr3 Z) (filter_ : arr3 bool) : option Z :=
  sel ← mask_select a filter_; head (np_unique sel).

(** The body of the inner loop of [get_edges], lines 177 to 186. *)
Definition edge_step (labels_block : arr3 Z) (n_shift : Z) (i : nat)
    (topo_block_dir : arr3 Z) (edge_sum : Z) (edges : list (Z * Z))
  : option (list (Z * Z)) :=
  if edge_sum =? 0 then Some edges
  else
    sl ← slicers n_shift !! i;
    let shift_1 := slice3 sl.1 labels_block in
    let shift_2 := slice3 sl.2 labels_block in
    let filter_ := map3 (λ x, x =? edge_sum) topo_block_dir in
    n1 ← first_label shift_1 filter_;
    n2 ← first_label shift_2 filter_;
    Some (set_add (n1, n2) edges).

Definition get_edges (topo_block_f : list (arr3 Z)) (labels_block : arr3 Z)
    (n_shift : Z) : option (list (Z * Z)) :=
  for_each (enumerate topo_block_f)
    (λ '(i, topo_block_dir) edges,
       for_each (np_unique (flatten3 topo_block_dir))
         (edge_step labels_block n_shift i topo_block_dir) edges)
    [].

(** ** The lithology lookup, [get_lith_lot] *)

(** [n_faults] and [n_layers] are counts and are taken as naturals. *)
Definition label_width (n_faults n_layers : nat) : Z :=
  Z.of_nat n_faults * 2 + Z.of_nat n_layers.

Definition layer_key (n_faults n_layers : nat) (i : Z) : str :=
  zfill (label_width n_faults n_layers) (binary_repr (2 ^ i)).

(** The dictionary comprehension of lines 228 to 231. *)
Definition layer_ids (n_faults n_layers : nat) : list (str * Z) :=
  foldl (λ d i, dict_set (layer_key n_faults n_layers i) i d) []
    (py_range (Z.of_nat n_faults * 2) (label_width n_faults n_layers)).

(** Lines 235 to 238. *)
Definition node_bin_nofault (n_faults n_layers : nat) (node : Z) : str :=
  let node_bin := zfill (label_width n_faults n_layers) (binary_repr node) in
  py_slice (None, Some (- Z.of_nat n_faults * 2)) node_bin
    ++ str_mul (str_mul (lit "0") (Z.of_nat n_faults)) 2.

(** The inner loop, lines 240 to 242. *)
Definition lot_node (n_faults n_layers : nat) (lot : gmap Z Z) (node : Z)
  : gmap Z Z :=
  foldl (λ (lot : gmap Z Z) (kv : str * Z),
           if str_in (node_bin_nofault n_faults n_layers node) kv.1
           then <[node := kv.2]> lot else lot)
    lot (layer_ids n_faults n_layers).

Definition get_lith_lot (labels : list Z) (n_faults n_layers : nat)
  : gmap Z Z :=
  foldl (lot_node n_faults n_layers) ∅ (np_unique labels).

(** ** The adjacency matrix, [get_adj_matrix] *)

(** [m[i, j] = True] *)
Definition set_true (i j : nat) (m : list (list bool)) : list (list bool) :=
  alter (λ row : list bool, <[j := true]> row) i m.

Definition entry (m : list (list bool)) (i j : nat) : option bool :=
  row ← m !! i; row !! j.

Definition get_adj_matrix (edges : list (Z * Z))
    (adj_matrix_labels : list str) (labels : list Z)
  : option (list (list bool)) :=
  let n := length adj_matrix_labels in
  let adj_matrix := replicate n (replicate n false) in
  first ← adj_matrix_labels !! 0%nat;
  let n_entities := Z.of_nat (length first) in
  adj_matrix ←
    for_each edges
      (λ '(n1, n2) adj_matrix,
         i ← index_of (zfill n_entities (binary_repr n1)) adj_matrix_labels;
         j ← index_of (zfill n_entities (binary_repr n2)) adj_matrix_labels;
         Some (set_true j i (set_true i j adj_matrix)))
      adj_matrix;
  for_each ((λ l, zfill 9 (binary_repr l)) <$> np_unique labels)
    (λ bin_label adj_matrix,
       i ← index_of bin_label adj_matrix_labels;
       Some (set_true i i adj_matrix))
    adj_matrix.

(** ** The canonical label space *)

(** [np.stack((np.arange(n), np.arange(1, n + 1))).T
     + np.arange(n)[None, :].T] *)
Definition get_fault_labels (n_faults : nat) : list (list Z) :=
  let stacked_T :=
    zip_with (λ a b : Z, [a; b]) (arange n_faults)
      (py_range 1 (Z.of_nat n_faults + 1)) in
  zip_with (λ (row : list Z) i, (λ x, Int64.add x i) <$> row)
    stacked_T (arange n_faults).

(** Python's [sum] over 64-bit NumPy scalars. *)
Definition sum64 (l : list Z) : Z := foldl Int64.add 0 l.

Definition get_fault_label_comb_bin (fault_labels : list (list Z))
  : option (list str) :=
  let n_faults := length fault_labels in
  let block_sums := sum64 <$> fault_labels in
  for_each (combinations (mjoin fault_labels) n_faults)
    (λ comb fault_labels_bin,
       if bool_decide (sum64 comb ∈ block_sums) then Some fault_labels_bin
       else
         powers ← mapM Int64.pow2 comb;
         Some (fault_labels_bin ++
                 [zfill (Z.of_nat n_faults * 2) (binary_repr (sum64 powers))]))
    [].

Definition get_lith_labels_bin (n_layers : nat) : list str :=
  (λ i, zfill (Z.of_nat n_layers) (binary_repr (2 ^ i)))
    <$> py_range 0 (Z.of_nat n_layers).

Definition get_adj_matrix_labels (lith_labels_bin fault_labels_bin : list str)
  : list str :=
  l ← lith_labels_bin; f ← fault_labels_bin; [l ++ f].

(** ** Reference definitions for the statements *)

(** The selections that take one id from each fault block, in the order of
    the blocks. *)
Fixpoint one_per_block (blocks : list (list Z)) : list (list Z) :=
  match blocks with
  | [] => [[]]
  | b :: bs => x ← b; rest ← one_per_block bs; [x :: rest]
  end.

(** The binary string of a selection of bit positions. *)
Definition selection_bin (n_faults : nat) (comb : list Z) : str :=
  zfill (Z.of_nat n_faults * 2)
    (binary_repr (foldr Z.add 0 ((λ x, 2 ^ x) <$> comb))).

Definition one_per_block_bin (n_faults : nat) : list str :=
  selection_bin n_faults <$> one_per_block (get_fault_labels n_faults).

(** An [n] by [n] matrix, and a symmetric one. *)
Definition square (n : nat) (m : list (list bool)) : Prop :=
  length m = n ∧ Forall (λ row, length row = n) m.

Definition symmetric (m : list (list bool)) : Prop :=
  ∀ i j, entry m i j = entry m j i.

(** ** Example blocks *)

(** Labels 9 and 10 (one fault, lithology 1 on either side), of shape
    (3, 3, 2). *)
Definition block_two_orders : arr3 Z :=
  [ [[9; 9]; [9; 9]; [9; 9]];
    [[10; 10]; [9; 9]; [9; 9]];
    [[10; 10]; [9; 9]; [9; 9]] ].

(** ** Bit positions of a label *)

(** The sum of the powers of two at the positions [ps]. *)
Definition sum_pow2 (ps : list Z) : Z := foldr Z.add 0 ((λ p, 2 ^ p) <$> ps).

(** The values of the fault stack at voxel [v], one per fault layer. *)
Definition column (fb : list (list Z)) (v : nat) : list Z :=
  (λ row : list Z, default 0 (row !! v)) <$> fb.

(** The bit positions [side - 1 + i] that lines 55 and 56 give the fault
    layers [k], [k + 1], ... of a voxel with the sides [col]. *)
Fixpoint positions_from (k : Z) (col : list Z) : list Z :=
  match col with
  | [] => []
  | side :: col' => (side - 1 + k) :: positions_from (k + 1) col'
  end.

(** Some fault layer has side 2 and the next one side 1: both get the same
    bit position. *)
Fixpoint collides (col : list Z) : bool :=
  match col with
  | a :: col' =>
      match col' with
      | b :: _ => (a =? 2) && (b =? 1) || collides col'
      | [] => false
      end
  | [] => false
  end.

(** The two sides of a fault, as the fault stack gives them. *)
Definition sides (col : list Z) : Prop := Forall (λ x, x = 1 ∨ x = 2) col.

(** A lithology volume with ids from 1 to [n_layers] and a fault stack of
    its shape with the sides 1 and 2. *)
Definition valid_input (n_layers : Z) (lb : list Z) (fb : list (list Z))
  : Prop :=
  lb ≠ []
  ∧ Forall (λ x, 1 <= x <= n_layers) lb
  ∧ Forall (λ row, length row = length lb ∧ sides row) fb.

(** ** Binary strings *)

Definition bit_val (c : ascii) : Z := if bool_decide (c = "1"%char) then 1 else 0.

(** The number a string of binary digits denotes. *)
Definition bin_value (x : str) : Z := foldl (λ acc c, 2 * acc + bit_val c) 0 x.

Definition is_bits (x : str) : Prop :=
  Forall (λ c, c = "0"%char ∨ c = "1"%char) x.

(** The entries of the template table that [get_lith_lot] matches for a
    node, in the order of the table. *)
Definition matching_templates (n_faults n_layers : nat) (node : Z)
  : list (str * Z) :=
  filter (λ kv : str * Z,
            str_in (node_bin_nofault n_faults n_layers node) kv.1 = true)
    (layer_ids n_faults n_layers).

(** ** Shapes *)

(** A block whose planes all have [ny] rows of [nz] voxels. *)
Definition rect3 (ny nz : nat) (a : arr3 Z) : Prop :=
  Forall (λ plane : list (list Z),
            length plane = ny ∧ Forall (λ row, length row = nz) plane) a.

(** The length of [l[start:stop]] for a list of length [n]. *)
Definition slice_len (sl : pyslice) (n : nat) : nat :=
  let a := slice_bound (Z.of_nat n) sl.1 0 in
  let b := slice_bound (Z.of_nat n) sl.2 (Z.of_nat n) in
  (Z.to_nat (b - a) `min` (n - Z.to_nat a))%nat.

(** The two-voxel sums along one axis, taken on the sub-volumes of a pair of
    slicers of [get_edges]. *)
Definition shifted_sum (labels : arr3 Z)
    (sl : (pyslice * pyslice * pyslice) * (pyslice * pyslice * pyslice))
  : arr3 Z :=
  map3 Int64.abs (zip3 Int64.add (slice3 sl.1 labels) (slice3 sl.2 labels)).

(** The pair that the signature [e] of [tbd] contributes: the least label
    under the mask in each of the two sub-volumes. *)
Definition emitted (labels_block : arr3 Z) sl tbd (e : Z)
    (edges : list (Z * Z)) : Prop :=
  ∃ l1 l2 n1 n2,
    mask_select (slice3 sl.1 labels_block) (map3 (λ x, x =? e) tbd) = Some l1
    ∧ mask_select (slice3 sl.2 labels_block) (map3 (λ x, x =? e) tbd)
      = Some l2
    ∧ (n1 ∈ l1 ∧ ∀ x, x ∈ l1 → n1 <= x)
    ∧ (n2 ∈ l2 ∧ ∀ x, x ∈ l2 → n2 <= x)
    ∧ (n1, n2) ∈ edges.

(** Labels 9, 18, 17 and 10 one after the other along x, shape (4, 2, 2). *)
Definition block_ambiguous : arr3 Z :=
  [ [[9; 9]; [9; 9]];
    [[18; 18]; [18; 18]];
    [[17; 17]; [17; 17]];
    [[10; 10]; [10; 10]] ].

(** Labels 9 and 10, two planes each along x, shape (4, 4, 4). *)
Definition block_4 : arr3 Z :=
  replicate 2 (replicate 4 (replicate 4 9))
    ++ replicate 2 (replicate 4 (replicate 4 10)).

(** ** The sum lookup, [get_node_label_sum_lot] *)

(** The dictionary comprehension of line 137: a later combination with the
    same sum replaces the earlier one. A combination is kept as the list of
    its two members. *)
Definition get_node_label_sum_lot (ulabels : list Z) : gmap Z (list Z) :=
  let possible_edges := combinations ulabels 2 in
  foldl (λ (lot : gmap Z (list Z)) comb, <[sum64 comb := comb]> lot)
    ∅ possible_edges.

(** ** Reference definitions for the further properties *)

(** The voxel [(x, y, z)] of a block. *)
Definition get3 {A} (a : arr3 A) (x y z : nat) : option A :=
  plane ← (a : list (list (list A))) !! x;
  row ← (plane : list (list A)) !! y;
  (row : list A) !! z.

(** The two shifted views that [get_topo_block] adds on each axis, with
    the crop of the two other axes (lines 103 to 117). *)
Definition topo_slicers (n_shift : Z)
  : list ((pyslice * pyslice * pyslice) * (pyslice * pyslice * pyslice)) :=
  let crop : pyslice := (Some (n_shift / 2), Some (- n_shift / 2)) in
  let from_n : pyslice := (Some n_shift, None) in
  let to_n : pyslice := (None, Some (- n_shift)) in
  [ ((from_n, crop, crop), (to_n, crop, crop));
    ((crop, from_n, crop), (crop, to_n, crop));
    ((crop, crop, from_n), (crop, crop, to_n)) ].


(** A slice that starts [off] elements into a list and leaves out
    [n_shift] elements in all. *)
Definition starts_at (n_shift : Z) (sl : pyslice) (off : nat) : Prop :=
  ∀ A (l : list A) (i : nat),
    (i < length l - Z.to_nat n_shift)%nat →
    py_slice sl l !! i = l !! (off + i)%nat.

(** [n] is the least label of [a] under the mask of the signature [e] in
    [tbd]. *)
Definition least_under (a tbd : arr3 Z) (e n : Z) : Prop :=
  ∃ sel, mask_select a (map3 (λ x, x =? e) tbd) = Some sel
         ∧ n ∈ sel ∧ ∀ x, x ∈ sel → n <= x.

(** The topology block of [block_two_orders] for a shift of one voxel. *)
Definition topo_two_orders : list (arr3 Z) :=
  [ [[[19]; [18]]; [[20]; [18]]];
    [[[18]; [18]]; [[19]; [18]]];
    [[[18]; [18]]; [[20]; [18]]] ].

(** The entries that the two loops of [get_adj_matrix] set: the one of an
    edge at the indices of the strings of its two nodes, in both orders, and
    the diagonal one of a label at the index of its nine-digit string. *)
Definition edge_entry (adj_matrix_labels : list str) (n_entities : Z)
    (edges : list (Z * Z)) (i j : nat) : Prop :=
  ∃ n1 n2 a b,
    (n1, n2) ∈ edges
    ∧ index_of (zfill n_entities (binary_repr n1)) adj_matrix_labels = Some a
    ∧ index_of (zfill n_entities (binary_repr n2)) adj_matrix_labels = Some b
    ∧ (i = a ∧ j = b ∨ i = b ∧ j = a).

Definition diagonal_entry (adj_matrix_labels : list str) (labels : list Z)
    (i j : nat) : Prop :=
  i = j
  ∧ ∃ l, l ∈ labels
         ∧ index_of (zfill 9 (binary_repr l)) adj_matrix_labels = Some i.

(** The number of ones of a binary string. *)
Definition count_ones (x : str) : nat :=
  length (filter (λ c, c = "1"%char) (x : list ascii)).

(** [np.full((nx, ny, nz), c)]: a block that holds one label. *)
Definition full3 (nx ny nz : nat) (c : Z) : arr3 Z :=
  replicate nx (replicate ny (replicate nz c)).
(** * Properties *)

(** ** 64-bit arithmetic *)

Lemma wrap_id z : Int64.in_range z → Int64.wrap z = z.
Proof.
  unfold Int64.in_range, Int64.wrap. intros H.
  rewrite Z.mod_small; lia.
Qed.

Lemma wrap_add_l a b : Int64.wrap (Int64.wrap a + b) = Int64.wrap (a + b).
Proof.
  unfold Int64.wrap.
  replace ((a + 2 ^ 63) mod 2 ^ 64 - 2 ^ 63 + b + 2 ^ 63)
    with ((a + 2 ^ 63) mod 2 ^ 64 + b) by lia.
  rewrite Zplus_mod_idemp_l. do 2 f_equal. lia.
Qed.

(** ** In-place update of the fault stack (C4) *)

(** C4, at a failing input. [get_labels_block] overwrites its argument [fb]:
    called on [lb = [1; 2]] and [fb = [[2; 2]]] it leaves [[1; 1]] in the
    caller's array, and a second call on the same arrays returns the labels
    [9; 17] where the first returned [10; 18]. *)
Theorem get_labels_block_overwrites_fb :
  let lb := [1; 2] in
  let fb := [[2; 2]] in
  let first := get_labels_block lb fb in
  let second := get_labels_block lb (fb_after first) in
  fb_after first = [[1; 1]] ∧ fb_after first ≠ fb
  ∧ labels_of first = Some [10; 18]
  ∧ labels_of second = Some [9; 17]
  ∧ labels_of second ≠ labels_of first.
Proof. vm_compute. repeat split; congruence. Qed.

(** A second call on arrays in which a voxel lay on side 1 of the first
    fault raises: the exponent has become negative. *)
Lemma get_labels_block_second_call_raises :
  let first := get_labels_block [1; 2] [[1; 2]] in
  labels_of first = Some [9; 18]
  ∧ labels_of (get_labels_block [1; 2] (fb_after first)) = None.
Proof. vm_compute. split; reflexivity. Qed.

(** ** Enumeration of the fault combinations (C5) *)

Lemma get_fault_labels_2 : get_fault_labels 2 = [[0; 1]; [2; 3]].
Proof. reflexivity. Qed.

(** For two faults the code returns the documented list, which is the list
    of the selections of one id per block. *)
Lemma fault_label_comb_bin_2 :
  get_fault_label_comb_bin (get_fault_labels 2)
  = Some [lit "0101"; lit "1001"; lit "0110"; lit "1010"]
  ∧ one_per_block_bin 2 = [lit "0101"; lit "1001"; lit "0110"; lit "1010"].
Proof. vm_compute. split; reflexivity. Qed.

(** C5, at a failing input. For one fault the pairs are [[0, 1]] and the
    selections of one id are "01" and "10"; the code drops "10", because the
    sum of the selection (1) is the sum of the block. *)
Theorem fault_label_comb_bin_1 :
  get_fault_labels 1 = [[0; 1]]
  ∧ get_fault_label_comb_bin (get_fault_labels 1) = Some [lit "01"]
  ∧ one_per_block_bin 1 = [lit "01"; lit "10"].
Proof. vm_compute. repeat split; reflexivity. Qed.

(** For three faults the code keeps "000111", the selection (0, 1, 2) with
    both ids of the first block, and drops "101010", the selection (1, 3, 5)
    of one id per block, whose sum 9 is the sum of the last block. *)
Lemma fault_label_comb_bin_3 :
  ∃ l, get_fault_label_comb_bin (get_fault_labels 3) = Some l
       ∧ (lit "000111" ∈ l) ∧ (lit "000111" ∉ one_per_block_bin 3)
       ∧ (lit "101010" ∉ l) ∧ (lit "101010" ∈ one_per_block_bin 3).
Proof.
  eexists. split; [vm_compute; reflexivity|].
  split_and!; compute_done.
Qed.

(** ** Loops *)

Lemma for_each_inv {A S} (P : S → Prop) (l : list A) body st st' :
  P st →
  (∀ x s1 s2, x ∈ l → P s1 → body x s1 = Some s2 → P s2) →
  for_each l body st = Some st' → P st'.
Proof.
  revert st. induction l as [|x l IH]; simpl; intros st Hst Hbody Hrun.
  - by simplify_eq.
  - destruct (body x st) as [st1|] eqn:Hx; simplify_eq/=.
    apply (IH st1); [|intros y s1 s2 Hy; apply Hbody; by right|done].
    eapply Hbody; [by left|done..].
Qed.

Lemma for_each_total {A S} (P : S → Prop) (l : list A) body st :
  P st →
  (∀ x s1, x ∈ l → P s1 → ∃ s2, body x s1 = Some s2 ∧ P s2) →
  ∃ st', for_each l body st = Some st' ∧ P st'.
Proof.
  revert st. induction l as [|x l IH]; simpl; intros st Hst Hbody.
  - eauto.
  - destruct (Hbody x st) as (st1 & -> & H1); [by left|done|]. simpl.
    apply IH; [done|]. intros y s1 Hy. apply Hbody. by right.
Qed.

Lemma index_of_lt `{EqDecision A} (x : A) l i :
  index_of x l = Some i → (i < length l)%nat.
Proof.
  revert i. induction l as [|y l IH]; intros i; simpl; [done|].
  case_decide; intros Hi; simplify_eq/=; [lia|].
  destruct (index_of x l) as [k|]; simplify_eq/=.
  specialize (IH k eq_refl). lia.
Qed.

Lemma index_of_elem `{EqDecision A} (x : A) l :
  x ∈ l → is_Some (index_of x l).
Proof.
  induction 1 as [|y z l Hx IH]; simpl.
  - rewrite decide_True by done. eauto.
  - case_decide; [eauto|]. destruct IH as [k ->]. eauto.
Qed.

(** ** [np.unique] *)

Lemma insert_uniq_elem x y l : y ∈ insert_uniq x l ↔ y = x ∨ y ∈ l.
Proof.
  induction l as [|z l IH]; simpl.
  - rewrite list_elem_of_singleton, elem_of_nil. tauto.
  - destruct (x <? z) eqn:Hlt; [by rewrite elem_of_cons|].
    destruct (x =? z) eqn:Heq.
    + apply Z.eqb_eq in Heq as ->. rewrite elem_of_cons. tauto.
    + rewrite !elem_of_cons, IH. tauto.
Qed.

Lemma np_unique_elem x l : x ∈ np_unique l ↔ x ∈ l.
Proof.
  induction l as [|y l IH]; simpl; [done|].
  rewrite insert_uniq_elem, elem_of_cons, IH. tauto.
Qed.

Lemma insert_uniq_sorted x l :
  StronglySorted Z.lt l → StronglySorted Z.lt (insert_uniq x l).
Proof.
  induction 1 as [|z l Hl IH Hz]; simpl.
  - repeat constructor.
  - destruct (x <? z) eqn:Hlt.
    + apply Z.ltb_lt in Hlt. constructor; [by constructor|].
      constructor; [done|]. eapply Forall_impl; [exact Hz|]. simpl. lia.
    + destruct (x =? z) eqn:Heq; [by constructor|].
      apply Z.ltb_ge in Hlt. apply Z.eqb_neq in Heq.
      constructor; [done|]. apply Forall_forall. intros y Hy.
      apply insert_uniq_elem in Hy as [->|Hy]; [lia|].
      rewrite Forall_forall in Hz. auto.
Qed.

Lemma np_unique_sorted l : StronglySorted Z.lt (np_unique l).
Proof.
  induction l as [|x l IH]; simpl; [constructor|].
  by apply insert_uniq_sorted.
Qed.

(** [np.unique(a)[0]] is the least element of [a]. *)
Lemma np_unique_head l m :
  head (np_unique l) = Some m ↔ m ∈ l ∧ ∀ x, x ∈ l → m <= x.
Proof.
  pose proof (np_unique_sorted l) as Hs.
  split.
  - intros Hm. destruct (np_unique l) as [|y u] eqn:Hu; simplify_eq/=.
    split; [apply np_unique_elem; rewrite Hu; by left|].
    intros x Hx. apply np_unique_elem in Hx. rewrite Hu in Hx.
    apply StronglySorted_inv in Hs as [_ Hall].
    rewrite Forall_forall in Hall.
    apply elem_of_cons in Hx as [->|Hx]; [lia|]. specialize (Hall _ Hx). lia.
  - intros [Hm Hle]. destruct (np_unique l) as [|y u] eqn:Hu.
    + apply np_unique_elem in Hm. rewrite Hu in Hm.
      by apply elem_of_nil in Hm.
    + simpl. f_equal.
      assert (y ∈ l) as Hy by (apply np_unique_elem; rewrite Hu; by left).
      apply np_unique_elem in Hm. rewrite Hu in Hm.
      apply StronglySorted_inv in Hs as [_ Hall].
      rewrite Forall_forall in Hall. specialize (Hle _ Hy).
      apply elem_of_cons in Hm as [->|Hm]; [done|].
      specialize (Hall _ Hm). lia.
Qed.

Lemma np_unique_head_is_Some l : l ≠ [] → is_Some (head (np_unique l)).
Proof.
  intros Hl. destruct (np_unique l) as [|y u] eqn:Hu; [|by eexists].
  destruct l as [|x l]; [done|].
  assert (x ∈ np_unique (x :: l)) as Hx by (apply np_unique_elem; by left).
  rewrite Hu in Hx. by apply elem_of_nil in Hx.
Qed.

(** ** The adjacency matrix (C6, C10) *)

Lemma square_zeros n : square n (replicate n (replicate n false)).
Proof.
  split; [by rewrite length_replicate|].
  apply Forall_replicate. by rewrite length_replicate.
Qed.

Lemma entry_zeros n i j :
  entry (replicate n (replicate n false)) i j
  = if decide ((i < n)%nat ∧ (j < n)%nat) then Some false else None.
Proof.
  unfold entry. case_decide as Hij.
  - destruct Hij as [Hi Hj]. rewrite lookup_replicate_2 by done. simpl.
    by rewrite lookup_replicate_2.
  - destruct (decide (i < n)%nat) as [Hi|Hi].
    + rewrite lookup_replicate_2 by done. simpl.
      apply lookup_ge_None_2. rewrite length_replicate. lia.
    + rewrite lookup_ge_None_2; [done|]. rewrite length_replicate. lia.
Qed.

Lemma symmetric_zeros n : symmetric (replicate n (replicate n false)).
Proof.
  intros i j. rewrite !entry_zeros.
  destruct (decide (i < n ∧ j < n)%nat), (decide (j < n ∧ i < n)%nat);
    intuition (subst; congruence || lia).
Qed.

Lemma set_true_square n a b m : square n m → square n (set_true a b m).
Proof.
  intros [Hlen Hrows]. split; unfold set_true.
  - by rewrite length_alter.
  - apply Forall_lookup. intros i row Hi.
    rewrite Forall_lookup in Hrows.
    destruct (decide (i = a)) as [->|Hne].
    + rewrite list_lookup_alter_eq in Hi.
      destruct (m !! a) as [r|] eqn:Hr; [|done].
      injection Hi as <-. rewrite length_insert. eauto.
    + rewrite list_lookup_alter_ne in Hi by done. eauto.
Qed.

Lemma entry_set_true n a b m i j :
  square n m → (a < n)%nat → (b < n)%nat →
  entry (set_true a b m) i j
  = if decide (i = a ∧ j = b) then Some true else entry m i j.
Proof.
  intros [Hlen Hrows] Ha Hb. unfold entry, set_true.
  rewrite Forall_lookup in Hrows.
  destruct (decide (i = a)) as [->|Hne].
  - rewrite list_lookup_alter_eq.
    destruct (lookup_lt_is_Some_2 m a) as [r Hr]; [lia|].
    rewrite Hr. simpl. specialize (Hrows _ _ Hr).
    destruct (decide (j = b)) as [->|Hnj].
    + rewrite decide_True by done. apply list_lookup_insert_eq. lia.
    + rewrite decide_False; [|intuition (subst; congruence || lia)].
      by rewrite list_lookup_insert_ne.
  - rewrite list_lookup_alter_ne by done.
    rewrite decide_False; [done|intuition (subst; congruence || lia)].
Qed.

Lemma set_true_pair_symmetric n a b m :
  square n m → (a < n)%nat → (b < n)%nat → symmetric m →
  symmetric (set_true b a (set_true a b m)).
Proof.
  intros Hsq Ha Hb Hsym i j.
  rewrite !(entry_set_true n) by auto using set_true_square.
  rewrite (Hsym i j).
  destruct (decide (i = b ∧ j = a)), (decide (i = a ∧ j = b)),
    (decide (j = b ∧ i = a)), (decide (j = a ∧ i = b)); intuition (subst; congruence || lia).
Qed.

(** C10. The matrix returned by [get_adj_matrix] is symmetric: entry
    [(i, j)] equals entry [(j, i)] for all index pairs. *)
Theorem get_adj_matrix_symmetric edges adj_matrix_labels labels m :
  get_adj_matrix edges adj_matrix_labels labels = Some m →
  ∀ i j, entry m i j = entry m j i.
Proof.
  unfold get_adj_matrix. set (n := length adj_matrix_labels).
  destruct (adj_matrix_labels !! 0%nat) as [first|]; [simpl|done].
  destruct (for_each edges _ _) as [m1|] eqn:Hedges; [simpl|done].
  intros Hdiag.
  assert (square n m1 ∧ symmetric m1) as Hm1.
  { eapply (for_each_inv (λ m0, square n m0 ∧ symmetric m0));
      [| |exact Hedges].
    - split; [apply square_zeros|apply symmetric_zeros].
    - intros [n1 n2] s1 s2 _ [Hsq Hsym] Hbody.
      apply bind_Some in Hbody as (i & Hi & Hbody).
      apply bind_Some in Hbody as (j & Hj & Hbody).
      injection Hbody as <-. apply index_of_lt in Hi, Hj.
      split; [by do 2 apply set_true_square|].
      by apply (set_true_pair_symmetric n). }
  assert (square n m ∧ symmetric m) as [_ Hsym]; [|exact Hsym].
  eapply (for_each_inv (λ m0, square n m0 ∧ symmetric m0));
    [exact Hm1| |exact Hdiag].
  intros b s1 s2 _ [Hsq Hsym] Hbody.
  apply bind_Some in Hbody as (i & Hi & Hbody).
  injection Hbody as <-. apply index_of_lt in Hi.
  split; [by apply set_true_square|].
  intros x y. rewrite !(entry_set_true n) by done.
  rewrite (Hsym x y).
  destruct (decide (x = i ∧ y = i)), (decide (y = i ∧ x = i)); intuition (subst; congruence || lia).
Qed.

Lemma get_adj_matrix_symmetric_witness :
  get_adj_matrix [(1, 2)] [lit "01"; lit "10"] []
  = Some [[false; true]; [true; false]]
  ∧ entry [[false; true]; [true; false]] 0 1
    = entry [[false; true]; [true; false]] 1 0.
Proof.
  split; [reflexivity|].
  apply (get_adj_matrix_symmetric [(1, 2)] [lit "01"; lit "10"] []).
  reflexivity.
Defined.

Lemma diagonal_loop (adj_matrix_labels : list str) bins m0 m :
  square (length adj_matrix_labels) m0 →
  for_each bins
    (λ bin_label adj_matrix,
       i ← index_of bin_label adj_matrix_labels;
       Some (set_true i i adj_matrix)) m0 = Some m →
  ∀ b i, b ∈ bins → index_of b adj_matrix_labels = Some i →
         entry m i i = Some true.
Proof.
  set (n := length adj_matrix_labels).
  assert (∀ bins m0 m, square n m0 →
    for_each bins
      (λ bin_label adj_matrix,
         i ← index_of bin_label adj_matrix_labels;
         Some (set_true i i adj_matrix)) m0 = Some m →
    ∀ i j, entry m0 i j = Some true → entry m i j = Some true) as Hkeep.
  { clear. intros bins. induction bins as [|b bins IH]; simpl.
    - intros m0 m _ [= <-]. auto.
    - intros m0 m Hsq Hrun i j Hij.
      apply bind_Some in Hrun as (m1 & Hb & Hrun).
      apply bind_Some in Hb as (k & Hk & [= <-]).
      apply index_of_lt in Hk.
      apply (IH _ _ (set_true_square _ _ _ _ Hsq) Hrun).
      rewrite (entry_set_true n) by done. by case_decide. }
  revert m0. induction bins as [|b bins IH]; simpl.
  - intros m0 _ _ b i Hb. by apply elem_of_nil in Hb.
  - intros m0 Hsq Hrun b' i Hb' Hi.
    apply bind_Some in Hrun as (m1 & Hb & Hrun).
    apply bind_Some in Hb as (k & Hk & [= <-]).
    pose proof (index_of_lt _ _ _ Hk) as Hlt.
    apply elem_of_cons in Hb' as [->|Hb'].
    + apply (Hkeep _ _ _ (set_true_square _ _ _ _ Hsq) Hrun).
      rewrite Hk in Hi. injection Hi as ->.
      rewrite (entry_set_true n) by done. by rewrite decide_True.
    + by apply (IH _ (set_true_square _ _ _ _ Hsq) Hrun b').
Qed.

(** The second loop pads to nine digits where the first pads to
    [n_entities]: when [get_adj_matrix] returns, the diagonal entry is set
    for every label of the block at the index of its nine-digit string. *)
Lemma get_adj_matrix_diagonal edges adj_matrix_labels labels m l i :
  get_adj_matrix edges adj_matrix_labels labels = Some m →
  l ∈ np_unique labels →
  index_of (zfill 9 (binary_repr l)) adj_matrix_labels = Some i →
  entry m i i = Some true.
Proof.
  unfold get_adj_matrix. set (n := length adj_matrix_labels).
  destruct (adj_matrix_labels !! 0%nat) as [first|]; [simpl|done].
  destruct (for_each edges _ _) as [m1|] eqn:Hedges; [simpl|done].
  intros Hdiag Hl Hi.
  assert (square n m1) as Hm1.
  { eapply (for_each_inv (square n)); [apply square_zeros| |exact Hedges].
    intros [n1 n2] s1 s2 _ Hsq Hbody.
    apply bind_Some in Hbody as (a & Ha & Hbody).
    apply bind_Some in Hbody as (b & Hb & [= <-]).
    by do 2 apply set_true_square. }
  eapply (diagonal_loop _ _ _ _ Hm1 Hdiag); [|exact Hi].
  apply list_elem_of_fmap. eauto.
Qed.

(** C6, at a failing input. One fault and two layers give the canonical
    labels "0101" and "1001"; the label 9 of the block is the second of them,
    and an edge (9, 9) is entered at its index, but the diagonal loop looks
    for "000001001" and raises. *)
Theorem get_adj_matrix_pads_to_9 :
  ∃ fault_labels_bin,
    get_fault_label_comb_bin (get_fault_labels 1) = Some fault_labels_bin
    ∧ let adj_matrix_labels :=
        get_adj_matrix_labels (get_lith_labels_bin 2) fault_labels_bin in
      adj_matrix_labels = [lit "0101"; lit "1001"]
      ∧ labels_of (get_labels_block [1] [[1]]) = Some [9]
      ∧ index_of (zfill 4 (binary_repr 9)) adj_matrix_labels = Some 1%nat
      ∧ get_adj_matrix [(9, 9)] adj_matrix_labels []
        = Some [[false; false]; [false; true]]
      ∧ get_adj_matrix [] adj_matrix_labels [9] = None.
Proof. eexists. split; [reflexivity|]. vm_compute. by split_and!. Qed.

(** [get_adj_matrix] returns when the canonical list is not empty and holds
    the padded string of every label it is asked about. *)
Lemma get_adj_matrix_returns edges (adj_matrix_labels : list str) labels
    first :
  adj_matrix_labels !! 0%nat = Some first →
  (∀ n1 n2, (n1, n2) ∈ edges →
     zfill (Z.of_nat (length first)) (binary_repr n1) ∈ adj_matrix_labels
     ∧ zfill (Z.of_nat (length first)) (binary_repr n2) ∈ adj_matrix_labels) →
  (∀ l, l ∈ labels → zfill 9 (binary_repr l) ∈ adj_matrix_labels) →
  is_Some (get_adj_matrix edges adj_matrix_labels labels).
Proof.
  intros Hfirst Hedges Hlabels. unfold get_adj_matrix. rewrite Hfirst.
  cbn [mbind option_bind].
  destruct (for_each_total (λ _ : list (list bool), True) edges
    (λ '(n1, n2) adj_matrix,
       i ← index_of (zfill (Z.of_nat (length first)) (binary_repr n1))
              adj_matrix_labels;
       j ← index_of (zfill (Z.of_nat (length first)) (binary_repr n2))
              adj_matrix_labels;
       Some (set_true j i (set_true i j adj_matrix)))
    (replicate (length adj_matrix_labels)
       (replicate (length adj_matrix_labels) false)))
    as (m1 & -> & _); [done| |].
  { intros [n1 n2] s1 Hin _. destruct (Hedges _ _ Hin) as [H1 H2].
    destruct (index_of_elem _ _ H1) as [i ->].
    destruct (index_of_elem _ _ H2) as [j ->]. simpl. eauto. }
  cbn [mbind option_bind].
  destruct (for_each_total (λ _ : list (list bool), True)
    ((λ l, zfill 9 (binary_repr l)) <$> np_unique labels)
    (λ bin_label adj_matrix,
       i ← index_of bin_label adj_matrix_labels;
       Some (set_true i i adj_matrix)) m1)
    as (m & -> & _); [done| |done].
  intros b s1 Hb _. apply list_elem_of_fmap in Hb as (l & -> & Hl).
  rewrite np_unique_elem in Hl.
  destruct (index_of_elem _ _ (Hlabels _ Hl)) as [i ->]. simpl. eauto.
Qed.

(** ** The edge set (C3, C8) *)

Lemma set_add_NoDup `{EqDecision A} (x : A) st :
  NoDup st → NoDup (set_add x st).
Proof.
  intros Hst. unfold set_add. case_decide; [done|].
  apply NoDup_app. split_and!; [done| |apply NoDup_singleton].
  intros y Hy ->%list_elem_of_singleton. done.
Qed.

Lemma set_add_elem `{EqDecision A} (x y : A) st :
  y ∈ set_add x st ↔ y = x ∨ y ∈ st.
Proof.
  unfold set_add. case_decide as Hx.
  - split; [auto|]. by intros [->|].
  - rewrite elem_of_app, list_elem_of_singleton. tauto.
Qed.

Lemma edge_step_NoDup labels_block n_shift i tbd edge_sum edges edges' :
  NoDup edges →
  edge_step labels_block n_shift i tbd edge_sum edges = Some edges' →
  NoDup edges'.
Proof.
  intros Hnd. unfold edge_step. destruct (edge_sum =? 0).
  - by intros [= <-].
  - intros Hrun.
    apply bind_Some in Hrun as (sl & _ & Hrun).
    apply bind_Some in Hrun as (n1 & _ & Hrun).
    apply bind_Some in Hrun as (n2 & _ & [= <-]).
    by apply set_add_NoDup.
Qed.

(** C8, as amended. The edge set returned by [get_edges] holds no tuple
    twice: it is deduplicated as a set of ordered tuples. *)
Theorem get_edges_NoDup topo_block_f labels_block n_shift edges :
  get_edges topo_block_f labels_block n_shift = Some edges → NoDup edges.
Proof.
  unfold get_edges.
  apply (for_each_inv (λ es : list (Z * Z), NoDup es)); [constructor|].
  intros [i tbd] es1 es2 _ Hes1.
  apply (for_each_inv (λ es : list (Z * Z), NoDup es)); [done|].
  intros edge_sum s1 s2 _ Hs1. by apply edge_step_NoDup.
Qed.

(** C8, counterexample. In a block of the labels 9 and 10 the label 10 lies
    after 9 along x and 9 lies after 10 along y: the returned set holds both
    (10, 9) and (9, 10). *)
Lemma get_edges_keeps_both_orders :
  ∃ topo_block edges,
    get_topo_block block_two_orders 1 = Some topo_block
    ∧ get_edges topo_block block_two_orders 1 = Some edges
    ∧ 10 ≠ 9 ∧ (10, 9) ∈ edges ∧ (9, 10) ∈ edges.
Proof.
  do 2 eexists. split; [vm_compute; reflexivity|].
  split; [vm_compute; reflexivity|].
  split_and!; [done|compute_done..].
Qed.

Lemma get_edges_NoDup_witness :
  get_edges
    [ [[[19]; [18]]; [[20]; [18]]]; [[[18]; [18]]; [[19]; [18]]];
      [[[18]; [18]]; [[20]; [18]]] ]
    block_two_orders 1
  = Some [(9, 9); (10, 9); (10, 10); (9, 10)]
  ∧ NoDup [(9, 9); (10, 9); (10, 10); (9, 10)].
Proof.
  split; [vm_compute; reflexivity|].
  apply (get_edges_NoDup
           [ [[[19]; [18]]; [[20]; [18]]]; [[[18]; [18]]; [[19]; [18]]];
             [[[18]; [18]]; [[20]; [18]]] ]
           block_two_orders 1).
  vm_compute. reflexivity.
Defined.

(** ** Set bits of sums of powers of two *)

Lemma popcount_double z : 0 <= z → popcount (2 * z) = popcount z.
Proof. destruct z; simpl; done || lia. Qed.

Lemma popcount_double_1 z : 0 <= z → popcount (2 * z + 1) = S (popcount z).
Proof. destruct z; simpl; done || lia. Qed.

Lemma popcount_shift p z :
  0 <= p → 0 <= z → popcount (2 ^ p * z) = popcount z.
Proof.
  intros Hp Hz. revert p Hp. apply natlike_ind.
  - by rewrite Z.mul_1_l.
  - intros p Hp IH. rewrite Z.pow_succ_r by done.
    rewrite <- Z.mul_assoc, popcount_double; [done|]. nia.
Qed.

Lemma pop_pos_succ p : (pop_pos (Pos.succ p) <= S (pop_pos p))%nat.
Proof. induction p; simpl; lia. Qed.

Lemma popcount_succ z : 0 <= z → (popcount (z + 1) <= S (popcount z))%nat.
Proof.
  destruct z as [|p|p]; simpl; [lia| |lia]. intros _.
  rewrite Pos.add_1_r. apply pop_pos_succ.
Qed.

Lemma Z_even_odd_split x : 0 <= x → ∃ y b, 0 <= y ∧ (b = 0 ∨ b = 1) ∧ x = 2 * y + b.
Proof.
  intros Hx. exists (x / 2), (x mod 2).
  pose proof (Z.mod_pos_bound x 2 ltac:(lia)).
  pose proof (Z.div_mod x 2 ltac:(lia)).
  split_and!; [apply Z.div_pos; lia|lia|lia].
Qed.

Lemma popcount_bit y b :
  0 <= y → b = 0 ∨ b = 1 → popcount (2 * y + b) = (popcount y + Z.to_nat b)%nat.
Proof.
  intros Hy [->| ->].
  - rewrite Z.add_0_r, popcount_double by done. simpl. lia.
  - rewrite popcount_double_1 by done. simpl. lia.
Qed.

(** Adding a power of two above the number sets one more bit. *)
Lemma popcount_add_high p x :
  0 <= p → 0 <= x < 2 ^ p → popcount (x + 2 ^ p) = S (popcount x).
Proof.
  intros Hp. revert p Hp x. apply (natlike_ind (λ p, ∀ x, _ → _)).
  - intros x Hx. assert (x = 0) as -> by lia. done.
  - intros p Hp IH x Hx. rewrite Z.pow_succ_r in * by done.
    destruct (Z_even_odd_split x) as (y & b & Hy & Hb & ->); [lia|].
    replace (2 * y + b + 2 * 2 ^ p) with (2 * (y + 2 ^ p) + b) by lia.
    rewrite !popcount_bit by lia. rewrite IH by lia. lia.
Qed.

(** Adding a power of two anywhere sets at most one more bit. *)
Lemma popcount_add_pow2_le p x :
  0 <= p → 0 <= x → (popcount (x + 2 ^ p) <= S (popcount x))%nat.
Proof.
  intros Hp. revert p Hp x. apply (natlike_ind (λ p, ∀ x, _ → _)).
  - intros x Hx. by apply popcount_succ.
  - intros p Hp IH x Hx. rewrite Z.pow_succ_r by done.
    destruct (Z_even_odd_split x) as (y & b & Hy & Hb & ->); [lia|].
    replace (2 * y + b + 2 * 2 ^ p) with (2 * (y + 2 ^ p) + b) by lia.
    rewrite !popcount_bit by lia. specialize (IH y Hy). lia.
Qed.

Lemma sum_pow2_cons p ps : sum_pow2 (p :: ps) = 2 ^ p + sum_pow2 ps.
Proof. done. Qed.

Lemma sum_pow2_app ps qs : sum_pow2 (ps ++ qs) = sum_pow2 ps + sum_pow2 qs.
Proof.
  induction ps as [|p ps IH]; [done|].
  rewrite <- app_comm_cons, !sum_pow2_cons, IH. lia.
Qed.

Lemma sum_pow2_nonneg ps : 0 <= sum_pow2 ps.
Proof.
  induction ps as [|p ps IH]; [done|]. rewrite sum_pow2_cons.
  pose proof (Z.pow_nonneg 2 p ltac:(lia)). lia.
Qed.

Lemma sum_pow2_multiple p ps :
  0 <= p → Forall (λ x, p < x) ps →
  ∃ y, 0 <= y ∧ sum_pow2 ps = 2 ^ (p + 1) * y.
Proof.
  intros Hp. induction 1 as [|x ps Hx _ (y & Hy & IH)].
  - exists 0. split; [done|]. by rewrite Z.mul_0_r.
  - exists (2 ^ (x - (p + 1)) + y). rewrite sum_pow2_cons, IH.
    split; [pose proof (Z.pow_nonneg 2 (x - (p + 1)) ltac:(lia)); lia|].
    rewrite Z.mul_add_distr_l, <- Z.pow_add_r by lia.
    do 2 f_equal. lia.
Qed.

(** Distinct positions: as many set bits as positions. *)
Lemma popcount_sum_pow2_sorted ps :
  Forall (λ x, 0 <= x) ps → StronglySorted Z.lt ps →
  popcount (sum_pow2 ps) = length ps.
Proof.
  intros Hnn Hs. induction Hs as [|p ps Hs IH Hp]; [done|].
  apply Forall_cons in Hnn as [Hp0 Hnn]. specialize (IH Hnn).
  destruct (sum_pow2_multiple p ps) as (y & Hy & Hsum); [done..|].
  rewrite sum_pow2_cons. simpl. rewrite <- IH, Hsum.
  rewrite Z.pow_add_r by lia.
  replace (2 ^ p + 2 ^ p * 2 ^ 1 * y) with (2 ^ p * (2 * y + 1)) by lia.
  rewrite popcount_shift by lia. rewrite popcount_double_1 by done.
  replace (2 ^ p * 2 ^ 1 * y) with (2 ^ (p + 1) * y)
    by (rewrite Z.pow_add_r by lia; lia).
  by rewrite popcount_shift by lia.
Qed.

Lemma popcount_sum_pow2_le ps :
  Forall (λ x, 0 <= x) ps → (popcount (sum_pow2 ps) <= length ps)%nat.
Proof.
  induction 1 as [|p ps Hp _ IH]; [done|].
  rewrite sum_pow2_cons, Z.add_comm. simpl.
  pose proof (popcount_add_pow2_le p (sum_pow2 ps) Hp (sum_pow2_nonneg ps)).
  lia.
Qed.

(** A position that occurs twice in a row: fewer set bits than positions. *)
Lemma popcount_sum_pow2_repeated l1 p l2 :
  Forall (λ x, 0 <= x) (l1 ++ p :: p :: l2) →
  (popcount (sum_pow2 (l1 ++ p :: p :: l2)) < length (l1 ++ p :: p :: l2))%nat.
Proof.
  intros Hnn.
  assert (sum_pow2 (l1 ++ p :: p :: l2) = sum_pow2 (l1 ++ (p + 1) :: l2))
    as ->.
  { rewrite !sum_pow2_app, !sum_pow2_cons.
    apply Forall_app in Hnn as [_ Hnn]. apply Forall_cons in Hnn as [Hp _].
    rewrite Z.pow_add_r by lia. lia. }
  apply Nat.le_lt_trans with (length (l1 ++ (p + 1) :: l2)).
  - apply popcount_sum_pow2_le.
    apply Forall_app in Hnn as [H1 Hnn]. apply Forall_cons in Hnn as [Hp Hnn].
    apply Forall_cons in Hnn as [_ H2].
    apply Forall_app. split; [done|]. apply Forall_cons. split; [lia|done].
  - rewrite !length_app. simpl. lia.
Qed.

(** ** Bit positions of the fault layers *)

Lemma positions_from_length k col :
  length (positions_from k col) = length col.
Proof. revert k. induction col as [|a col IH]; intros k; simpl; auto. Qed.

Lemma positions_from_lower k col :
  sides col → Forall (λ x, k <= x) (positions_from k col).
Proof.
  intros Hc. revert k. induction Hc as [|a col Ha _ IH]; intros k; simpl.
  - constructor.
  - constructor; [lia|]. eapply Forall_impl; [apply IH|]. simpl. lia.
Qed.

Lemma sum_pow2_positions_upper k col :
  0 <= k → sides col →
  sum_pow2 (positions_from k col)
  <= 2 ^ (k + Z.of_nat (length col) + 1) - 2 ^ (k + 1).
Proof.
  intros Hk Hc. revert k Hk.
  induction Hc as [|a col Ha _ IH]; intros k Hk.
  - simpl. rewrite Z.add_0_r. unfold sum_pow2. simpl. lia.
  - cbn [positions_from length]. rewrite sum_pow2_cons.
    specialize (IH (k + 1) ltac:(lia)).
    replace (k + 1 + Z.of_nat (length col) + 1)
      with (k + Z.of_nat (S (length col)) + 1) in IH by lia.
    assert (2 ^ (a - 1 + k) <= 2 ^ (k + 1))
      by (apply Z.pow_le_mono_r; lia).
    assert (2 ^ (k + 1 + 1) = 2 * 2 ^ (k + 1))
      by (rewrite (Z.pow_add_r 2 (k + 1) 1) by lia; lia).
    lia.
Qed.

Lemma positions_from_sorted k col :
  sides col → collides col = false →
  StronglySorted Z.lt (positions_from k col)
  ∧ (head col = Some 2 → Forall (λ x, k + 1 <= x) (positions_from k col)).
Proof.
  intros Hc. revert k. induction Hc as [|a col Ha Hc IH]; intros k Hno.
  - split; constructor.
  - cbn [positions_from]. destruct col as [|b col'].
    + simpl. split; [repeat constructor|].
      intros [= ->]. repeat constructor. lia.
    + cbn [collides] in Hno. apply orb_false_iff in Hno as [Hab Hno].
      destruct (IH (k + 1) Hno) as [Hs Hhd].
      pose proof (positions_from_lower (k + 1) _ Hc) as Hlow.
      assert (Forall (λ x, a - 1 + k < x) (positions_from (k + 1) (b :: col')))
        as Hlt.
      { destruct Ha as [->| ->].
        - eapply Forall_impl; [exact Hlow|]. simpl. lia.
        - apply Forall_cons in Hc as [[->| ->] _]; [done|].
          eapply Forall_impl; [by apply Hhd|]. simpl. lia. }
      split; [by constructor|].
      intros [= ->]. constructor; [lia|].
      eapply Forall_impl; [exact Hlt|]. simpl. lia.
Qed.

Lemma positions_from_repeated k col :
  collides col = true →
  ∃ l1 p l2, positions_from k col = l1 ++ p :: p :: l2.
Proof.
  revert k. induction col as [|a col IH]; intros k; [done|].
  cbn [collides]. destruct col as [|b col']; [done|].
  intros [Hab|Hrec]%orb_true_iff.
  - apply andb_true_iff in Hab as [->%Z.eqb_eq ->%Z.eqb_eq].
    exists [], (k + 1), (positions_from (k + 1 + 1) col').
    cbn [positions_from app].
    replace (2 - 1 + k) with (k + 1) by lia.
    replace (1 - 1 + (k + 1)) with (k + 1) by lia. done.
  - destruct (IH (k + 1) Hrec) as (l1 & p & l2 & Heq).
    exists ((a - 1 + k) :: l1), p, l2.
    cbn [positions_from]. cbn [positions_from] in Heq. by rewrite Heq.
Qed.

(** [collides], by positions in the column. *)
Lemma collides_lookup col :
  collides col = true
  ↔ ∃ i : nat, col !! i = Some 2 ∧ col !! S i = Some 1.
Proof.
  induction col as [|a col IH]; simpl.
  - split; [done|]. by intros (i & Hi & _).
  - destruct col as [|b col'].
    + split; [done|]. by intros (i & _ & Hi).
    + rewrite orb_true_iff, IH, andb_true_iff, !Z.eqb_eq. split.
      * intros [[-> ->]|(i & H1 & H2)]; [by exists 0%nat|by exists (S i)].
      * intros ([|i] & H1 & H2); simplify_eq/=; eauto.
Qed.

(** The label of a voxel: the lithology bit [q] lies above all fault bits,
    the label is positive, and it has one set bit per layer of the stack
    exactly when no two fault layers share a position. *)
Lemma label_popcount q col :
  sides col → Z.of_nat (length col) + 2 <= q →
  let label := 2 ^ q + sum_pow2 (positions_from 0 col) in
  0 < label < 2 ^ (q + 1)
  ∧ (popcount label = S (length col) ↔ collides col = false).
Proof.
  intros Hc Hq label.
  pose proof (sum_pow2_positions_upper 0 col ltac:(lia) Hc) as Hup.
  pose proof (sum_pow2_nonneg (positions_from 0 col)) as Hnn.
  assert (2 ^ (0 + Z.of_nat (length col) + 1) <= 2 ^ q)
    by (apply Z.pow_le_mono_r; lia).
  assert (0 < 2 ^ q) by (apply Z.pow_pos_nonneg; lia).
  assert (2 ^ (q + 1) = 2 * 2 ^ q)
    by (rewrite Z.pow_add_r by lia; lia).
  split; [unfold label; simpl in *; lia|].
  unfold label. rewrite Z.add_comm.
  rewrite popcount_add_high by (simpl in *; lia).
  pose proof (positions_from_lower 0 col Hc) as Hlow.
  split.
  - intros Hpop. destruct (collides col) eqn:Hcol; [|done].
    destruct (positions_from_repeated 0 col Hcol) as (l1 & p & l2 & Heq).
    pose proof (popcount_sum_pow2_repeated l1 p l2) as Hlt.
    rewrite <- Heq, positions_from_length in Hlt.
    specialize (Hlt Hlow). lia.
  - intros Hcol. f_equal.
    rewrite popcount_sum_pow2_sorted, positions_from_length; [done..|].
    by apply positions_from_sorted.
Qed.

(** ** The labels of [get_labels_block], voxel by voxel *)

Lemma np_min_spec l m :
  np_min l = Some m → m ∈ l ∧ ∀ x, x ∈ l → m <= x.
Proof.
  destruct l as [|y l]; [done|]. simpl. intros [= <-].
  revert y. induction l as [|z l IH]; intros y; simpl.
  - split; [by left|]. intros x ->%list_elem_of_singleton. lia.
  - destruct (IH (Z.min y z)) as [Hin Hle]. split.
    + apply elem_of_cons in Hin as [Heq|Hin]; [|by do 2 right].
      rewrite Heq. destruct (Z.min_spec y z) as [[_ ->]|[_ ->]];
        [by left|right; by left].
    + intros x Hx. assert (foldl Z.min (Z.min y z) l <= Z.min y z) as Hm
        by (apply Hle; by left).
      apply elem_of_cons in Hx as [->|Hx]; [lia|].
      apply elem_of_cons in Hx as [->|Hx]; [lia|].
      apply Hle. by right.
Qed.

Lemma mapM_pow2 row :
  Forall (λ e, 0 <= e <= 62) row →
  mapM Int64.pow2 row = Some ((λ e, 2 ^ e) <$> row).
Proof.
  intros Hrow. apply mapM_Some. apply Forall2_fmap_r, Forall_Forall2_diag.
  eapply Forall_impl; [exact Hrow|]. simpl. intros e He.
  unfold Int64.pow2. destruct (e <? 0) eqn:Hlt; [lia|]. f_equal.
  apply wrap_id. unfold Int64.in_range.
  assert (0 < 2 ^ e) by (apply Z.pow_pos_nonneg; lia).
  assert (2 ^ e <= 2 ^ 62) by (apply Z.pow_le_mono_r; lia). lia.
Qed.

Lemma mapM_mapM_pow2 rows :
  Forall (Forall (λ e, 0 <= e <= 62)) rows →
  mapM (mapM Int64.pow2) rows
  = Some ((λ row : list Z, (λ e, 2 ^ e) <$> row) <$> rows).
Proof.
  intros Hrows. apply mapM_Some. apply Forall2_fmap_r, Forall_Forall2_diag.
  eapply Forall_impl; [exact Hrows|]. simpl. apply mapM_pow2.
Qed.

Lemma foldl_zip_with_add_lookup r rs v :
  Forall (λ row : list Z, length row = length r) rs →
  foldl (zip_with Int64.add) r rs !! v
  = x ← r !! v; Some (foldl Int64.add x (column rs v)).
Proof.
  revert r. induction rs as [|row rs IH]; intros r Hrs; simpl.
  - by destruct (r !! v).
  - apply Forall_cons in Hrs as [Hrow Hrs]. rewrite IH.
    + rewrite lookup_zip_with. destruct (r !! v) as [x|] eqn:Hx; [|done].
      simpl. destruct (row !! v) as [y|] eqn:Hy; [done|].
      apply lookup_lt_Some in Hx. apply lookup_ge_None in Hy. lia.
    + eapply Forall_impl; [exact Hrs|]. simpl. intros row' ->.
      rewrite length_zip_with. lia.
Qed.

Lemma foldl_add64 x ys :
  foldl Int64.add (Int64.wrap x) ys
  = Int64.wrap (x + foldr Z.add 0 ys).
Proof.
  revert x. induction ys as [|y ys IH]; intros x; simpl.
  - by rewrite Z.add_0_r.
  - unfold Int64.add at 2. rewrite wrap_add_l, IH. f_equal. lia.
Qed.

Lemma column_fmap (f : Z → Z) rows v :
  Forall (λ row : list Z, (v < length row)%nat) rows →
  column ((λ row : list Z, f <$> row) <$> rows) v = f <$> column rows v.
Proof.
  intros Hrows. unfold column. rewrite <- !list_fmap_compose.
  apply Forall_fmap_ext. eapply Forall_impl; [exact Hrows|]. simpl.
  intros row Hv. rewrite list_lookup_fmap.
  destruct (lookup_lt_is_Some_2 row v Hv) as [y ->]. done.
Qed.

(** Lines 55 and 56 at one voxel: fault layer [i] on side [side] gets the
    position [side - 1 + i]. *)
Lemma column_shifted_from (k : nat) fb v :
  Forall (λ row : list Z, (v < length row)%nat ∧ sides row) fb →
  Z.of_nat k + Z.of_nat (length fb) <= 62 →
  column (zip_with (λ i (row : list Z), (λ x, Int64.add x i) <$> row)
            (Z.of_nat <$> seq k (length fb)) (fb_sub_1 fb)) v
  = positions_from (Z.of_nat k) (column fb v).
Proof.
  revert k. induction fb as [|row fb IH]; intros k Hfb Hk; [done|].
  apply Forall_cons in Hfb as [[Hv Hrow] Hfb].
  cbn [length seq fmap list_fmap fb_sub_1 zip_with column positions_from].
  f_equal.
  - rewrite !list_lookup_fmap.
    destruct (lookup_lt_is_Some_2 row v Hv) as [y Hy]. rewrite Hy. simpl.
    unfold sides in Hrow. rewrite Forall_lookup in Hrow.
    specialize (Hrow _ _ Hy). unfold Int64.add, Int64.sub.
    rewrite wrap_add_l. apply wrap_id. unfold Int64.in_range.
    cbn [length] in Hk. lia.
  - specialize (IH (S k) Hfb). cbn [length] in Hk.
    replace (Z.of_nat k + 1) with (Z.of_nat (S k)) by lia.
    apply IH. lia.
Qed.

Lemma column_fb_after lb fb v :
  Forall (λ row : list Z, (v < length row)%nat ∧ sides row) fb →
  Z.of_nat (length fb) <= 62 →
  column (fb_after (get_labels_block lb fb)) v
  = positions_from 0 (column fb v).
Proof.
  intros Hfb Hn. cbn [get_labels_block fb_after]. unfold fb_add_arange, arange.
  replace (length (fb_sub_1 fb)) with (length fb)
    by (unfold fb_sub_1; by rewrite length_fmap).
  by apply (column_shifted_from 0).
Qed.

Lemma Forall_zip_with_r {A B} (P : B → Prop) (f : A → B → B) is_ l :
  Forall P l → (∀ i x, P x → P (f i x)) → Forall P (zip_with f is_ l).
Proof.
  intros Hl Hf. revert is_. induction Hl as [|x l Hx _ IH]; intros [|i is_];
    simpl; constructor; auto.
Qed.

Lemma fb_after_row_length lb fb n :
  Forall (λ row : list Z, length row = n) fb →
  Forall (λ row : list Z, length row = n) (fb_after (get_labels_block lb fb)).
Proof.
  intros Hfb. cbn [get_labels_block fb_after]. unfold fb_add_arange.
  apply Forall_zip_with_r.
  - unfold fb_sub_1. apply Forall_fmap. eapply Forall_impl; [exact Hfb|].
    simpl. intros row <-. by rewrite length_fmap.
  - intros i row <-. by rewrite length_fmap.
Qed.

Lemma shifted_from_bounds (k : nat) fb :
  Forall sides fb → Z.of_nat k + Z.of_nat (length fb) <= 62 →
  Forall (Forall (λ e, 0 <= e <= 62))
    (zip_with (λ i (row : list Z), (λ x, Int64.add x i) <$> row)
       (Z.of_nat <$> seq k (length fb)) (fb_sub_1 fb)).
Proof.
  revert k. induction fb as [|row fb IH]; intros k Hfb Hk; [constructor|].
  apply Forall_cons in Hfb as [Hrow Hfb].
  cbn [length seq fmap list_fmap fb_sub_1 zip_with]. cbn [length] in Hk.
  constructor; [|apply (IH (S k)); [done|lia]].
  rewrite <- list_fmap_compose. apply Forall_fmap.
  eapply Forall_impl; [exact Hrow|]. simpl. intros y Hy.
  unfold Int64.add, Int64.sub. rewrite wrap_add_l, wrap_id;
    unfold Int64.in_range; lia.
Qed.

Lemma fb_after_bounds lb fb :
  Forall sides fb → Z.of_nat (length fb) <= 62 →
  Forall (Forall (λ e, 0 <= e <= 62)) (fb_after (get_labels_block lb fb)).
Proof.
  intros Hfb Hn. cbn [get_labels_block fb_after]. unfold fb_add_arange, arange.
  replace (length (fb_sub_1 fb)) with (length fb)
    by (unfold fb_sub_1; by rewrite length_fmap).
  by apply (shifted_from_bounds 0).
Qed.

Lemma column_sides fb v :
  Forall (λ row : list Z, (v < length row)%nat ∧ sides row) fb →
  sides (column fb v).
Proof.
  intros Hfb. unfold column, sides. apply Forall_fmap.
  eapply Forall_impl; [exact Hfb|]. simpl. intros row [Hv Hrow].
  destruct (lookup_lt_is_Some_2 row v Hv) as [y Hy]. rewrite Hy. simpl.
  unfold sides in Hrow. rewrite Forall_lookup in Hrow. eauto.
Qed.

Lemma column_length fb v : length (column fb v) = length fb.
Proof. unfold column. by rewrite length_fmap. Qed.

Lemma foldl_zip_with_length (f : Z → Z → Z) r rs :
  Forall (λ row : list Z, length row = length r) rs →
  length (foldl (zip_with f) r rs) = length r.
Proof.
  revert r. induction rs as [|row rs IH]; intros r Hrs; [done|].
  apply Forall_cons in Hrs as [Hrow Hrs]. simpl. rewrite IH.
  - rewrite length_zip_with. lia.
  - eapply Forall_impl; [exact Hrs|]. simpl. intros row' ->.
    rewrite length_zip_with. lia.
Qed.

(** The labels of a valid input that fits 64 bits: the voxel with lithology
    [x] and the sides [column fb v] gets the bit [x - min + n_faults + 2] and
    the bits of its fault sides. *)
Lemma get_labels_block_labels n_layers lb fb :
  valid_input n_layers lb fb →
  Z.of_nat (length fb) + n_layers <= 61 →
  ∃ m labels,
    np_min lb = Some m ∧ m ∈ lb
    ∧ labels_of (get_labels_block lb fb) = Some labels
    ∧ length labels = length lb
    ∧ ∀ v x, lb !! v = Some x →
        m <= x
        ∧ labels !! v
          = Some (2 ^ (x - m + Z.of_nat (length fb) + 2)
                  + sum_pow2 (positions_from 0 (column fb v))).
Proof.
  intros (Hne & Hlb & Hfb) Hfit.
  destruct (np_min lb) as [m|] eqn:Hmin; [|by destruct lb].
  destruct (np_min_spec _ _ Hmin) as [Hm Hle].
  rewrite Forall_forall in Hlb. pose proof (Hlb _ Hm) as Hm1.
  set (nf := Z.of_nat (length fb)) in *.
  assert (∀ x, x ∈ lb →
    Int64.add (Int64.add (Int64.sub x m) nf) 2 = x - m + nf + 2) as Hq.
  { intros x Hx. specialize (Hlb _ Hx). specialize (Hle _ Hx).
    unfold Int64.add, Int64.sub.
    rewrite (wrap_id (x - m)) by (unfold Int64.in_range; lia).
    rewrite (wrap_id (x - m + nf)) by (unfold Int64.in_range; lia).
    apply wrap_id. unfold Int64.in_range. lia. }
  set (fb' := fb_after (get_labels_block lb fb)).
  set (lb' := (λ x, x - m + nf + 2) <$> lb).
  assert (Forall (λ row : list Z, length row = length lb) fb') as Hlen'.
  { apply fb_after_row_length. eapply Forall_impl; [exact Hfb|].
    simpl. tauto. }
  assert (labels_of (get_labels_block lb fb)
          = Some (foldl (zip_with Int64.add) ((λ e, 2 ^ e) <$> lb')
                    ((λ row : list Z, (λ e, 2 ^ e) <$> row) <$> fb')))
    as Hlabels.
  { cbn [get_labels_block labels_of]. rewrite Hmin. cbn [mbind option_bind].
    fold nf. fold fb'.
    replace ((λ x, Int64.add (Int64.add (Int64.sub x m) nf) 2) <$> lb)
      with lb'
      by (apply Forall_fmap_ext, Forall_forall; intros x Hx; by rewrite Hq).
    unfold concatenate_rows.
    replace (forallb _ fb') with true.
    2:{ symmetry. apply forallb_forall. intros row Hrow%list_elem_of_In.
        rewrite Forall_forall in Hlen'. apply Nat.eqb_eq.
        unfold lb'. rewrite length_fmap. auto. }
    cbn [mbind option_bind]. rewrite mapM_mapM_pow2; [done|].
    constructor.
    - unfold lb'. apply Forall_fmap, Forall_forall. intros x Hx. simpl.
      specialize (Hlb _ Hx). specialize (Hle _ Hx). lia.
    - apply (fb_after_bounds lb); [|lia].
      eapply Forall_impl; [exact Hfb|]. simpl. tauto. }
  assert (Forall (λ row : list Z, length row = length ((λ e, 2 ^ e) <$> lb'))
            ((λ row : list Z, (λ e, 2 ^ e) <$> row) <$> fb')) as Hlen2.
  { apply Forall_fmap. eapply Forall_impl; [exact Hlen'|]. simpl.
    intros row Hrow. unfold lb'. by rewrite !length_fmap. }
  exists m, (foldl (zip_with Int64.add) ((λ e, 2 ^ e) <$> lb')
               ((λ row : list Z, (λ e, 2 ^ e) <$> row) <$> fb')).
  split_and!; [done|done|done| |].
  - rewrite foldl_zip_with_length by done. unfold lb'.
    by rewrite !length_fmap.
  - intros v x Hv. assert (x ∈ lb) as Hx by (by eapply list_elem_of_lookup_2).
    split; [by apply Hle|].
    pose proof (lookup_lt_Some _ _ _ Hv) as Hvlt.
    assert (Forall (λ row : list Z, (v < length row)%nat ∧ sides row) fb)
      as Hcol.
    { eapply Forall_impl; [exact Hfb|]. simpl. intros row [-> ?]. done. }
    rewrite foldl_zip_with_add_lookup by done.
    unfold lb'. rewrite !list_lookup_fmap, Hv. cbn [fmap option_fmap option_map mbind option_bind].
    f_equal. rewrite column_fmap.
    2:{ eapply Forall_impl; [exact Hlen'|]. simpl. intros row ->. done. }
    unfold fb'. rewrite column_fb_after by (done || lia).
    specialize (Hlb _ Hx). specialize (Hle _ Hx).
    destruct (label_popcount (x - m + nf + 2) (column fb v)) as [Hrange _].
    { by apply column_sides. }
    { rewrite column_length. fold nf. lia. }
    assert (2 ^ (x - m + nf + 2 + 1) <= 2 ^ 63)
      by (apply Z.pow_le_mono_r; lia).
    assert (0 < 2 ^ (x - m + nf + 2)) by (apply Z.pow_pos_nonneg; lia).
    pose proof (sum_pow2_nonneg (positions_from 0 (column fb v))).
    rewrite <- (wrap_id (2 ^ (x - m + nf + 2))) at 1
      by (unfold Int64.in_range; lia).
    rewrite foldl_add64. apply wrap_id. unfold Int64.in_range, sum_pow2 in *.
    lia.
Qed.

(** ** Set bits of the labels (C1) *)

Ltac solve_valid_input :=
  unfold valid_input, sides;
  split_and!; [done|..];
  repeat first
    [ apply Forall_nil_2
    | apply Forall_cons_2
    | split
    | reflexivity
    | lia
    | (left; reflexivity)
    | (right; reflexivity) ].

(** C1, counterexample. Two faults, one voxel on side 2 of the first fault
    and side 1 of the second: both fault layers get bit 1, the label is
    [2^4 + 2^1 + 2^1 = 20] and has two set bits, not three. *)
Lemma get_labels_block_shared_bit :
  valid_input 1 [1] [[2]; [1]]
  ∧ labels_of (get_labels_block [1] [[2]; [1]]) = Some [20]
  ∧ popcount 20 = 2%nat
  ∧ popcount 20 ≠ S (length [[2]; [1]]).
Proof. split; [solve_valid_input|]. vm_compute. by split_and!. Qed.

(** C1, as amended. For a lithology volume with ids from 1 to [n_layers] and
    a fault stack with the sides 1 and 2 whose labels fit 64 bits
    ([n_faults + n_layers <= 61]), [get_labels_block] returns one label per
    voxel; every label is positive, and it has exactly [n_faults + 1] set
    bits if and only if no fault layer has side 2 at that voxel while the
    next layer has side 1. *)
Theorem get_labels_block_popcount n_layers lb fb :
  valid_input n_layers lb fb →
  Z.of_nat (length fb) + n_layers <= 61 →
  ∃ labels,
    labels_of (get_labels_block lb fb) = Some labels
    ∧ length labels = length lb
    ∧ ∀ v label, labels !! v = Some label →
        0 < label
        ∧ (popcount label = S (length fb)
           ↔ collides (column fb v) = false).
Proof.
  intros Hvalid Hfit.
  destruct (get_labels_block_labels _ _ _ Hvalid Hfit)
    as (m & labels & Hmin & Hm & Hlabels & Hlen & Hv).
  destruct Hvalid as (Hne & Hlb & Hfb).
  exists labels. split_and!; [done..|]. intros v label Hlabel.
  destruct (lookup_lt_is_Some_2 lb v) as [x Hx].
  { rewrite <- Hlen. by eapply lookup_lt_Some. }
  destruct (Hv _ _ Hx) as [Hmx Hl]. rewrite Hlabel in Hl.
  injection Hl as ->.
  destruct (label_popcount (x - m + Z.of_nat (length fb) + 2) (column fb v))
    as [Hrange Hpop].
  - apply column_sides. eapply Forall_impl; [exact Hfb|]. simpl.
    intros row [-> ?]. split; [|done]. by eapply lookup_lt_Some.
  - rewrite column_length. lia.
  - rewrite column_length in Hpop. split; [lia|done].
Qed.

Lemma get_labels_block_popcount_witness :
  (valid_input 2 [1; 2; 2] [[1; 2; 2]; [1; 1; 2]]
   ∧ Z.of_nat (length [[1; 2; 2]; [1; 1; 2]]) + 2 <= 61)
  ∧ ∃ labels,
      labels_of (get_labels_block [1; 2; 2] [[1; 2; 2]; [1; 1; 2]])
      = Some labels
      ∧ length labels = length [1; 2; 2]
      ∧ ∀ v label, labels !! v = Some label →
          0 < label
          ∧ (popcount label = S (length [[1; 2; 2]; [1; 1; 2]])
             ↔ collides (column [[1; 2; 2]; [1; 1; 2]] v) = false).
Proof.
  split; [split; [solve_valid_input|simpl; lia]|].
  apply (get_labels_block_popcount 2); [solve_valid_input|simpl; lia].
Defined.

Lemma collides_at_most_one_fault col :
  (length col <= 1)%nat → collides col = false.
Proof. destruct col as [|a [|b col]]; simpl; done || lia. Qed.

(** With at most one fault no two layers can share a bit: every label has
    exactly [n_faults + 1] set bits. *)
Lemma get_labels_block_popcount_one_fault n_layers lb fb :
  valid_input n_layers lb fb →
  (length fb <= 1)%nat → n_layers <= 60 →
  ∃ labels,
    labels_of (get_labels_block lb fb) = Some labels
    ∧ ∀ v label, labels !! v = Some label →
        0 < label ∧ popcount label = S (length fb).
Proof.
  intros Hvalid Hn Hfit.
  destruct (get_labels_block_labels n_layers lb fb Hvalid ltac:(lia))
    as (m & labels & Hmin & Hm & Hlabels & Hlen & Hv).
  destruct Hvalid as (Hne & Hlb & Hfb).
  exists labels. split; [done|]. intros v label Hlabel.
  destruct (lookup_lt_is_Some_2 lb v) as [x Hx].
  { rewrite <- Hlen. by eapply lookup_lt_Some. }
  destruct (Hv _ _ Hx) as [Hmx Hl]. rewrite Hlabel in Hl.
  injection Hl as ->.
  destruct (label_popcount (x - m + Z.of_nat (length fb) + 2) (column fb v))
    as [Hrange Hpop].
  - apply column_sides. eapply Forall_impl; [exact Hfb|]. simpl.
    intros row [-> ?]. split; [|done]. by eapply lookup_lt_Some.
  - rewrite column_length. lia.
  - rewrite column_length in Hpop. split; [lia|].
    apply Hpop, collides_at_most_one_fault. by rewrite column_length.
Qed.

(** When fault layer [i] holds the values [i + 1] and [i + 2] instead of the
    sides 1 and 2, lines 55 and 56 give it the positions [2 i] and [2 i + 1],
    the pair of [get_fault_labels]: with two faults the labels of the block
    are the canonical label strings, three set bits each. *)
Lemma labels_of_consecutive_ids_are_canonical :
  ∃ labels fault_labels_bin,
    labels_of (get_labels_block [1; 1; 1; 1] [[1; 1; 2; 2]; [2; 3; 2; 3]])
    = Some labels
    ∧ get_fault_label_comb_bin (get_fault_labels 2) = Some fault_labels_bin
    ∧ (λ l, zfill 5 (binary_repr l)) <$> labels
      = get_adj_matrix_labels (get_lith_labels_bin 1) fault_labels_bin
    ∧ popcount <$> labels = [3; 3; 3; 3]%nat.
Proof.
  do 2 eexists. split; [vm_compute; reflexivity|].
  split; [vm_compute; reflexivity|]. vm_compute. by split.
Qed.

(** ** Binary strings *)

Lemma bin_value_foldl a x :
  foldl (λ acc c, 2 * acc + bit_val c) a x
  = a * 2 ^ Z.of_nat (length x) + bin_value x.
Proof.
  unfold bin_value. revert a. induction x as [|c x IH]; intros a.
  - simpl. lia.
  - cbn [foldl length]. rewrite IH, (IH (2 * 0 + bit_val c)).
    rewrite Nat2Z.inj_succ, Z.pow_succ_r by lia. lia.
Qed.

Lemma bin_value_cons c x :
  bin_value (c :: x) = bit_val c * 2 ^ Z.of_nat (length x) + bin_value x.
Proof.
  unfold bin_value at 1. cbn [foldl]. rewrite bin_value_foldl. lia.
Qed.

Lemma bin_value_app x y :
  bin_value (x ++ y)
  = bin_value x * 2 ^ Z.of_nat (length y) + bin_value y.
Proof.
  unfold bin_value at 1. rewrite foldl_app. fold (bin_value x).
  apply bin_value_foldl.
Qed.

Lemma bit_val_range c : 0 <= bit_val c <= 1.
Proof. unfold bit_val. case_bool_decide; lia. Qed.

Lemma bin_value_range x : 0 <= bin_value x < 2 ^ Z.of_nat (length x).
Proof.
  induction x as [|c x IH]; [done|].
  rewrite bin_value_cons. cbn [length].
  rewrite Nat2Z.inj_succ, Z.pow_succ_r by lia.
  pose proof (bit_val_range c). nia.
Qed.

Lemma bin_value_zeros n : bin_value (replicate n "0"%char) = 0.
Proof.
  induction n as [|n IH]; [done|]. simpl. rewrite bin_value_cons, IH. done.
Qed.

Lemma is_bits_zeros n : is_bits (replicate n "0"%char).
Proof. apply Forall_replicate. by left. Qed.

Lemma bit_val_inj c d :
  c = "0"%char ∨ c = "1"%char → d = "0"%char ∨ d = "1"%char →
  bit_val c = bit_val d → c = d.
Proof. by intros [->| ->] [->| ->]. Qed.

(** Binary strings of one length that denote the same number are equal. *)
Lemma bin_value_inj x y :
  is_bits x → is_bits y → length x = length y →
  bin_value x = bin_value y → x = y.
Proof.
  intros Hx. revert y. induction Hx as [|c x Hc Hx IH]; intros y Hy Hlen Hval.
  - by destruct y.
  - destruct Hy as [|d y Hd Hy]; [done|]. injection Hlen as Hlen.
    rewrite !bin_value_cons, Hlen in Hval.
    pose proof (bin_value_range x) as Rx. pose proof (bin_value_range y) as Ry.
    rewrite Hlen in Rx.
    pose proof (bit_val_range c). pose proof (bit_val_range d).
    assert (bit_val c = bit_val d) as Hcd by nia.
    rewrite Hcd in Hval.
    f_equal; [by apply bit_val_inj|]. apply IH; [done..|lia].
Qed.

Lemma bin_pos_app p acc : bin_pos p acc = bin_pos p [] ++ acc.
Proof.
  revert acc. induction p as [p IH|p IH|]; intros acc; simpl; [| |done].
  - rewrite IH, (IH ["1"%char]), <- app_assoc. done.
  - rewrite IH, (IH ["0"%char]), <- app_assoc. done.
Qed.

Lemma bin_pos_bits p : is_bits (bin_pos p []).
Proof.
  unfold is_bits. induction p as [p IH|p IH|]; simpl.
  - rewrite bin_pos_app. apply Forall_app. split; [done|].
    apply Forall_singleton. by right.
  - rewrite bin_pos_app. apply Forall_app. split; [done|].
    apply Forall_singleton. by left.
  - apply Forall_singleton. by right.
Qed.

Lemma bin_pos_value p : bin_value (bin_pos p []) = Z.pos p.
Proof.
  induction p as [p IH|p IH|]; cbn [bin_pos]; [| |done].
  - rewrite bin_pos_app, bin_value_app, IH, (Pos2Z.inj_xI p).
    change (2 ^ Z.of_nat (length ["1"%char])) with 2.
    change (bin_value ["1"%char]) with 1. lia.
  - rewrite bin_pos_app, bin_value_app, IH, (Pos2Z.inj_xO p).
    change (2 ^ Z.of_nat (length ["0"%char])) with 2.
    change (bin_value ["0"%char]) with 0. lia.
Qed.

Lemma bin_pos_head p : ∃ rest, bin_pos p [] = "1"%char :: rest.
Proof.
  induction p as [p [rest IH]|p [rest IH]|]; simpl.
  - rewrite bin_pos_app, IH. eauto.
  - rewrite bin_pos_app, IH. eauto.
  - eauto.
Qed.

(** The set bits are the characters '1' of [np.binary_repr]. *)
Lemma popcount_binary_repr z :
  popcount z
  = length (filter (λ c, c = "1"%char) (binary_repr z : list ascii)).
Proof.
  assert (∀ p, pop_pos p
               = length (filter (λ c, c = "1"%char)
                           (bin_pos p [] : list ascii))) as Hpos.
  { induction p as [p IH|p IH|]; cbn [bin_pos pop_pos]; [| |done].
    - rewrite (bin_pos_app p ["1"%char]), filter_app, length_app, <- IH.
      simpl. lia.
    - rewrite (bin_pos_app p ["0"%char]), filter_app, length_app, <- IH.
      simpl. lia. }
  destruct z as [|p|p]; simpl; [done|apply Hpos|].
  rewrite filter_cons, decide_False by done. apply Hpos.
Qed.

(** The digits of a positive number: as many as its size in bits. *)
Lemma binary_repr_pos z :
  0 < z →
  is_bits (binary_repr z) ∧ bin_value (binary_repr z) = z
  ∧ 2 ^ (Z.of_nat (length (binary_repr z)) - 1) <= z
  ∧ ∃ rest, binary_repr z = "1"%char :: rest.
Proof.
  destruct z as [|p|p]; [lia| |lia]. intros _. simpl.
  split_and!; [apply bin_pos_bits|apply bin_pos_value| |apply bin_pos_head].
  destruct (bin_pos_head p) as [rest Hrest].
  rewrite <- (bin_pos_value p). rewrite Hrest, bin_value_cons.
  cbn [length]. replace (Z.of_nat (S (length rest)) - 1)
    with (Z.of_nat (length rest)) by lia.
  pose proof (bin_value_range rest). unfold bit_val.
  rewrite bool_decide_eq_true_2 by done. lia.
Qed.

Lemma binary_repr_length z q :
  0 <= q → 2 ^ q <= z < 2 ^ (q + 1) →
  Z.of_nat (length (binary_repr z)) = q + 1.
Proof.
  intros Hq Hz. assert (0 < z) as Hpos
    by (pose proof (Z.pow_pos_nonneg 2 q); lia).
  destruct (binary_repr_pos z Hpos) as (Hbits & Hval & Hlow & _).
  pose proof (bin_value_range (binary_repr z)) as Hup. rewrite Hval in Hup.
  set (n := Z.of_nat (length (binary_repr z))) in *.
  destruct (Z.lt_trichotomy n (q + 1)) as [Hlt|[Heq|Hgt]]; [|done|].
  - assert (2 ^ n <= 2 ^ q) by (apply Z.pow_le_mono_r; lia). lia.
  - assert (2 ^ (q + 1) <= 2 ^ (n - 1)) by (apply Z.pow_le_mono_r; lia). lia.
Qed.

(** [zfill] on a string of binary digits pads with zeros on the left. *)
Lemma zfill_bits w x :
  is_bits x →
  zfill w x = replicate (Z.to_nat (w - Z.of_nat (length x))) "0"%char ++ x.
Proof.
  intros Hx. unfold zfill. destruct Hx as [|c x Hc Hx].
  - by rewrite app_nil_r.
  - rewrite bool_decide_eq_false_2; [done|].
    intros [->| ->]; by destruct Hc.
Qed.

Lemma zfill_bits_props w x :
  is_bits x →
  is_bits (zfill w x) ∧ bin_value (zfill w x) = bin_value x
  ∧ Z.of_nat (length (zfill w x)) = Z.max w (Z.of_nat (length x)).
Proof.
  intros Hx. rewrite zfill_bits by done. split_and!.
  - apply Forall_app. split; [apply is_bits_zeros|done].
  - rewrite bin_value_app, bin_value_zeros. lia.
  - rewrite length_app, length_replicate. lia.
Qed.

Lemma join_zeros (n : nat) :
  mjoin (replicate n (lit "0")) = replicate n "0"%char.
Proof.
  induction n as [|n IH]; [done|].
  change (mjoin (replicate (S n) (lit "0")))
    with (lit "0" ++ mjoin (replicate n (lit "0"))).
  by rewrite IH.
Qed.

Lemma str_mul_zeros (n : nat) :
  str_mul (str_mul (lit "0") (Z.of_nat n)) 2 = replicate (2 * n) "0"%char.
Proof.
  unfold str_mul. rewrite Nat2Z.id, join_zeros.
  change (mjoin (replicate (Z.to_nat 2) (replicate n "0"%char)))
    with (replicate n "0"%char ++ replicate n "0"%char ++ []).
  rewrite app_nil_r, <- replicate_add. f_equal. lia.
Qed.

(** [x[:-k]] for a positive [k] drops the last [k] characters. *)
Lemma py_slice_drop_last {A} (k : Z) (l : list A) :
  0 < k → py_slice (None, Some (- k)) l = take (length l - Z.to_nat k) l.
Proof.
  intros Hk. unfold py_slice, slice_bound. simpl.
  destruct (- k <? 0) eqn:Hneg; [|lia].
  rewrite Z.sub_0_r, drop_0. f_equal. lia.
Qed.

Lemma bin_value_take x (k : nat) :
  (k <= length x)%nat →
  bin_value (take (length x - k) x) = bin_value x / 2 ^ Z.of_nat k.
Proof.
  intros Hk. rewrite <- (take_drop (length x - k) x) at 3.
  rewrite bin_value_app, length_drop.
  replace (length x - (length x - k))%nat with k by lia.
  pose proof (bin_value_range (drop (length x - k) x)) as Hr.
  rewrite length_drop in Hr.
  replace (length x - (length x - k))%nat with k in Hr by lia.
  apply Zdiv_unique with (bin_value (drop (length x - k) x)); lia.
Qed.

Lemma str_prefix_refl x : str_prefix x x = true.
Proof.
  induction x as [|c x IH]; [done|]. simpl.
  by rewrite bool_decide_eq_true_2.
Qed.

Lemma str_prefix_length a k :
  str_prefix a k = true → (length a <= length k)%nat.
Proof.
  revert k. induction a as [|c a IH]; intros [|d k]; simpl; try done; [lia|].
  intros [_ H]%andb_true_iff. apply IH in H. lia.
Qed.

Lemma str_prefix_same_length a k :
  str_prefix a k = true → length a = length k → a = k.
Proof.
  revert k. induction a as [|c a IH]; intros [|d k]; simpl; try done.
  intros [Hcd H]%andb_true_iff [= Hlen].
  apply bool_decide_eq_true in Hcd as ->. f_equal. by apply IH.
Qed.

Lemma str_in_length a k : str_in a k = true → (length a <= length k)%nat.
Proof.
  induction k as [|d k IH]; simpl.
  - rewrite orb_false_r. apply str_prefix_length.
  - intros [H|H]%orb_true_iff.
    + apply str_prefix_length in H. simpl in H. done.
    + apply IH in H. lia.
Qed.

(** A string at least as long as [k] occurs in [k] only if it is [k]. *)
Lemma str_in_long a k :
  (length k <= length a)%nat → str_in a k = true ↔ a = k.
Proof.
  intros Hlen. split.
  - destruct k as [|d k]; simpl.
    + rewrite orb_false_r. destruct a; [done|simpl in *; lia].
    + intros [H|H]%orb_true_iff.
      * apply str_prefix_same_length; [done|].
        apply str_prefix_length in H. lia.
      * apply str_in_length in H. simpl in Hlen. lia.
  - intros ->. destruct k; [done|]. cbn [str_in]. by rewrite str_prefix_refl.
Qed.

(** ** The lithology lookup (C2, C7) *)

Lemma lot_fold_lookup (nb : str) (node node' : Z) ids (lot : gmap Z Z) :
  foldl (λ (lot : gmap Z Z) (kv : str * Z),
           if str_in nb kv.1 then <[node := kv.2]> lot else lot) lot ids
    !! node'
  = if decide (node' = node)
    then match last (filter (λ kv : str * Z, str_in nb kv.1 = true) ids) with
         | Some kv => Some kv.2
         | None => lot !! node'
         end
    else lot !! node'.
Proof.
  revert lot. induction ids as [|kv ids IH]; intros lot.
  - simpl. by case_decide.
  - cbn [foldl]. rewrite IH, filter_cons.
    destruct (decide (node' = node)) as [->|Hne].
    + destruct (str_in nb kv.1) eqn:Hin.
      * rewrite decide_True by done. rewrite last_cons.
        destruct (last _); [done|]. by rewrite lookup_insert_eq.
      * rewrite decide_False by done. done.
    + destruct (str_in nb kv.1); [|done]. by rewrite lookup_insert_ne.
Qed.

(** The mapping returned by [get_lith_lot], entry by entry: a node of the
    block gets the value of the last template its pattern matches, and no
    entry when it matches none. *)
Lemma get_lith_lot_lookup labels n_faults n_layers node :
  get_lith_lot labels n_faults n_layers !! node
  = if decide (node ∈ labels)
    then snd <$> last (matching_templates n_faults n_layers node)
    else None.
Proof.
  unfold get_lith_lot.
  assert (∀ nodes (lot : gmap Z Z),
    foldl (lot_node n_faults n_layers) lot nodes !! node
    = if decide (node ∈ nodes)
      then match last (matching_templates n_faults n_layers node) with
           | Some kv => Some kv.2
           | None => lot !! node
           end
      else lot !! node) as Hfold.
  { induction nodes as [|n nodes IH]; intros lot.
    - cbn [foldl]. destruct (decide (node ∈ [])) as [Hin|_]; [|done].
      by apply elem_of_nil in Hin.
    - cbn [foldl]. rewrite IH.
      assert (lot_node n_faults n_layers lot n !! node
              = if decide (node = n)
                then match last (matching_templates n_faults n_layers n) with
                     | Some kv => Some kv.2
                     | None => lot !! node
                     end
                else lot !! node) as ->
        by apply lot_fold_lookup.
      destruct (decide (node ∈ n :: nodes)) as [Hin|Hnin],
        (decide (node ∈ nodes)) as [Hin'|Hnin'],
        (decide (node = n)) as [->|Hne]; try done;
        first [ by destruct (last _)
              | by apply elem_of_cons in Hin as [?|?]
              | exfalso; apply Hnin; by left
              | exfalso; apply Hnin; by right ]. }
  rewrite Hfold, lookup_empty.
  destruct (decide (node ∈ np_unique labels)) as [Hin|Hnin],
    (decide (node ∈ labels)) as [Hin'|Hnin']; try done;
    first [ by destruct (last _)
          | exfalso; apply Hnin'; by apply np_unique_elem
          | exfalso; apply Hnin; by apply np_unique_elem ].
Qed.

(** C7, as amended. [get_lith_lot] reports no defect. The mapping it
    returns has, for a node of the block, the value of the last entry of
    the template table that the node's pattern matches; a node that
    matches no entry is left out of the mapping, and of several matching
    entries the last one is kept. *)
Theorem get_lith_lot_last_match labels n_faults n_layers node :
  node ∈ labels →
  get_lith_lot labels n_faults n_layers !! node
  = snd <$> last (matching_templates n_faults n_layers node).
Proof.
  intros Hnode. rewrite get_lith_lot_lookup. by rewrite decide_True.
Qed.

Lemma get_lith_lot_last_match_witness :
  17 ∈ [9; 17]
  ∧ get_lith_lot [9; 17] 1 2 !! 17
    = snd <$> last (matching_templates 1 2 17).
Proof.
  split; [compute_done|].
  apply (get_lith_lot_last_match [9; 17] 1 2 17). compute_done.
Defined.

(** C7, counterexample. With one fault and two layers the block of
    [lb = [1; 2]], [fb = [[1; 1]]] has the labels 9 and 17. The pattern of
    17 matches no template: the call returns the mapping [{9: 3}], without
    an entry for 17. Without faults the pattern is the empty string, which
    matches all three templates of [n_layers = 3]: the last one is kept. *)
Lemma get_lith_lot_silent :
  labels_of (get_labels_block [1; 2] [[1; 1]]) = Some [9; 17]
  ∧ 17 ∈ [9; 17]
  ∧ matching_templates 1 2 17 = []
  ∧ get_lith_lot [9; 17] 1 2 = {[ 9 := 3 ]}
  ∧ get_lith_lot [9; 17] 1 2 !! 17 = None
  ∧ length (matching_templates 0 3 5) = 3%nat
  ∧ get_lith_lot [5] 0 3 = {[ 5 := 2 ]}.
Proof.
  split_and!; try (vm_compute; reflexivity); try compute_done.
Qed.

(** *** The template table *)

Lemma py_range_elem a b i : i ∈ py_range a b ↔ a <= i < b.
Proof.
  unfold py_range. rewrite list_elem_of_fmap. split.
  - intros (k & -> & Hk%elem_of_seq). lia.
  - intros Hi. exists (Z.to_nat (i - a)). split; [lia|].
    apply elem_of_seq. lia.
Qed.

Section TemplateTable.

Context (n_faults n_layers : nat).

Lemma layer_key_props i :
  0 <= i →
  is_bits (layer_key n_faults n_layers i)
  ∧ bin_value (layer_key n_faults n_layers i) = 2 ^ i
  ∧ Z.of_nat (length (layer_key n_faults n_layers i))
    = Z.max (label_width n_faults n_layers) (i + 1).
Proof.
  intros Hi. unfold layer_key.
  assert (0 < 2 ^ i) as Hpos by (apply Z.pow_pos_nonneg; lia).
  destruct (binary_repr_pos _ Hpos) as (Hbits & Hval & _).
  destruct (zfill_bits_props (label_width n_faults n_layers) _ Hbits)
    as (Hb & Hv & Hl).
  split_and!; [done|by rewrite Hv|].
  rewrite Hl, (binary_repr_length (2 ^ i) i); [done..|].
  rewrite Z.pow_add_r by lia. lia.
Qed.

Lemma layer_key_inj i j :
  0 <= i → 0 <= j →
  layer_key n_faults n_layers i = layer_key n_faults n_layers j → i = j.
Proof.
  intros Hi Hj Heq.
  destruct (layer_key_props i Hi) as (_ & Hvi & _).
  destruct (layer_key_props j Hj) as (_ & Hvj & _).
  rewrite Heq, Hvj in Hvi. by apply (Z.pow_inj_r 2); [lia..|].
Qed.

Lemma dict_set_elem `{EqDecision K} {V} (k k' : K) (v v' : V) d :
  (k', v') ∈ dict_set k v d → (k', v') = (k, v) ∨ (k', v') ∈ d.
Proof.
  induction d as [|[k0 v0] d IH]; simpl.
  - intros ->%list_elem_of_singleton. by left.
  - case_decide.
    + intros [->|?]%elem_of_cons; [by left|]. right. by right.
    + intros [->|Hin]%elem_of_cons; [right; by left|].
      destruct (IH Hin); [by left|]. right. by right.
Qed.

Lemma dict_set_has `{EqDecision K} {V} (k : K) (v : V) d :
  (k, v) ∈ dict_set k v d.
Proof.
  induction d as [|[k0 v0] d IH]; simpl; [by left|].
  case_decide; [by left|by right].
Qed.

Lemma dict_set_keeps `{EqDecision K} {V} (k k' : K) (v v' : V) d :
  k' ≠ k → (k', v') ∈ d → (k', v') ∈ dict_set k v d.
Proof.
  intros Hne. induction d as [|[k0 v0] d IH]; simpl;
    [by intros ?%elem_of_nil|].
  intros [[= <- <-]|Hin]%elem_of_cons.
  - rewrite decide_False by done. by left.
  - case_decide; right; auto.
Qed.

(** Every entry of the table is the key of its value: one set bit at a
    position from [2 * n_faults] up to the width of a label. *)
Lemma layer_ids_elem k v :
  (k, v) ∈ layer_ids n_faults n_layers →
  k = layer_key n_faults n_layers v
  ∧ Z.of_nat n_faults * 2 <= v < label_width n_faults n_layers.
Proof.
  unfold layer_ids.
  assert (∀ l d,
    (∀ i, i ∈ l →
       Z.of_nat n_faults * 2 <= i < label_width n_faults n_layers) →
    (k, v) ∈ foldl (λ d i, dict_set (layer_key n_faults n_layers i) i d) d l →
    (k, v) ∈ d
    ∨ (k = layer_key n_faults n_layers v
       ∧ Z.of_nat n_faults * 2 <= v < label_width n_faults n_layers))
    as Hfold.
  { induction l as [|i l IH]; intros d Hl; simpl; [by left|].
    intros Hin. apply IH in Hin as [Hin|?]; [|by right|].
    - apply dict_set_elem in Hin as [[= -> ->]|?]; [right|by left].
      split; [done|]. apply Hl. by left.
    - intros j Hj. apply Hl. by right. }
  intros Hin. apply Hfold in Hin as [Hin|?]; [|done|].
  - by apply elem_of_nil in Hin.
  - intros i. apply py_range_elem.
Qed.

Lemma layer_ids_has q :
  Z.of_nat n_faults * 2 <= q < label_width n_faults n_layers →
  (layer_key n_faults n_layers q, q) ∈ layer_ids n_faults n_layers.
Proof.
  intros Hq. unfold layer_ids.
  assert (∀ l d,
    (∀ i, i ∈ l → 0 <= i) →
    (layer_key n_faults n_layers q, q) ∈ d ∨ q ∈ l →
    (layer_key n_faults n_layers q, q)
      ∈ foldl (λ d i, dict_set (layer_key n_faults n_layers i) i d) d l)
    as Hfold.
  { induction l as [|i l IH]; intros d Hl; simpl.
    - intros [?|Hin]; [done|]. by apply elem_of_nil in Hin.
    - intros Hor. apply IH; [intros j Hj; apply Hl; by right|].
      destruct (decide (i = q)) as [->|Hne]; [left; apply dict_set_has|].
      destruct Hor as [Hin|[->|Hin]%elem_of_cons]; [|done|by right].
      left. apply dict_set_keeps; [|done].
      intros Heq. apply layer_key_inj in Heq; [done|lia|].
      apply Hl. by left. }
  apply Hfold.
  - intros i Hi%py_range_elem. lia.
  - right. by apply py_range_elem.
Qed.

(** *** The pattern of a node with the fault bits zeroed *)

Lemma node_bin_nofault_props node :
  (1 <= n_faults)%nat → 0 < node →
  let nb := node_bin_nofault n_faults n_layers node in
  is_bits nb
  ∧ bin_value nb
    = node / 2 ^ (Z.of_nat n_faults * 2) * 2 ^ (Z.of_nat n_faults * 2)
  ∧ Z.of_nat (length nb)
    = Z.max (label_width n_faults n_layers)
        (Z.of_nat (length (binary_repr node))).
Proof.
  intros Hnf Hnode nb. unfold nb, node_bin_nofault.
  destruct (binary_repr_pos _ Hnode) as (Hbits & Hval & _).
  destruct (zfill_bits_props (label_width n_faults n_layers) _ Hbits)
    as (Hb & Hv & Hl).
  set (node_bin := zfill (label_width n_faults n_layers) (binary_repr node))
    in *.
  rewrite str_mul_zeros.
  replace (- Z.of_nat n_faults * 2) with (- (Z.of_nat n_faults * 2)) by lia.
  rewrite py_slice_drop_last by lia.
  replace (Z.to_nat (Z.of_nat n_faults * 2)) with (2 * n_faults)%nat by lia.
  assert (2 * n_faults <= length node_bin)%nat as Hlen
    by (unfold label_width in Hl; lia).
  split_and!.
  - apply Forall_app. split; [|apply is_bits_zeros].
    by apply Forall_take.
  - rewrite bin_value_app, bin_value_zeros, length_replicate.
    rewrite bin_value_take by done. rewrite Hv, Hval.
    replace (Z.of_nat (2 * n_faults)) with (Z.of_nat n_faults * 2) by lia.
    lia.
  - rewrite length_app, length_take, length_replicate. lia.
Qed.

(** A label is the bit [q] of its lithology on top of fault bits below
    [2 * n_faults]: its pattern matches the template of position [i] exactly
    when [i] is [q], and [q] is a position of the table. *)
Lemma label_template_match q low i :
  (1 <= n_faults)%nat → 0 <= q → 0 <= low < 2 ^ q →
  low < 2 ^ (Z.of_nat n_faults * 2) →
  0 <= i < label_width n_faults n_layers →
  str_in (node_bin_nofault n_faults n_layers (2 ^ q + low))
    (layer_key n_faults n_layers i) = true
  ↔ i = q ∧ Z.of_nat n_faults * 2 <= q.
Proof.
  intros Hnf Hq Hlow Hmask Hi.
  set (M := 2 ^ (Z.of_nat n_faults * 2)) in *.
  set (W := label_width n_faults n_layers) in *.
  assert (0 < 2 ^ q) as Hq2 by (apply Z.pow_pos_nonneg; lia).
  assert (0 < M) as HM by (apply Z.pow_pos_nonneg; lia).
  destruct (node_bin_nofault_props (2 ^ q + low))
    as (Hbits & Hval & Hlen); [done|lia|]. fold M W in Hval, Hlen.
  rewrite (binary_repr_length _ q) in Hlen; [|done|].
  2:{ rewrite Z.pow_add_r by lia. lia. }
  destruct (layer_key_props i) as (Hkb & Hkv & Hkl); [lia|].
  fold W in Hkl.
  assert ((2 ^ q + low) / M * M = if decide (Z.of_nat n_faults * 2 <= q)
                                  then 2 ^ q else 0) as Hmasked.
  { case_decide as Hge.
    - replace (2 ^ q) with (2 ^ (q - Z.of_nat n_faults * 2) * M).
      2:{ unfold M. rewrite <- Z.pow_add_r by lia. f_equal. lia. }
      rewrite Z.div_add_l by lia. rewrite Z.div_small by lia. lia.
    - assert (2 ^ (q + 1) <= M) by (apply Z.pow_le_mono_r; lia).
      rewrite Z.pow_add_r in * by lia.
      rewrite Z.div_small by lia. done. }
  rewrite Hmasked in Hval. split.
  - intros Hin. pose proof (str_in_length _ _ Hin) as Hle.
    apply str_in_long in Hin; [|lia].
    rewrite Hin, Hkv in Hval.
    assert (0 < 2 ^ i) by (apply Z.pow_pos_nonneg; lia).
    case_decide; [|lia]. split; [|done].
    by apply (Z.pow_inj_r 2); [lia..|].
  - intros [-> Hge]. rewrite decide_True in Hval by done.
    apply str_in_long; [lia|].
    apply bin_value_inj; [done|done|lia|]. by rewrite Hval, Hkv.
Qed.

(** The entry of a label in the mapping of [get_lith_lot]. *)
Lemma get_lith_lot_label labels q low :
  (1 <= n_faults)%nat → 0 <= q → 0 <= low < 2 ^ q →
  low < 2 ^ (Z.of_nat n_faults * 2) →
  2 ^ q + low ∈ labels →
  get_lith_lot labels n_faults n_layers !! (2 ^ q + low)
  = if decide (Z.of_nat n_faults * 2 <= q < label_width n_faults n_layers)
    then Some q else None.
Proof.
  intros Hnf Hq Hlow Hmask Hin.
  rewrite get_lith_lot_lookup, decide_True by done.
  set (node := 2 ^ q + low).
  destruct (last (matching_templates n_faults n_layers node))
    as [[k v]|] eqn:Hlast.
  - apply last_Some_elem_of in Hlast.
    apply list_elem_of_filter in Hlast as [Hmatch Hkv]. simpl in Hmatch.
    apply layer_ids_elem in Hkv as [-> Hv].
    apply label_template_match in Hmatch as [-> Hge]; [|done..|lia].
    simpl. by rewrite decide_True by lia.
  - simpl. case_decide as Hrange; [|done]. exfalso.
    apply last_None in Hlast.
    apply (filter_nil_not_elem_of _ _ (layer_key n_faults n_layers q, q))
      in Hlast.
    + apply Hlast. by apply layer_ids_has.
    + simpl. apply label_template_match; [done..|lia|]. split; [done|lia].
Qed.

End TemplateTable.

(** C2, counterexample. Two faults and two layers: the voxels of lithology
    1 and 2 get the labels 21 and 38, and the lookup maps them to 4 and 5,
    the positions of their lithology bits, not to 1 and 2. *)
Lemma get_lith_lot_not_lithology_id :
  valid_input 2 [1; 2] [[1; 2]; [2; 2]]
  ∧ labels_of (get_labels_block [1; 2] [[1; 2]; [2; 2]]) = Some [21; 38]
  ∧ get_lith_lot [21; 38] 2 2 !! 21 = Some 4
  ∧ get_lith_lot [21; 38] 2 2 !! 38 = Some 5
  ∧ [1; 2] !! 0%nat = Some 1 ∧ 4 ≠ 1.
Proof.
  split; [solve_valid_input|].
  split_and!; try (vm_compute; reflexivity). done.
Qed.

(** C2, as amended. For a valid input with at least one fault whose labels
    fit 64 bits, the mapping of [get_lith_lot] takes the label of a voxel,
    when it has an entry for it, to the position
    [lb - lb.min() + n_faults + 2] of the voxel's lithology bit, not to the
    lithology id; with two faults every label of the block has this
    entry. *)
Theorem get_lith_lot_bit_position (n_layers : nat) lb fb :
  valid_input (Z.of_nat n_layers) lb fb →
  (1 <= length fb)%nat →
  Z.of_nat (length fb) + Z.of_nat n_layers <= 61 →
  ∃ m labels,
    np_min lb = Some m
    ∧ labels_of (get_labels_block lb fb) = Some labels
    ∧ ∀ v x label, lb !! v = Some x → labels !! v = Some label →
        (∀ p, get_lith_lot labels (length fb) n_layers !! label = Some p →
              p = x - m + Z.of_nat (length fb) + 2)
        ∧ (length fb = 2%nat →
           get_lith_lot labels (length fb) n_layers !! label
           = Some (x - m + 4)).
Proof.
  intros Hvalid Hnf Hfit.
  destruct (get_labels_block_labels _ _ _ Hvalid Hfit)
    as (m & labels & Hmin & Hm & Hlabels & Hlen & Hv).
  destruct Hvalid as (Hne & Hlb & Hfb).
  exists m, labels. split_and!; [done..|]. intros v x label Hx Hlabel.
  destruct (Hv _ _ Hx) as [Hmx Hl]. rewrite Hlabel in Hl. injection Hl as ->.
  set (nf := Z.of_nat (length fb)) in *.
  set (q := x - m + nf + 2) in *.
  set (low := sum_pow2 (positions_from 0 (column fb v))) in *.
  assert (x ∈ lb) as Hxin by (by eapply list_elem_of_lookup_2).
  rewrite Forall_forall in Hlb.
  pose proof (Hlb _ Hxin) as Hxr. pose proof (Hlb _ Hm) as Hmr.
  assert (sides (column fb v)) as Hsides.
  { apply column_sides. eapply Forall_impl; [exact Hfb|]. simpl.
    intros row [-> ?]. split; [|done]. by eapply lookup_lt_Some. }
  pose proof (sum_pow2_positions_upper 0 _ ltac:(lia) Hsides) as Hup.
  rewrite column_length in Hup. fold nf low in Hup.
  pose proof (sum_pow2_nonneg (positions_from 0 (column fb v))) as Hnn.
  fold low in Hnn.
  assert (2 ^ (0 + nf + 1) <= 2 ^ q) by (apply Z.pow_le_mono_r; lia).
  assert (2 ^ (0 + nf + 1) <= 2 ^ (nf * 2))
    by (apply Z.pow_le_mono_r; lia).
  change (2 ^ (0 + 1)) with 2 in Hup.
  assert (get_lith_lot labels (length fb) n_layers !! (2 ^ q + low)
          = if decide (nf * 2 <= q < label_width (length fb) n_layers)
            then Some q else None) as Hlot.
  { apply get_lith_lot_label; [done|lia|lia|fold nf; lia|].
    by eapply list_elem_of_lookup_2. }
  rewrite Hlot. split.
  - intros p. case_decide; [|done]. by intros [= <-].
  - intros H2. unfold label_width. rewrite decide_True.
    + unfold q, nf. rewrite H2. f_equal. lia.
    + unfold q, nf. rewrite H2. lia.
Qed.

Lemma get_lith_lot_bit_position_witness :
  (valid_input (Z.of_nat 2) [1; 2] [[1; 2]; [2; 2]]
   ∧ (1 <= length [[1; 2]; [2; 2]])%nat
   ∧ Z.of_nat (length [[1; 2]; [2; 2]]) + Z.of_nat 2 <= 61)
  ∧ ∃ m labels,
      np_min [1; 2] = Some m
      ∧ labels_of (get_labels_block [1; 2] [[1; 2]; [2; 2]]) = Some labels
      ∧ ∀ v x label, [1; 2] !! v = Some x → labels !! v = Some label →
          (∀ p, get_lith_lot labels (length [[1; 2]; [2; 2]]) 2 !! label
                = Some p →
                p = x - m + Z.of_nat (length [[1; 2]; [2; 2]]) + 2)
          ∧ (length [[1; 2]; [2; 2]] = 2%nat →
             get_lith_lot labels (length [[1; 2]; [2; 2]]) 2 !! label
             = Some (x - m + 4)).
Proof.
  split; [split_and!; [solve_valid_input|simpl; lia|simpl; lia]|].
  apply (get_lith_lot_bit_position 2);
    [solve_valid_input|simpl; lia|simpl; lia].
Defined.

(** ** Slices *)

Lemma py_slice_length {A} sl (l : list A) :
  length (py_slice sl l) = slice_len sl (length l).
Proof. unfold py_slice, slice_len. by rewrite length_take, length_drop. Qed.

Lemma py_slice_all {A} (l : list A) : py_slice all_ l = l.
Proof.
  unfold py_slice, all_, slice_bound. simpl.
  rewrite drop_0, Z.sub_0_r, Nat2Z.id. apply firstn_all.
Qed.

Lemma py_slice_fmap {A B} (f : A → B) sl (l : list A) :
  py_slice sl (f <$> l) = f <$> py_slice sl l.
Proof.
  unfold py_slice. by rewrite length_fmap, fmap_take, fmap_drop.
Qed.

Lemma py_slice_zip_with {A B C} (f : A → B → C) sl l k :
  length l = length k →
  py_slice sl (zip_with f l k) = zip_with f (py_slice sl l) (py_slice sl k).
Proof.
  intros Hlen. unfold py_slice.
  rewrite length_zip_with, <- Hlen, Nat.min_id.
  by rewrite zip_with_drop, zip_with_take.
Qed.

Lemma py_slice_Forall {A} (P : A → Prop) sl l :
  Forall P l → Forall P (py_slice sl l).
Proof. intros Hl. unfold py_slice. by apply Forall_take, Forall_drop. Qed.

Lemma zip_with_ext_Forall {A B C} (f g : A → B → C) (P : A → Prop)
    (Q : B → Prop) l k :
  Forall P l → Forall Q k → (∀ x y, P x → Q y → f x y = g x y) →
  zip_with f l k = zip_with g l k.
Proof.
  intros Hl. revert k. induction Hl as [|x l Hx _ IH]; intros k Hk Hfg;
    [done|].
  destruct Hk as [|y k Hy Hk]; [done|]. simpl. f_equal; auto.
Qed.

Lemma fmap_zip_with {A B C D} (g : C → D) (f : A → B → C) l k :
  g <$> zip_with f l k = zip_with (λ x y, g (f x y)) l k.
Proof.
  revert k. induction l as [|x l IH]; intros [|y k]; simpl; [done..|].
  by rewrite IH.
Qed.

(** *** Shapes of slices *)

Lemma slice3_length {A} sx sy sz (a : arr3 A) :
  length (slice3 (sx, sy, sz) a) = slice_len sx (length a).
Proof. unfold slice3. by rewrite length_fmap, py_slice_length. Qed.

Lemma slice3_rect ny nz sx sy sz a :
  rect3 ny nz a →
  rect3 (slice_len sy ny) (slice_len sz nz) (slice3 (sx, sy, sz) a).
Proof.
  intros Ha. unfold slice3, rect3. apply Forall_fmap.
  apply py_slice_Forall. eapply Forall_impl; [exact Ha|]. simpl.
  intros plane [Hny Hrows]. split.
  - by rewrite length_fmap, py_slice_length, Hny.
  - apply Forall_fmap, py_slice_Forall.
    eapply Forall_impl; [exact Hrows|]. simpl. intros row Hnz.
    by rewrite py_slice_length, Hnz.
Qed.

Lemma shape3_rect ny nz a :
  rect3 ny nz a → shape3 a = replicate (length a) (replicate ny nz).
Proof.
  induction 1 as [|plane a [Hny Hrows] _ IH]; [done|].
  cbn [shape3 fmap list_fmap length replicate]. f_equal; [|exact IH].
  subst ny. clear -Hrows. induction Hrows as [|row plane Hrow _ IH];
    [done|]. cbn [fmap list_fmap length replicate]. by f_equal.
Qed.

Lemma zip3_rect f ny nz a b :
  rect3 ny nz a → rect3 ny nz b → rect3 ny nz (zip3 f a b).
Proof.
  intros Ha. revert b. induction Ha as [|pa a [Hny Ha1] _ IH]; intros b Hb;
    [constructor|].
  destruct Hb as [|pb b [Hny' Hb1] Hb]; [constructor|].
  cbn [zip3 zip_with]. constructor; [|by apply IH]. split.
  - rewrite length_zip_with. lia.
  - clear -Ha1 Hb1. revert pb Hb1.
    induction Ha1 as [|ra pa Hra _ IH]; intros pb Hb1; [constructor|].
    destruct Hb1 as [|rb pb Hrb Hb1]; [constructor|].
    cbn [zip_with]. constructor; [|by apply IH].
    rewrite length_zip_with. lia.
Qed.

Lemma zip3_length f a b :
  length a = length b → length (zip3 f a b) = length a.
Proof. intros Hlen. unfold zip3. rewrite length_zip_with. lia. Qed.

Lemma map3_rect (f : Z → Z) ny nz a : rect3 ny nz a → rect3 ny nz (map3 f a).
Proof.
  intros Ha. unfold map3, rect3. apply Forall_fmap.
  eapply Forall_impl; [exact Ha|]. simpl. intros plane [Hny Hrows].
  split; [by rewrite length_fmap|]. apply Forall_fmap.
  eapply Forall_impl; [exact Hrows|]. simpl. intros row Hnz.
  by rewrite length_fmap.
Qed.

Lemma shape3_map3 {A B} (f : A → B) (a : arr3 A) : shape3 (map3 f a) = shape3 a.
Proof.
  unfold shape3, map3. rewrite <- list_fmap_compose.
  apply list_fmap_ext. intros _ plane _. simpl.
  rewrite <- list_fmap_compose. apply list_fmap_ext. intros _ row _. simpl.
  by rewrite length_fmap.
Qed.

(** Slicing commutes with the elementwise operations. *)
Lemma slice3_map3 {A B} (f : A → B) sl (a : arr3 A) :
  slice3 sl (map3 f a) = map3 f (slice3 sl a).
Proof.
  destruct sl as [[sx sy] sz]. unfold slice3, map3.
  rewrite py_slice_fmap, <- !list_fmap_compose.
  apply list_fmap_ext. intros _ plane _. simpl.
  rewrite py_slice_fmap, <- !list_fmap_compose.
  apply list_fmap_ext. intros _ row _. simpl. apply py_slice_fmap.
Qed.

Lemma slice3_zip3 f ny nz sl a b :
  rect3 ny nz a → rect3 ny nz b → length a = length b →
  slice3 sl (zip3 f a b) = zip3 f (slice3 sl a) (slice3 sl b).
Proof.
  intros Ha Hb Hlen. destruct sl as [[sx sy] sz]. unfold slice3, zip3.
  rewrite py_slice_zip_with by done.
  rewrite fmap_zip_with, zip_with_fmap_l, zip_with_fmap_r.
  eapply zip_with_ext_Forall;
    [apply py_slice_Forall, Ha|apply py_slice_Forall, Hb|].
  simpl. intros pa pb [Hna Hra] [Hnb Hrb].
  rewrite py_slice_zip_with by lia.
  rewrite fmap_zip_with, zip_with_fmap_l, zip_with_fmap_r.
  eapply zip_with_ext_Forall;
    [apply py_slice_Forall, Hra|apply py_slice_Forall, Hrb|].
  simpl. intros ra rb Hla Hlb. apply py_slice_zip_with. lia.
Qed.

(** A slice of one axis followed by slices of the two others is the slice
    of all three. *)
Lemma slice3_after_x {A} sx sy sz (a : arr3 A) :
  slice3 (all_, sy, sz) (slice3 (sx, all_, all_) a) = slice3 (sx, sy, sz) a.
Proof.
  unfold slice3. rewrite py_slice_all, <- list_fmap_compose.
  apply list_fmap_ext. intros _ plane _. simpl.
  rewrite py_slice_all. do 2 f_equal.
  rewrite <- (list_fmap_id plane) at 2.
  apply list_fmap_ext. intros _ row _. apply py_slice_all.
Qed.

Lemma slice3_after_y {A} sx sy sz (a : arr3 A) :
  slice3 (sx, all_, sz) (slice3 (all_, sy, all_) a) = slice3 (sx, sy, sz) a.
Proof.
  unfold slice3. rewrite py_slice_all, py_slice_fmap, <- list_fmap_compose.
  apply list_fmap_ext. intros _ plane _. simpl.
  rewrite py_slice_all, <- list_fmap_compose.
  apply list_fmap_ext. intros _ row _. simpl. by rewrite py_slice_all.
Qed.

Lemma slice3_after_z {A} sx sy sz (a : arr3 A) :
  slice3 (sx, sy, all_) (slice3 (all_, all_, sz) a) = slice3 (sx, sy, sz) a.
Proof.
  unfold slice3. rewrite py_slice_all, py_slice_fmap, <- list_fmap_compose.
  apply list_fmap_ext. intros _ plane _. simpl.
  rewrite py_slice_all, py_slice_fmap, <- list_fmap_compose.
  apply list_fmap_ext. intros _ row _. simpl. by rewrite py_slice_all.
Qed.

(** ** The topology block for a shift of one voxel (C9) *)

Lemma slice_len_all n : slice_len all_ n = n.
Proof. unfold slice_len, all_, slice_bound. simpl. lia. Qed.

Lemma slice_len_from_1 n : slice_len (Some 1, None) n = (n - 1)%nat.
Proof. unfold slice_len, slice_bound. simpl. lia. Qed.

Lemma slice_len_to_1 n : slice_len (None, Some (-1)) n = (n - 1)%nat.
Proof. unfold slice_len, slice_bound. simpl. lia. Qed.

Lemma slice_len_fit_1 n : slice_len (Some 0, Some (-1)) n = (n - 1)%nat.
Proof. unfold slice_len, slice_bound. simpl. lia. Qed.

Lemma abs_sum3_rect ny nz a b :
  rect3 ny nz a → rect3 ny nz b → length a = length b →
  abs_sum3 a b = Some (map3 Int64.abs (zip3 Int64.add a b)).
Proof.
  intros Ha Hb Hlen. unfold abs_sum3, same_shape.
  rewrite bool_decide_eq_true_2; [done|].
  by rewrite (shape3_rect ny nz a), (shape3_rect ny nz b), Hlen.
Qed.

Section ShiftOne.

(** A rectangular block of shape (nx, [ny], [nz]). *)
Context (ny nz : nat) (labels : arr3 Z).
Hypothesis Hrect : rect3 ny nz labels.

(** The two sub-volumes of each pair of slicers have one shape, a voxel
    shorter than the block on every axis. *)
Lemma slicers_1_rect sl :
  sl ∈ slicers 1 →
  rect3 (ny - 1) (nz - 1) (slice3 sl.1 labels)
  ∧ rect3 (ny - 1) (nz - 1) (slice3 sl.2 labels)
  ∧ length (slice3 sl.1 labels) = (length labels - 1)%nat
  ∧ length (slice3 sl.2 labels) = (length labels - 1)%nat.
Proof.
  intros Hsl. unfold slicers in Hsl.
  change (1 - 1) with 0 in Hsl. change (- (1)) with (-1) in Hsl.
  repeat (apply elem_of_cons in Hsl as [->|Hsl]);
    [| | |by apply elem_of_nil in Hsl]; cbn [fst snd];
    (split_and!;
     [ match goal with
       | |- rect3 _ _ (slice3 (?sx, ?sy, ?sz) _) =>
           pose proof (slice3_rect ny nz sx sy sz labels Hrect) as H;
           by rewrite ?slice_len_from_1, ?slice_len_to_1, ?slice_len_fit_1
             in H
       end ..
     | by rewrite slice3_length,
            ?slice_len_from_1, ?slice_len_to_1, ?slice_len_fit_1
     | by rewrite slice3_length,
            ?slice_len_from_1, ?slice_len_to_1, ?slice_len_fit_1 ]).
Qed.

Lemma shifted_sum_shape sl :
  sl ∈ slicers 1 →
  shape3 (shifted_sum labels sl)
  = replicate (length labels - 1) (replicate (ny - 1) (nz - 1)%nat)
  ∧ shape3 (slice3 sl.1 labels) = shape3 (shifted_sum labels sl)
  ∧ shape3 (slice3 sl.2 labels) = shape3 (shifted_sum labels sl).
Proof.
  intros Hsl.
  destruct (slicers_1_rect sl Hsl)
    as (Hr1 & Hr2 & Hl1 & Hl2).
  assert (shape3 (shifted_sum labels sl)
          = replicate (length labels - 1) (replicate (ny - 1) (nz - 1)%nat))
    as Hshape.
  { unfold shifted_sum. rewrite shape3_map3.
    rewrite (shape3_rect (ny - 1) (nz - 1)) by (by apply zip3_rect).
    rewrite zip3_length by congruence. by rewrite Hl1. }
  rewrite Hshape. split_and!; [done|..].
  - by rewrite (shape3_rect _ _ _ Hr1), Hl1.
  - by rewrite (shape3_rect _ _ _ Hr2), Hl2.
Qed.

(** For a shift of one voxel the topology block holds, axis by axis, the
    absolute sums of the two sub-volumes that [get_edges] slices for that
    axis. *)
Lemma get_topo_block_shift_1 :
  get_topo_block labels 1 = Some (shifted_sum labels <$> slicers 1).
Proof.
  set (from_n := (Some 1, None) : pyslice).
  set (to_n := (None, Some (-1)) : pyslice).
  set (fit := (Some 0, Some (-1)) : pyslice).
  assert (∀ sx sy sz sx' sy' sz' ny' nz',
    slice_len sy ny = ny' → slice_len sy' ny = ny' →
    slice_len sz nz = nz' → slice_len sz' nz = nz' →
    slice_len sx (length labels) = slice_len sx' (length labels) →
    rect3 ny' nz' (slice3 (sx, sy, sz) labels)
    ∧ rect3 ny' nz' (slice3 (sx', sy', sz') labels)
    ∧ abs_sum3 (slice3 (sx, sy, sz) labels) (slice3 (sx', sy', sz') labels)
      = Some (map3 Int64.abs
                (zip3 Int64.add (slice3 (sx, sy, sz) labels)
                   (slice3 (sx', sy', sz') labels)))) as Hsum.
  { intros sx sy sz sx' sy' sz' ny' nz' Hy Hy' Hz Hz' Hx.
    pose proof (slice3_rect ny nz sx sy sz labels Hrect) as H1.
    pose proof (slice3_rect ny nz sx' sy' sz' labels Hrect) as H2.
    rewrite Hy, Hz in H1. rewrite Hy', Hz' in H2.
    split_and!; [done..|]. apply (abs_sum3_rect ny' nz'); [done..|].
    by rewrite !slice3_length. }
  destruct (Hsum from_n all_ all_ to_n all_ all_ ny nz)
    as (Hx1 & Hx2 & Hx);
    [by rewrite ?slice_len_all, ?slice_len_from_1, ?slice_len_to_1..|].
  destruct (Hsum all_ from_n all_ all_ to_n all_ (ny - 1)%nat nz)
    as (Hy1 & Hy2 & Hy);
    [by rewrite ?slice_len_all, ?slice_len_from_1, ?slice_len_to_1..|].
  destruct (Hsum all_ all_ from_n all_ all_ to_n ny (nz - 1)%nat)
    as (Hz1 & Hz2 & Hz);
    [by rewrite ?slice_len_all, ?slice_len_from_1, ?slice_len_to_1..|].
  unfold get_topo_block.
  change (- (1)) with (-1). change (1 / 2) with 0. change (-1 / 2) with (-1).
  fold from_n to_n fit. rewrite Hx, Hy, Hz. cbn [mbind option_bind].
  rewrite !slice3_map3.
  rewrite (slice3_zip3 _ ny nz), (slice3_zip3 _ (ny - 1) nz),
    (slice3_zip3 _ ny (nz - 1)); [|by rewrite ?slice3_length,
      ?slice_len_all, ?slice_len_from_1, ?slice_len_to_1 ..].
  rewrite !slice3_after_x, !slice3_after_y, !slice3_after_z.
  assert (slicers 1
          = [ ((from_n, fit, fit), (to_n, fit, fit));
              ((fit, from_n, fit), (fit, to_n, fit));
              ((fit, fit, from_n), (fit, fit, to_n)) ]) as Hsl by done.
  assert (∀ sl, sl ∈ slicers 1 →
    shape3 (shifted_sum labels sl)
    = replicate (length labels - 1) (replicate (ny - 1) (nz - 1)%nat)) as Hshape.
  { intros sl Hin. by apply shifted_sum_shape. }
  rewrite Hsl in *. cbn [fmap list_fmap].
  change (stack3
            (shifted_sum labels ((from_n, fit, fit), (to_n, fit, fit)))
            (shifted_sum labels ((fit, from_n, fit), (fit, to_n, fit)))
            (shifted_sum labels ((fit, fit, from_n), (fit, fit, to_n)))
          = Some
              [ shifted_sum labels ((from_n, fit, fit), (to_n, fit, fit));
                shifted_sum labels ((fit, from_n, fit), (fit, to_n, fit));
                shifted_sum labels ((fit, fit, from_n), (fit, fit, to_n)) ]).
  unfold stack3, same_shape.
  rewrite !Hshape by (rewrite !elem_of_cons; auto).
  by rewrite bool_decide_eq_true_2.
Qed.

End ShiftOne.

(** ** Selection under a mask *)

Lemma fmap_join {A B} (f : A → B) (ls : list (list A)) :
  f <$> mjoin ls = mjoin ((λ l : list A, f <$> l) <$> ls).
Proof.
  induction ls as [|l ls IH]; [done|].
  change (mjoin (l :: ls)) with (l ++ mjoin ls).
  rewrite fmap_app, IH. done.
Qed.

Lemma flatten3_length {A} (a : arr3 A) :
  length (flatten3 a) = sum_list (mjoin (shape3 a)).
Proof.
  unfold flatten3, shape3. by rewrite length_join, fmap_join.
Qed.

Lemma flatten3_map3 {A B} (f : A → B) (a : arr3 A) :
  flatten3 (map3 f a) = f <$> flatten3 a.
Proof.
  unfold flatten3, map3. by rewrite !fmap_join.
Qed.

(** Where the signature [e] occurs in [t], a block [a] of the shape of [t]
    has at least one voxel under the mask [t == e]. *)
Lemma mask_select_signature a t e :
  shape3 a = shape3 t → e ∈ flatten3 t →
  ∃ sel, mask_select a (map3 (λ x, x =? e) t) = Some sel ∧ sel ≠ [].
Proof.
  intros Hshape He. unfold mask_select, same_shape.
  rewrite shape3_map3, bool_decide_eq_true_2 by done.
  eexists. split; [done|].
  apply list_elem_of_lookup in He as [j Hj].
  destruct (lookup_lt_is_Some_2 (flatten3 a) j) as [x Hx].
  { rewrite flatten3_length, Hshape, <- flatten3_length.
    by eapply lookup_lt_Some. }
  assert (x ∈ (filter (λ xb : Z * bool, xb.2 = true)
                 (zip (flatten3 a) (flatten3 (map3 (λ x, x =? e) t)))).*1)
    as Hin.
  { apply list_elem_of_fmap. exists (x, true). split; [done|].
    apply list_elem_of_filter. split; [done|].
    apply list_elem_of_lookup. exists j. apply lookup_zip_Some.
    split; [done|]. rewrite flatten3_map3, list_lookup_fmap, Hj. simpl.
    by rewrite Z.eqb_refl. }
  intros Hnil. rewrite Hnil in Hin. by apply elem_of_nil in Hin.
Qed.

(** ** Edge extraction on the aligned block (C3) *)

(** A loop whose steps all succeed and only extend the state establishes,
    for every item, what its step establishes. *)
Lemma for_each_ensures {A B} (Q : A → list B → Prop) (l : list A) body st :
  (∀ x s, x ∈ l → ∃ s', body x s = Some s' ∧ s ⊆ s' ∧ Q x s') →
  (∀ x s s', Q x s → s ⊆ s' → Q x s') →
  ∃ st', for_each l body st = Some st' ∧ st ⊆ st' ∧ ∀ x, x ∈ l → Q x st'.
Proof.
  intros Hbody Hmono. revert st.
  induction l as [|x l IH]; intros st.
  - exists st. split_and!; [done..|]. intros x Hx. by apply elem_of_nil in Hx.
  - destruct (Hbody x st) as (s1 & Hs1 & Hsub1 & HQ1); [by left|].
    destruct IH with (st := s1) as (st' & Hrun & Hsub & HQ).
    { intros y s Hy. apply Hbody. by right. }
    exists st'. simpl. rewrite Hs1. simpl. split_and!; [done| |].
    + by trans s1.
    + intros y [->|Hy]%elem_of_cons; [by eapply Hmono|by apply HQ].
Qed.

Lemma set_add_subseteq `{EqDecision A} (x : A) st : st ⊆ set_add x st.
Proof. intros y Hy. apply set_add_elem. by right. Qed.

Lemma edge_step_emits labels_block n_shift i sl tbd e edges :
  slicers n_shift !! i = Some sl →
  shape3 (slice3 sl.1 labels_block) = shape3 tbd →
  shape3 (slice3 sl.2 labels_block) = shape3 tbd →
  e ∈ flatten3 tbd →
  ∃ edges', edge_step labels_block n_shift i tbd e edges = Some edges'
            ∧ edges ⊆ edges'
            ∧ (e ≠ 0 → emitted labels_block sl tbd e edges').
Proof.
  intros Hsl Hs1 Hs2 He. unfold edge_step.
  destruct (e =? 0) eqn:He0.
  { apply Z.eqb_eq in He0. exists edges. by split_and!. }
  rewrite Hsl. cbn [mbind option_bind]. unfold first_label.
  destruct (mask_select_signature _ _ _ Hs1 He) as (l1 & Hl1 & Hne1).
  destruct (mask_select_signature _ _ _ Hs2 He) as (l2 & Hl2 & Hne2).
  rewrite Hl1, Hl2. cbn [mbind option_bind].
  destruct (np_unique_head_is_Some l1 Hne1) as [n1 Hn1].
  destruct (np_unique_head_is_Some l2 Hne2) as [n2 Hn2].
  rewrite Hn1, Hn2. cbn [mbind option_bind].
  eexists. split_and!; [done|apply set_add_subseteq|]. intros _.
  exists l1, l2, n1, n2.
  split; [done|]. split; [done|].
  split; [by apply np_unique_head|]. split; [by apply np_unique_head|].
  apply set_add_elem. by left.
Qed.

Lemma enumerate_elem {A} (l : list A) i x :
  (i, x) ∈ enumerate l ↔ l !! i = Some x.
Proof.
  unfold enumerate. rewrite list_elem_of_lookup. split.
  - intros (j & Hj). apply lookup_zip_Some in Hj as [Hseq Hx].
    apply lookup_seq in Hseq as [-> _]. done.
  - intros Hx. exists i. apply lookup_zip_Some. split; [|done].
    apply lookup_seq. split; [done|]. by eapply lookup_lt_Some.
Qed.

Lemma emitted_mono labels_block sl tbd e (s1 s2 : list (Z * Z)) :
  emitted labels_block sl tbd e s1 → s1 ⊆ s2 →
  emitted labels_block sl tbd e s2.
Proof.
  intros (l1 & l2 & n1 & n2 & H1 & H2 & Hn1 & Hn2 & Hin) Hsub.
  exists l1, l2, n1, n2. split_and!; try done; try apply Hn1; try apply Hn2.
  by apply Hsub.
Qed.

(** C3, counterexample. Along x the block holds the labels 9, 18, 17, 10.
    The signature 27 occurs at the contacts 9|18 and 17|10: under its mask
    the first sub-volume carries 18 and 10, the second 9 and 17.
    [get_edges] returns normally, and its pair for 27 is (10, 9), two labels
    that do not touch. *)
Lemma get_edges_ambiguous_signature :
  ∃ topo_x topo_y topo_z sl,
    get_topo_block block_ambiguous 1 = Some [topo_x; topo_y; topo_z]
    ∧ slicers 1 !! 0%nat = Some sl
    ∧ mask_select (slice3 sl.1 block_ambiguous)
        (map3 (λ x, x =? 27) topo_x) = Some [18; 10]
    ∧ mask_select (slice3 sl.2 block_ambiguous)
        (map3 (λ x, x =? 27) topo_x) = Some [9; 17]
    ∧ get_edges [topo_x; topo_y; topo_z] block_ambiguous 1
      = Some [(10, 9); (17, 18); (9, 9); (17, 17); (18, 18)].
Proof.
  do 4 eexists. split; [vm_compute; reflexivity|].
  split; [reflexivity|]. vm_compute. by split_and!.
Qed.

(** C3, as amended. On a rectangular block and its topology block for a
    shift of one voxel [get_edges] does not fail: for every axis and every
    nonzero signature [e] of that axis it puts into the edge set the pair
    of the least label under the mask of [e] in the first sub-volume and the
    least label under it in the second, however many distinct labels the two
    selections carry. *)
Theorem get_edges_takes_least_labels ny nz labels :
  rect3 ny nz labels →
  ∃ topo_block edges,
    get_topo_block labels 1 = Some topo_block
    ∧ get_edges topo_block labels 1 = Some edges
    ∧ ∀ i sl tbd e,
        slicers 1 !! i = Some sl → topo_block !! i = Some tbd →
        e ∈ flatten3 tbd → e ≠ 0 →
        emitted labels sl tbd e edges.
Proof.
  intros Hrect. exists (shifted_sum labels <$> slicers 1).
  set (topo := shifted_sum labels <$> slicers 1).
  destruct (for_each_ensures
    (λ (it : nat * arr3 Z) (s : list (Z * Z)),
       ∀ sl e, slicers 1 !! it.1 = Some sl → e ∈ flatten3 it.2 → e ≠ 0 →
               emitted labels sl it.2 e s)
    (enumerate topo)
    (λ '(i, topo_block_dir) edges,
       for_each (np_unique (flatten3 topo_block_dir))
         (edge_step labels 1 i topo_block_dir) edges) [])
    as (edges & Hrun & _ & HQ).
  - intros [i tbd] s Hit. apply enumerate_elem in Hit. unfold topo in Hit.
    rewrite list_lookup_fmap in Hit.
    destruct (slicers 1 !! i) as [sl|] eqn:Hsl; [|done].
    injection Hit as <-.
    assert (sl ∈ slicers 1) as Hin by (by eapply list_elem_of_lookup_2).
    destruct (shifted_sum_shape ny nz labels Hrect sl Hin) as (_ & Hs1 & Hs2).
    destruct (for_each_ensures
      (λ (e : Z) (s : list (Z * Z)),
         e ≠ 0 → emitted labels sl (shifted_sum labels sl) e s)
      (np_unique (flatten3 (shifted_sum labels sl)))
      (edge_step labels 1 i (shifted_sum labels sl)) s)
      as (s' & Hrun & Hsub & HQ).
    + intros e s0 He. rewrite np_unique_elem in He.
      exact (edge_step_emits labels 1 i sl _ e s0 Hsl Hs1 Hs2 He).
    + intros e s1 s2 H1 Hsub Hne. eapply emitted_mono; [by apply H1|done].
    + exists s'. split_and!; [done..|]. cbn [fst snd].
      intros sl' e Hsl' He Hne. simplify_eq.
      apply HQ; [by apply np_unique_elem|done].
  - intros [i tbd] s1 s2 H1 Hsub sl e Hsl He Hne.
    eapply emitted_mono; [by apply H1|done].
  - exists edges. split_and!; [by eapply get_topo_block_shift_1|done|].
    intros i sl tbd e Hsl Htbd He Hne.
    apply (HQ (i, tbd)); [by apply enumerate_elem|done..].
Qed.

Lemma get_edges_takes_least_labels_witness :
  rect3 2 2 block_ambiguous
  ∧ ∃ topo_block edges,
      get_topo_block block_ambiguous 1 = Some topo_block
      ∧ get_edges topo_block block_ambiguous 1 = Some edges
      ∧ ∀ i sl tbd e,
          slicers 1 !! i = Some sl → topo_block !! i = Some tbd →
          e ∈ flatten3 tbd → e ≠ 0 →
          emitted block_ambiguous sl tbd e edges.
Proof.
  assert (rect3 2 2 block_ambiguous) as Hrect
    by (repeat (constructor; [split; [done|by repeat constructor]|]);
        constructor).
  split; [exact Hrect|].
  exact (get_edges_takes_least_labels 2 2 block_ambiguous Hrect).
Defined.

(** On labels that fit 62 bits the absolute sum of the topology block is
    the plain sum of the two labels. *)
Lemma abs_add_labels a b :
  0 <= a < 2 ^ 62 → 0 <= b < 2 ^ 62 →
  Int64.abs (Int64.add a b) = a + b.
Proof.
  intros Ha Hb. unfold Int64.abs, Int64.add.
  rewrite (wrap_id (a + b)) by (unfold Int64.in_range; lia).
  rewrite Z.abs_eq by lia. apply wrap_id. unfold Int64.in_range. lia.
Qed.

(** C9, at a failing input. For a shift of two voxels [get_topo_block]
    crops the other two axes with [slice(1, -1)] and each signature array of
    a (4, 4, 4) block has the shape (2, 2, 2); [get_edges] crops them with
    [slice_fit = slice(1, -2)] and its sub-volumes have the shapes (2, 1, 1),
    (1, 2, 1) and (1, 1, 2). The mask of a signature does not fit the
    sub-volume and the call raises. *)
Theorem get_edges_shift_2_misaligned :
  ∃ topo_block,
    get_topo_block block_4 2 = Some topo_block
    ∧ (λ t : arr3 Z, shape3 t) <$> topo_block
      = replicate 3 [[2; 2]; [2; 2]]%nat
    ∧ (λ sl, shape3 (slice3 sl.1 block_4)) <$> slicers 2
      = [[[1]; [1]]; [[1; 1]]; [[2]]]%nat
    ∧ (λ sl, shape3 (slice3 sl.2 block_4)) <$> slicers 2
      = [[[1]; [1]]; [[1; 1]]; [[2]]]%nat
    ∧ get_edges topo_block block_4 2 = None.
Proof.
  eexists. split; [vm_compute; reflexivity|]. vm_compute. by split_and!.
Qed.

(** With a shift of one voxel the same block is handled. *)
Lemma get_edges_shift_1_block_4 :
  ∃ topo_block,
    get_topo_block block_4 1 = Some topo_block
    ∧ get_edges topo_block block_4 1 = Some [(9, 9); (10, 9); (10, 10)].
Proof. eexists. split; vm_compute; reflexivity. Qed.

(** * Further properties of the code *)

(** ** Combinations *)

Lemma combinations_1 {A} (l : list A) :
  combinations l 1 = (λ x, [x]) <$> l.
Proof.
  induction l as [|x l IH]; [done|].
  cbn [combinations]. rewrite IH. by destruct l.
Qed.

(** The combinations of two members are the pairs of a member and a later
    one. *)
Lemma combinations_2_elem {A} (l : list A) c :
  c ∈ combinations l 2
  ↔ ∃ (i j : nat) a b,
      (i < j)%nat ∧ l !! i = Some a ∧ l !! j = Some b ∧ c = [a; b].
Proof.
  induction l as [|x l IH].
  - split; [by intros ?%elem_of_nil|]. by intros (i & j & a & b & _ & ? & _).
  - cbn [combinations]. rewrite elem_of_app, IH, combinations_1. split.
    + intros [Hc|(i & j & a & b & Hij & Ha & Hb & ->)].
      * apply list_elem_of_fmap in Hc as (c' & -> & Hc').
        apply list_elem_of_fmap in Hc' as (b & -> & Hb).
        apply list_elem_of_lookup in Hb as [j Hj].
        exists 0%nat, (S j), x, b. split_and!; [lia|done..].
      * exists (S i), (S j), a, b. split_and!; [lia|done..].
    + intros ([|i] & j & a & b & Hij & Ha & Hb & ->).
      * left. destruct j as [|j]; [lia|]. simpl in Ha, Hb. injection Ha as ->.
        apply list_elem_of_fmap. exists [b]. split; [done|].
        apply list_elem_of_fmap. exists b. split; [done|].
        by eapply list_elem_of_lookup_2.
      * right. destruct j as [|j]; [lia|].
        exists i, j, a, b. split_and!; [lia|done..].
Qed.

(** ** The sum lookup *)

Lemma sum_lot_fold combs (lot : gmap Z (list Z)) k :
  foldl (λ (lot : gmap Z (list Z)) comb, <[sum64 comb := comb]> lot)
    lot combs !! k
  = match last (filter (λ comb, sum64 comb = k) combs) with
    | Some comb => Some comb
    | None => lot !! k
    end.
Proof.
  revert lot. induction combs as [|c combs IH]; intros lot; [done|].
  cbn [foldl]. rewrite IH, filter_cons.
  destruct (decide (sum64 c = k)) as [<-|Hne].
  - rewrite last_cons. destruct (last _); [done|]. by rewrite lookup_insert_eq.
  - by rewrite lookup_insert_ne.
Qed.

(** X1. [get_node_label_sum_lot] maps a sum to the last combination of two
    labels, in the order of [itertools.combinations], that has this sum:
    when two pairs of labels have one sum the later pair replaces the
    earlier, and a sum of no pair has no entry. *)
Theorem get_node_label_sum_lot_last ulabels k :
  get_node_label_sum_lot ulabels !! k
  = last (filter (λ comb, sum64 comb = k) (combinations ulabels 2)).
Proof.
  unfold get_node_label_sum_lot. rewrite sum_lot_fold, lookup_empty.
  by destruct (last _).
Qed.

(** X2. Every entry of the table of [get_node_label_sum_lot] is sound: its
    value is a pair of a label and a later label of [ulabels], and its key
    is their 64-bit sum. *)
Theorem get_node_label_sum_lot_sound ulabels k comb :
  get_node_label_sum_lot ulabels !! k = Some comb →
  ∃ (i j : nat) a b,
    (i < j)%nat ∧ ulabels !! i = Some a ∧ ulabels !! j = Some b
    ∧ comb = [a; b] ∧ k = Int64.add (Int64.add 0 a) b.
Proof.
  unfold get_node_label_sum_lot. rewrite sum_lot_fold, lookup_empty.
  destruct (last _) as [c|] eqn:Hlast; [|done]. intros [= ->].
  apply last_Some_elem_of, list_elem_of_filter in Hlast as [Hsum Hin].
  apply combinations_2_elem in Hin as (i & j & a & b & Hij & Ha & Hb & ->).
  exists i, j, a, b. by split_and!.
Qed.

Lemma get_node_label_sum_lot_sound_witness :
  get_node_label_sum_lot [9; 10; 17] !! 26 = Some [9; 17]
  ∧ ∃ (i j : nat) a b,
      (i < j)%nat ∧ [9; 10; 17] !! i = Some a ∧ [9; 10; 17] !! j = Some b
      ∧ [9; 17] = [a; b] ∧ 26 = Int64.add (Int64.add 0 a) b.
Proof.
  split; [vm_compute; reflexivity|].
  apply (get_node_label_sum_lot_sound [9; 10; 17] 26 [9; 17]).
  vm_compute. reflexivity.
Defined.

(** X3. Round trip of [get_node_label_sum_lot]: when no two combinations of
    two labels have the same sum, the sum of a label and a later label is
    mapped back to that pair. *)
Theorem get_node_label_sum_lot_round_trip ulabels (i j : nat) a b :
  (∀ c1 c2, c1 ∈ combinations ulabels 2 → c2 ∈ combinations ulabels 2 →
            sum64 c1 = sum64 c2 → c1 = c2) →
  (i < j)%nat → ulabels !! i = Some a → ulabels !! j = Some b →
  get_node_label_sum_lot ulabels !! sum64 [a; b] = Some [a; b].
Proof.
  intros Hinj Hij Ha Hb.
  unfold get_node_label_sum_lot. rewrite sum_lot_fold, lookup_empty.
  assert ([a; b] ∈ combinations ulabels 2) as Hin.
  { apply combinations_2_elem. exists i, j, a, b. by split_and!. }
  destruct (last _) as [c|] eqn:Hlast.
  - apply last_Some_elem_of, list_elem_of_filter in Hlast as [Hsum Hc].
    f_equal. by apply Hinj.
  - apply last_None in Hlast.
    by apply (filter_nil_not_elem_of _ _ [a; b]) in Hlast.
Qed.

Lemma get_node_label_sum_lot_round_trip_witness :
  ((∀ c1 c2, c1 ∈ combinations [9; 10; 17] 2 →
             c2 ∈ combinations [9; 10; 17] 2 →
             sum64 c1 = sum64 c2 → c1 = c2)
   ∧ (0 < 2)%nat ∧ [9; 10; 17] !! 0%nat = Some 9
   ∧ [9; 10; 17] !! 2%nat = Some 17)
  ∧ get_node_label_sum_lot [9; 10; 17] !! sum64 [9; 17] = Some [9; 17].
Proof.
  assert (∀ c1 c2, c1 ∈ combinations [9; 10; 17] 2 →
                   c2 ∈ combinations [9; 10; 17] 2 →
                   sum64 c1 = sum64 c2 → c1 = c2) as Hinj.
  { intros c1 c2 H1 H2. vm_compute in H1, H2.
    repeat (apply elem_of_cons in H1 as [->|H1]);
      repeat (apply elem_of_cons in H2 as [->|H2]);
      try (by apply elem_of_nil in H1); try (by apply elem_of_nil in H2);
      vm_compute; congruence. }
  split; [split_and!; [exact Hinj|lia|done|done]|].
  apply (get_node_label_sum_lot_round_trip [9; 10; 17] 0 2 9 17 Hinj);
    [lia|done|done].
Defined.

(** ** The label encoder *)

Lemma arange_lookup n (i : nat) :
  (i < n)%nat → arange n !! i = Some (Z.of_nat i).
Proof.
  intros Hi. unfold arange. rewrite list_lookup_fmap, lookup_seq_lt by done.
  done.
Qed.

Lemma fb_after_lookup lb fb (i : nat) row :
  Forall (Forall (λ x, - 2 ^ 62 <= x <= 2 ^ 62)) fb →
  Z.of_nat (length fb) <= 2 ^ 62 →
  fb !! i = Some row →
  fb_after (get_labels_block lb fb) !! i
  = Some ((λ x, x - 1 + Z.of_nat i) <$> row).
Proof.
  intros Hfb Hn Hrow. cbn [get_labels_block fb_after].
  unfold fb_add_arange, fb_sub_1.
  pose proof (lookup_lt_Some _ _ _ Hrow) as Hi.
  rewrite lookup_zip_with, length_fmap, arange_lookup by done.
  cbn [mbind option_bind]. rewrite list_lookup_fmap, Hrow.
  cbn [fmap option_fmap option_map mbind option_bind]. f_equal.
  rewrite <- list_fmap_compose. apply Forall_fmap_ext.
  rewrite Forall_lookup in Hfb. specialize (Hfb _ _ Hrow).
  eapply Forall_impl; [exact Hfb|]. simpl. intros x Hx.
  unfold Int64.add, Int64.sub. rewrite wrap_add_l.
  apply wrap_id. unfold Int64.in_range. lia.
Qed.

(** X4. [get_labels_block] leaves in the caller's array [fb], in place of
    each value [x] of fault layer [i], the value [x - 1 + i]. This holds
    for every [lb], also when the call raises (an empty [lb], rows of
    another length); the values are taken small enough not to wrap. *)
Theorem get_labels_block_fb_after lb fb :
  Forall (Forall (λ x, - 2 ^ 62 <= x <= 2 ^ 62)) fb →
  Z.of_nat (length fb) <= 2 ^ 62 →
  fb_after (get_labels_block lb fb)
  = imap (λ i (row : list Z), (λ x, x - 1 + Z.of_nat i) <$> row) fb.
Proof.
  intros Hfb Hn. apply list_eq. intros i. rewrite list_lookup_imap.
  destruct (fb !! i) as [row|] eqn:Hrow.
  - by apply fb_after_lookup.
  - apply lookup_ge_None. apply lookup_ge_None in Hrow.
    cbn [get_labels_block fb_after]. unfold fb_add_arange, fb_sub_1.
    rewrite length_zip_with, !length_fmap. lia.
Qed.

Lemma get_labels_block_fb_after_witness :
  (Forall (Forall (λ x, - 2 ^ 62 <= x <= 2 ^ 62)) [[1; 2]; [2; 1]]
   ∧ Z.of_nat (length [[1; 2]; [2; 1]]) <= 2 ^ 62)
  ∧ fb_after (get_labels_block [] [[1; 2]; [2; 1]])
    = imap (λ i (row : list Z), (λ x, x - 1 + Z.of_nat i) <$> row)
        [[1; 2]; [2; 1]].
Proof.
  assert (Forall (Forall (λ x, - 2 ^ 62 <= x <= 2 ^ 62)) [[1; 2]; [2; 1]])
    as Hfb by (repeat constructor; lia).
  split; [split; [exact Hfb|simpl; lia]|].
  apply (get_labels_block_fb_after [] [[1; 2]; [2; 1]] Hfb). simpl. lia.
Defined.

(** X5. Whenever [get_labels_block] returns, [lb] is not empty, every fault
    layer has as many voxels as [lb], and there is one label per voxel. *)
Theorem get_labels_block_returns_shape lb fb labels :
  labels_of (get_labels_block lb fb) = Some labels →
  lb ≠ []
  ∧ Forall (λ row : list Z, length row = length lb) fb
  ∧ length labels = length lb.
Proof.
  cbn [get_labels_block labels_of]. intros Hrun.
  apply bind_Some in Hrun as (m & Hmin & Hrun).
  apply bind_Some in Hrun as (stacked & Hcat & Hrun).
  apply bind_Some in Hrun as (powered & Hpow & [= <-]).
  split; [by destruct lb|].
  unfold concatenate_rows in Hcat.
  destruct (forallb _ _) eqn:Hall in Hcat; [|done]. injection Hcat as <-.
  rewrite length_fmap in Hall.
  assert (Forall (λ row : list Z, length row = length lb)
            (fb_add_arange (fb_sub_1 fb))) as Hrows.
  { apply Forall_forall. intros row Hrow%list_elem_of_In.
    rewrite forallb_forall in Hall. by apply Nat.eqb_eq, Hall. }
  split.
  - pose proof (fb_after_row_length lb fb) as Hkeep.
    cbn [get_labels_block fb_after] in Hkeep.
    clear -Hrows. unfold fb_add_arange, fb_sub_1 in Hrows.
    rewrite length_fmap in Hrows. unfold arange in Hrows.
    revert Hrows. generalize 0%nat.
    induction fb as [|row fb IH]; intros k Hrows; [constructor|].
    cbn [length seq fmap list_fmap zip_with] in Hrows.
    apply Forall_cons in Hrows as [Hrow Hrows].
    constructor; [by rewrite !length_fmap in Hrow|by apply (IH (S k))].
  - apply mapM_Some_1, Forall2_cons_inv_l in Hpow
      as (p & ps & Hr & Hrs & ->).
    cbn [sum_axis0]. apply length_mapM in Hr.
    rewrite foldl_zip_with_length.
    + rewrite <- Hr. by rewrite length_fmap.
    + clear -Hrs Hrows Hr. rewrite <- Hr, length_fmap.
      induction Hrs as [|x y xs ys Hxy _ IH]; [constructor|].
      apply Forall_cons in Hrows as [Hx Hrows].
      constructor; [|by apply IH]. apply length_mapM in Hxy. congruence.
Qed.

Lemma get_labels_block_returns_shape_witness :
  labels_of (get_labels_block [1; 2] [[1; 2]; [2; 2]]) = Some [21; 38]
  ∧ [1; 2] ≠ []
  ∧ Forall (λ row : list Z, length row = length [1; 2]) [[1; 2]; [2; 2]]
  ∧ length [21; 38] = length [1; 2].
Proof.
  split; [vm_compute; reflexivity|].
  apply (get_labels_block_returns_shape [1; 2] [[1; 2]; [2; 2]] [21; 38]).
  vm_compute. reflexivity.
Defined.

(** X6. [get_labels_block] raises when some fault layer [i] holds a value
    below [1 - i]: its exponent [x - 1 + i] is negative and NumPy refuses
    the power. *)
Theorem get_labels_block_negative_exponent lb fb (i : nat) row x :
  Forall (Forall (λ x, - 2 ^ 62 <= x <= 2 ^ 62)) fb →
  Z.of_nat (length fb) <= 2 ^ 62 →
  fb !! i = Some row → x ∈ row → x - 1 + Z.of_nat i < 0 →
  labels_of (get_labels_block lb fb) = None.
Proof.
  intros Hfb Hn Hrow Hx Hneg.
  destruct (labels_of (get_labels_block lb fb)) as [labels|] eqn:Hrun;
    [exfalso|done].
  pose proof (fb_after_lookup lb fb i row Hfb Hn Hrow) as Hafter.
  cbn [get_labels_block labels_of fb_after] in Hrun, Hafter.
  apply bind_Some in Hrun as (m & Hmin & Hrun).
  apply bind_Some in Hrun as (stacked & Hcat & Hrun).
  apply bind_Some in Hrun as (powered & Hpow & _).
  unfold concatenate_rows in Hcat.
  destruct (forallb _ _) in Hcat; [|done]. injection Hcat as <-.
  apply mapM_Some_1, Forall2_cons_inv_l in Hpow
    as (p & ps & _ & Hps & _).
  apply Forall2_lookup_l with (i := i)
    (x := (λ x, x - 1 + Z.of_nat i) <$> row) in Hps as (r & _ & Hr);
    [|done].
  apply mapM_Some_1 in Hr.
  apply list_elem_of_lookup in Hx as [j Hj].
  apply Forall2_lookup_l with (i := j) (x := x - 1 + Z.of_nat i) in Hr
    as (y & _ & Hy); [|by rewrite list_lookup_fmap, Hj].
  unfold Int64.pow2 in Hy. destruct (_ <? 0) eqn:Hlt in Hy; [done|lia].
Qed.

Lemma get_labels_block_negative_exponent_witness :
  (Forall (Forall (λ x, - 2 ^ 62 <= x <= 2 ^ 62)) [[0; 1]]
   ∧ Z.of_nat (length [[0; 1]]) <= 2 ^ 62
   ∧ [[0; 1]] !! 0%nat = Some [0; 1] ∧ 0 ∈ [0; 1]
   ∧ 0 - 1 + Z.of_nat 0 < 0)
  ∧ labels_of (get_labels_block [1; 2] [[0; 1]]) = None.
Proof.
  assert (Forall (Forall (λ x, - 2 ^ 62 <= x <= 2 ^ 62)) [[0; 1]])
    as Hfb by (repeat constructor; lia).
  assert (0 ∈ [0; 1]) as Hin by (by left).
  split; [split_and!; [exact Hfb|simpl; lia|done|exact Hin|simpl; lia]|].
  apply (get_labels_block_negative_exponent [1; 2] [[0; 1]] 0 [0; 1] 0 Hfb);
    [simpl; lia|done|exact Hin|simpl; lia].
Defined.

(** The fault bits of a voxel determine its sides. *)
Lemma positions_sum_inj k col1 col2 :
  0 <= k → sides col1 → sides col2 → length col1 = length col2 →
  sum_pow2 (positions_from k col1) = sum_pow2 (positions_from k col2) →
  col1 = col2.
Proof.
  intros Hk Hc1. revert k Hk col2.
  induction Hc1 as [|a col1 Ha Hc1 IH]; intros k Hk col2 Hc2 Hlen Hsum.
  - by destruct col2.
  - destruct Hc2 as [|b col2 Hb Hc2]; [done|]. injection Hlen as Hlen.
    cbn [positions_from] in Hsum. rewrite !sum_pow2_cons in Hsum.
    destruct (sum_pow2_multiple k (positions_from (k + 1) col1))
      as (y1 & Hy1 & E1); [done| |].
    { eapply Forall_impl; [by apply positions_from_lower|]. simpl. lia. }
    destruct (sum_pow2_multiple k (positions_from (k + 1) col2))
      as (y2 & Hy2 & E2); [done| |].
    { eapply Forall_impl; [by apply positions_from_lower|]. simpl. lia. }
    assert (0 < 2 ^ k) as Hp by (apply Z.pow_pos_nonneg; lia).
    assert (2 ^ (k + 1) = 2 * 2 ^ k) as Hd
      by (rewrite Z.pow_add_r by lia; lia).
    assert (a = b) as ->.
    { rewrite E1, E2, Hd in Hsum.
      destruct Ha as [->| ->], Hb as [->| ->]; try done.
      - replace (1 - 1 + k) with k in Hsum by lia.
        replace (2 - 1 + k) with (k + 1) in Hsum by lia.
        rewrite Hd in Hsum.
        assert (2 ^ k * (1 + 2 * y1) = 2 ^ k * (2 + 2 * y2)) as Hmul by lia.
        apply Z.mul_reg_l in Hmul; lia.
      - replace (1 - 1 + k) with k in Hsum by lia.
        replace (2 - 1 + k) with (k + 1) in Hsum by lia.
        rewrite Hd in Hsum.
        assert (2 ^ k * (2 + 2 * y1) = 2 ^ k * (1 + 2 * y2)) as Hmul by lia.
        apply Z.mul_reg_l in Hmul; lia. }
    f_equal. apply (IH (k + 1)); [lia|done..|lia].
Qed.

(** X7. The labels of [get_labels_block] are unique per geobody: on a
    valid input that fits 64 bits two voxels get the same label exactly
    when they have the same lithology and lie on the same side of every
    fault. *)
Theorem get_labels_block_unique n_layers lb fb :
  valid_input n_layers lb fb →
  Z.of_nat (length fb) + n_layers <= 61 →
  ∃ labels,
    labels_of (get_labels_block lb fb) = Some labels
    ∧ ∀ v w x y, lb !! v = Some x → lb !! w = Some y →
        (labels !! v = labels !! w ↔ x = y ∧ column fb v = column fb w).
Proof.
  intros Hvalid Hfit.
  destruct (get_labels_block_labels _ _ _ Hvalid Hfit)
    as (m & labels & Hmin & Hm & Hlabels & Hlen & Hl).
  destruct Hvalid as (Hne & Hlb & Hfb).
  exists labels. split; [done|]. intros v w x y Hx Hy.
  destruct (Hl _ _ Hx) as [Hmx ->]. destruct (Hl _ _ Hy) as [Hmy ->].
  split; [|by intros [-> ->]]. intros [= Heq].
  set (nf := Z.of_nat (length fb)) in *.
  assert (∀ u, (u < length lb)%nat → sides (column fb u)) as Hsides.
  { intros u Hu. apply column_sides. eapply Forall_impl; [exact Hfb|].
    simpl. by intros row [-> ?]. }
  pose proof (Hsides v (lookup_lt_Some _ _ _ Hx)) as Hsv.
  pose proof (Hsides w (lookup_lt_Some _ _ _ Hy)) as Hsw.
  destruct (label_popcount (x - m + nf + 2) (column fb v) Hsv) as [Hrv _];
    [rewrite column_length; lia|].
  destruct (label_popcount (y - m + nf + 2) (column fb w) Hsw) as [Hrw _];
    [rewrite column_length; lia|].
  cbn zeta in Hrv, Hrw.
  pose proof (sum_pow2_nonneg (positions_from 0 (column fb v))) as Hnv.
  pose proof (sum_pow2_nonneg (positions_from 0 (column fb w))) as Hnw.
  assert (x = y) as ->.
  { destruct (Z.lt_trichotomy x y) as [Hlt|[?|Hlt]]; [exfalso|done|exfalso].
    - assert (2 ^ (x - m + nf + 2 + 1) <= 2 ^ (y - m + nf + 2))
        by (apply Z.pow_le_mono_r; lia). lia.
    - assert (2 ^ (y - m + nf + 2 + 1) <= 2 ^ (x - m + nf + 2))
        by (apply Z.pow_le_mono_r; lia). lia. }
  split; [done|].
  apply (positions_sum_inj 0); [lia|done|done| |lia].
  by rewrite !column_length.
Qed.

Lemma get_labels_block_unique_witness :
  (valid_input 2 [1; 2; 2] [[1; 2; 2]; [1; 1; 2]]
   ∧ Z.of_nat (length [[1; 2; 2]; [1; 1; 2]]) + 2 <= 61)
  ∧ ∃ labels,
      labels_of (get_labels_block [1; 2; 2] [[1; 2; 2]; [1; 1; 2]])
      = Some labels
      ∧ ∀ v w x y, [1; 2; 2] !! v = Some x → [1; 2; 2] !! w = Some y →
          (labels !! v = labels !! w
           ↔ x = y ∧ column [[1; 2; 2]; [1; 1; 2]] v
                     = column [[1; 2; 2]; [1; 1; 2]] w).
Proof.
  split; [split; [solve_valid_input|simpl; lia]|].
  apply (get_labels_block_unique 2); [solve_valid_input|simpl; lia].
Defined.

(** ** The topology block for any shift *)

Lemma py_slice_lookup {A} (sl : pyslice) (l : list A) (i : nat) :
  let n := Z.of_nat (length l) in
  let a := slice_bound n sl.1 0 in
  let b := slice_bound n sl.2 n in
  py_slice sl l !! i
  = if decide (i < Z.to_nat (b - a))%nat then l !! (Z.to_nat a + i)%nat
    else None.
Proof.
  intros n a b. unfold py_slice. fold n a b.
  rewrite lookup_take. case_decide; [|done]. by rewrite lookup_drop.
Qed.

Section Shift.

Context (n_shift : Z).
Hypothesis Hshift : 1 <= n_shift.

Lemma slice_len_from n :
  slice_len (Some n_shift, None) n = (n - Z.to_nat n_shift)%nat.
Proof.
  unfold slice_len, slice_bound. cbn [fst snd].
  destruct (n_shift <? 0) eqn:Hneg; lia.
Qed.

Lemma slice_len_to n :
  slice_len (None, Some (- n_shift)) n = (n - Z.to_nat n_shift)%nat.
Proof.
  unfold slice_len, slice_bound. cbn [fst snd].
  destruct (- n_shift <? 0) eqn:Hneg; lia.
Qed.

Lemma slice_len_crop n :
  slice_len (Some (n_shift / 2), Some (- n_shift / 2)) n
  = (n - Z.to_nat n_shift)%nat.
Proof.
  unfold slice_len, slice_bound. cbn [fst snd].
  assert (0 <= n_shift / 2) by (apply Z.div_pos; lia).
  assert (- n_shift / 2 < 0) by (apply Z.div_lt_upper_bound; lia).
  assert (n_shift / 2 - - n_shift / 2 = n_shift)
    by (Z.to_euclidean_division_equations; lia).
  destruct (n_shift / 2 <? 0) eqn:Hlo, (- n_shift / 2 <? 0) eqn:Hhi; lia.
Qed.

Lemma py_slice_from_lookup {A} (l : list A) (i : nat) :
  (i < length l - Z.to_nat n_shift)%nat →
  py_slice (Some n_shift, None) l !! i = l !! (Z.to_nat n_shift + i)%nat.
Proof.
  intros Hi. rewrite py_slice_lookup. unfold slice_bound. cbn [fst snd].
  destruct (n_shift <? 0) eqn:Hneg; [lia|].
  rewrite decide_True by lia. f_equal. lia.
Qed.

Lemma py_slice_to_lookup {A} (l : list A) (i : nat) :
  (i < length l - Z.to_nat n_shift)%nat →
  py_slice (None, Some (- n_shift)) l !! i = l !! i.
Proof.
  intros Hi. rewrite py_slice_lookup. unfold slice_bound. cbn [fst snd].
  destruct (- n_shift <? 0) eqn:Hneg; [|lia].
  rewrite decide_True by lia. done.
Qed.

Lemma py_slice_crop_lookup {A} (l : list A) (i : nat) :
  (i < length l - Z.to_nat n_shift)%nat →
  py_slice (Some (n_shift / 2), Some (- n_shift / 2)) l !! i
  = l !! (Z.to_nat (n_shift / 2) + i)%nat.
Proof.
  intros Hi. rewrite py_slice_lookup. unfold slice_bound. cbn [fst snd].
  assert (0 <= n_shift / 2) by (apply Z.div_pos; lia).
  assert (- n_shift / 2 < 0) by (apply Z.div_lt_upper_bound; lia).
  assert (n_shift / 2 - - n_shift / 2 = n_shift)
    by (Z.to_euclidean_division_equations; lia).
  destruct (n_shift / 2 <? 0) eqn:Hlo, (- n_shift / 2 <? 0) eqn:Hhi;
    try lia.
  rewrite decide_True by lia. f_equal. lia.
Qed.

End Shift.

Section TopoBlock.

(** A rectangular block of shape (nx, [ny], [nz]) and a shift of at least
    one voxel. *)
Context (ny nz : nat) (labels : arr3 Z) (n_shift : Z).
Hypothesis Hrect : rect3 ny nz labels.
Hypothesis Hshift : 1 <= n_shift.

Lemma topo_slicers_rect sl :
  sl ∈ topo_slicers n_shift →
  rect3 (ny - Z.to_nat n_shift) (nz - Z.to_nat n_shift) (slice3 sl.1 labels)
  ∧ rect3 (ny - Z.to_nat n_shift) (nz - Z.to_nat n_shift)
      (slice3 sl.2 labels)
  ∧ length (slice3 sl.1 labels) = (length labels - Z.to_nat n_shift)%nat
  ∧ length (slice3 sl.2 labels) = (length labels - Z.to_nat n_shift)%nat.
Proof.
  intros Hsl. unfold topo_slicers in Hsl.
  repeat (apply elem_of_cons in Hsl as [->|Hsl]);
    [| | |by apply elem_of_nil in Hsl]; cbn [fst snd];
    (split_and!;
     [ match goal with
       | |- rect3 _ _ (slice3 (?sx, ?sy, ?sz) _) =>
           pose proof (slice3_rect ny nz sx sy sz labels Hrect) as H;
           by rewrite ?slice_len_from, ?slice_len_to, ?slice_len_crop
             in H by done
       end ..
     | by rewrite slice3_length,
            ?slice_len_from, ?slice_len_to, ?slice_len_crop by done
     | by rewrite slice3_length,
            ?slice_len_from, ?slice_len_to, ?slice_len_crop by done ]).
Qed.

Lemma topo_sum_shape sl :
  sl ∈ topo_slicers n_shift →
  rect3 (ny - Z.to_nat n_shift) (nz - Z.to_nat n_shift)
    (shifted_sum labels sl)
  ∧ length (shifted_sum labels sl) = (length labels - Z.to_nat n_shift)%nat.
Proof.
  intros Hsl.
  destruct (topo_slicers_rect sl Hsl) as (Hr1 & Hr2 & Hl1 & Hl2).
  unfold shifted_sum. split.
  - by apply map3_rect, zip3_rect.
  - unfold map3. rewrite length_fmap, zip3_length by congruence. done.
Qed.

Lemma get_topo_block_slices :
  get_topo_block labels n_shift
  = Some (shifted_sum labels <$> topo_slicers n_shift).
Proof.
  set (from_n := (Some n_shift, None) : pyslice).
  set (to_n := (None, Some (- n_shift)) : pyslice).
  set (crop := (Some (n_shift / 2), Some (- n_shift / 2)) : pyslice).
  set (d := Z.to_nat n_shift).
  assert (∀ sx sy sz sx' sy' sz' ny' nz',
    slice_len sy ny = ny' → slice_len sy' ny = ny' →
    slice_len sz nz = nz' → slice_len sz' nz = nz' →
    slice_len sx (length labels) = slice_len sx' (length labels) →
    rect3 ny' nz' (slice3 (sx, sy, sz) labels)
    ∧ rect3 ny' nz' (slice3 (sx', sy', sz') labels)
    ∧ abs_sum3 (slice3 (sx, sy, sz) labels) (slice3 (sx', sy', sz') labels)
      = Some (map3 Int64.abs
                (zip3 Int64.add (slice3 (sx, sy, sz) labels)
                   (slice3 (sx', sy', sz') labels)))) as Hsum.
  { intros sx sy sz sx' sy' sz' ny' nz' Hy Hy' Hz Hz' Hx.
    pose proof (slice3_rect ny nz sx sy sz labels Hrect) as H1.
    pose proof (slice3_rect ny nz sx' sy' sz' labels Hrect) as H2.
    rewrite Hy, Hz in H1. rewrite Hy', Hz' in H2.
    split_and!; [done..|]. apply (abs_sum3_rect ny' nz'); [done..|].
    by rewrite !slice3_length. }
  destruct (Hsum from_n all_ all_ to_n all_ all_ ny nz)
    as (Hx1 & Hx2 & Hx);
    [unfold from_n, to_n, d;
     by rewrite ?slice_len_all, ?slice_len_from, ?slice_len_to by done..|].
  destruct (Hsum all_ from_n all_ all_ to_n all_ (ny - d)%nat nz)
    as (Hy1 & Hy2 & Hy);
    [unfold from_n, to_n, d;
     by rewrite ?slice_len_all, ?slice_len_from, ?slice_len_to by done..|].
  destruct (Hsum all_ all_ from_n all_ all_ to_n ny (nz - d)%nat)
    as (Hz1 & Hz2 & Hz);
    [unfold from_n, to_n, d;
     by rewrite ?slice_len_all, ?slice_len_from, ?slice_len_to by done..|].
  unfold get_topo_block. fold from_n to_n crop.
  rewrite Hx, Hy, Hz. cbn [mbind option_bind].
  rewrite !slice3_map3.
  rewrite (slice3_zip3 _ ny nz), (slice3_zip3 _ (ny - d) nz),
    (slice3_zip3 _ ny (nz - d));
    [|unfold from_n, to_n, d; by rewrite ?slice3_length,
      ?slice_len_all, ?slice_len_from, ?slice_len_to by done ..].
  rewrite !slice3_after_x, !slice3_after_y, !slice3_after_z.
  assert (topo_slicers n_shift
          = [ ((from_n, crop, crop), (to_n, crop, crop));
              ((crop, from_n, crop), (crop, to_n, crop));
              ((crop, crop, from_n), (crop, crop, to_n)) ]) as Hsl by done.
  assert (∀ sl, sl ∈ topo_slicers n_shift →
    shape3 (shifted_sum labels sl)
    = replicate (length labels - d) (replicate (ny - d) (nz - d)%nat))
    as Hshape.
  { intros sl Hin. destruct (topo_sum_shape sl Hin) as [Hr Hl].
    by rewrite (shape3_rect _ _ _ Hr), Hl. }
  rewrite Hsl in *. cbn [fmap list_fmap].
  change (stack3
            (shifted_sum labels ((from_n, crop, crop), (to_n, crop, crop)))
            (shifted_sum labels ((crop, from_n, crop), (crop, to_n, crop)))
            (shifted_sum labels ((crop, crop, from_n), (crop, crop, to_n)))
          = Some
              [ shifted_sum labels ((from_n, crop, crop), (to_n, crop, crop));
                shifted_sum labels ((crop, from_n, crop), (crop, to_n, crop));
                shifted_sum labels
                  ((crop, crop, from_n), (crop, crop, to_n)) ]).
  unfold stack3, same_shape.
  rewrite !Hshape by (rewrite !elem_of_cons; auto).
  by rewrite bool_decide_eq_true_2.
Qed.

End TopoBlock.

Lemma get3_map3 {A B} (f : A → B) (a : arr3 A) x y z :
  get3 (map3 f a) x y z = f <$> get3 a x y z.
Proof.
  unfold get3, map3. rewrite list_lookup_fmap.
  destruct ((a : list (list (list A))) !! x) as [plane|]; [|done].
  cbn [fmap option_fmap option_map mbind option_bind].
  rewrite list_lookup_fmap. destruct (plane !! y) as [row|]; [|done].
  cbn [fmap option_fmap option_map mbind option_bind].
  by rewrite list_lookup_fmap.
Qed.

Lemma get3_zip3 f a b x y z :
  get3 (zip3 f a b) x y z
  = u ← get3 a x y z; v ← get3 b x y z; Some (f u v).
Proof.
  unfold get3, zip3. rewrite lookup_zip_with.
  destruct ((a : list (list (list Z))) !! x) as [pa|]; [|done].
  cbn [mbind option_bind].
  destruct ((b : list (list (list Z))) !! x) as [pb|];
    cbn [mbind option_bind].
  2:{ destruct (pa !! y) as [ra|]; [|done]. cbn [mbind option_bind].
      by destruct (ra !! z). }
  rewrite lookup_zip_with.
  destruct (pa !! y) as [ra|]; [|done]. cbn [mbind option_bind].
  destruct (pb !! y) as [rb|]; cbn [mbind option_bind];
    [|by destruct (ra !! z)].
  by rewrite lookup_zip_with.
Qed.

Section TopoValues.

Context (ny nz : nat) (labels : arr3 Z) (n_shift : Z).
Hypothesis Hrect : rect3 ny nz labels.
Hypothesis Hshift : 1 <= n_shift.

Lemma get3_slice3 sx sy sz ox oy oz (x y z : nat) :
  starts_at n_shift sx ox → starts_at n_shift sy oy →
  starts_at n_shift sz oz →
  (x < length labels - Z.to_nat n_shift)%nat →
  (y < ny - Z.to_nat n_shift)%nat → (z < nz - Z.to_nat n_shift)%nat →
  get3 (slice3 (sx, sy, sz) labels) x y z
  = get3 labels (ox + x) (oy + y) (oz + z).
Proof.
  intros Hsx Hsy Hsz Hx Hy Hz. unfold get3, slice3.
  rewrite list_lookup_fmap, Hsx by done.
  destruct ((labels : list (list (list Z))) !! (ox + x)%nat)
    as [plane|] eqn:Hplane; [|done].
  cbn [fmap option_fmap option_map mbind option_bind].
  unfold rect3 in Hrect. rewrite Forall_lookup in Hrect.
  destruct (Hrect _ _ Hplane) as [Hlen Hrows].
  rewrite list_lookup_fmap, Hsy by lia.
  destruct (plane !! (oy + y)%nat) as [row|] eqn:Hrow; [|done].
  cbn [fmap option_fmap option_map mbind option_bind].
  rewrite Forall_lookup in Hrows. specialize (Hrows _ _ Hrow).
  apply Hsz. lia.
Qed.

Lemma starts_at_from :
  starts_at n_shift (Some n_shift, None) (Z.to_nat n_shift).
Proof. intros A l i Hi. by apply py_slice_from_lookup. Qed.

Lemma starts_at_to : starts_at n_shift (None, Some (- n_shift)) 0.
Proof. intros A l i Hi. by apply py_slice_to_lookup. Qed.

Lemma starts_at_crop :
  starts_at n_shift (Some (n_shift / 2), Some (- n_shift / 2))
    (Z.to_nat (n_shift / 2)).
Proof. intros A l i Hi. by apply py_slice_crop_lookup. Qed.

End TopoValues.

(** X8. For a rectangular block of shape (nx, ny, nz) and every shift of
    at least one voxel [get_topo_block] returns three signature arrays, each
    of the shape (nx - n_shift, ny - n_shift, nz - n_shift), a dimension
    shorter than the shift giving an empty axis. *)
Theorem get_topo_block_shape ny nz labels n_shift :
  rect3 ny nz labels → 1 <= n_shift →
  ∃ topo_x topo_y topo_z,
    get_topo_block labels n_shift = Some [topo_x; topo_y; topo_z]
    ∧ Forall (λ t : arr3 Z,
                length t = (length labels - Z.to_nat n_shift)%nat
                ∧ rect3 (ny - Z.to_nat n_shift) (nz - Z.to_nat n_shift) t)
        [topo_x; topo_y; topo_z].
Proof.
  intros Hrect Hshift.
  rewrite (get_topo_block_slices ny nz) by done.
  assert (Forall (λ t : arr3 Z,
                    length t = (length labels - Z.to_nat n_shift)%nat
                    ∧ rect3 (ny - Z.to_nat n_shift) (nz - Z.to_nat n_shift) t)
            (shifted_sum labels <$> topo_slicers n_shift)) as Hall.
  { apply Forall_fmap, Forall_forall. intros sl Hsl.
    destruct (topo_sum_shape ny nz labels n_shift Hrect Hshift sl Hsl)
      as [Hr Hl].
    by split. }
  unfold topo_slicers in *. cbn [fmap list_fmap] in *. by do 3 eexists.
Qed.

Lemma get_topo_block_shape_witness :
  (rect3 4 4 block_4 ∧ 1 <= 2)
  ∧ ∃ topo_x topo_y topo_z,
      get_topo_block block_4 2 = Some [topo_x; topo_y; topo_z]
      ∧ Forall (λ t : arr3 Z,
                  length t = (length block_4 - Z.to_nat 2)%nat
                  ∧ rect3 (4 - Z.to_nat 2) (4 - Z.to_nat 2) t)
          [topo_x; topo_y; topo_z].
Proof.
  assert (rect3 4 4 block_4) as Hrect
    by (repeat (constructor; [split; [done|by repeat constructor]|]);
        constructor).
  split; [split; [exact Hrect|lia]|].
  apply (get_topo_block_shape 4 4 block_4 2 Hrect). lia.
Defined.
(** X9. The values of the topology block: for a shift [n_shift >= 1] the
    entry (x, y, z) of the x signature array is |l[x + n_shift, y + h, z + h]
    + l[x, y + h, z + h]| with h = n_shift // 2, in int64 arithmetic, and
    likewise for y and z with the shift on their axis: every array compares
    voxels [n_shift] apart along its axis and is cropped by [n_shift // 2]
    at the lower end of the two other axes. *)
Theorem get_topo_block_values ny nz labels n_shift topo_x topo_y topo_z
    (x y z : nat) :
  let d := Z.to_nat n_shift in
  let h := Z.to_nat (n_shift / 2) in
  let abs_sum (u v : option Z) : option Z :=
    a ← u; b ← v; Some (Int64.abs (Int64.add a b)) in
  rect3 ny nz labels → 1 <= n_shift →
  get_topo_block labels n_shift = Some [topo_x; topo_y; topo_z] →
  (x < length labels - d)%nat → (y < ny - d)%nat → (z < nz - d)%nat →
  get3 topo_x x y z
  = abs_sum (get3 labels (d + x) (h + y) (h + z))
            (get3 labels x (h + y) (h + z))
  ∧ get3 topo_y x y z
    = abs_sum (get3 labels (h + x) (d + y) (h + z))
              (get3 labels (h + x) y (h + z))
  ∧ get3 topo_z x y z
    = abs_sum (get3 labels (h + x) (h + y) (d + z))
              (get3 labels (h + x) (h + y) z).
Proof.
  intros d h abs_sum Hrect Hshift Hget Hx Hy Hz.
  rewrite (get_topo_block_slices ny nz) in Hget by done.
  unfold topo_slicers in Hget. cbn [fmap list_fmap] in Hget.
  injection Hget as <- <- <-.
  pose proof (starts_at_from n_shift Hshift) as Hfrom.
  pose proof (starts_at_to n_shift Hshift) as Hto.
  pose proof (starts_at_crop n_shift Hshift) as Hcrop.
  unfold shifted_sum, abs_sum. cbn [fst snd].
  rewrite !get3_map3, !get3_zip3.
  pose proof (λ sx sy sz ox oy oz Hsx Hsy Hsz,
                get3_slice3 ny nz labels n_shift Hrect Hshift sx sy sz
                  ox oy oz x y z Hsx Hsy Hsz Hx Hy Hz) as Hslice.
  rewrite (Hslice _ _ _ _ _ _ Hfrom Hcrop Hcrop),
    (Hslice _ _ _ _ _ _ Hto Hcrop Hcrop),
    (Hslice _ _ _ _ _ _ Hcrop Hfrom Hcrop),
    (Hslice _ _ _ _ _ _ Hcrop Hto Hcrop),
    (Hslice _ _ _ _ _ _ Hcrop Hcrop Hfrom),
    (Hslice _ _ _ _ _ _ Hcrop Hcrop Hto).
  fold d h. change (0 + ?n)%nat with n.
  split_and!;
    repeat match goal with
           | |- context [get3 labels ?a ?b ?c] =>
               destruct (get3 labels a b c)
           end; done.
Qed.

Lemma get_topo_block_values_witness :
  (rect3 4 4 block_4 ∧ 1 <= 2
   ∧ (1 < length block_4 - Z.to_nat 2)%nat
   ∧ (0 < 4 - Z.to_nat 2)%nat ∧ (1 < 4 - Z.to_nat 2)%nat)
  ∧ ∃ topo_x topo_y topo_z,
      get_topo_block block_4 2 = Some [topo_x; topo_y; topo_z]
      ∧ get3 topo_x 1 0 1
        = (a ← get3 block_4 3 1 2; b ← get3 block_4 1 1 2;
           Some (Int64.abs (Int64.add a b))).
Proof.
  assert (rect3 4 4 block_4) as Hrect
    by (repeat (constructor; [split; [done|by repeat constructor]|]);
        constructor).
  split; [split_and!; [exact Hrect|lia|cbn; lia..]|].
  destruct (get_topo_block block_4 2) as [[|tx [|ty [|tz [|]]]]|] eqn:Hget;
    try (vm_compute in Hget; discriminate).
  exists tx, ty, tz. split; [done|].
  apply (get_topo_block_values 4 4 block_4 2 tx ty tz 1 0 1 Hrect
           ltac:(lia) Hget ltac:(cbn; lia) ltac:(cbn; lia) ltac:(cbn; lia)).
Defined.
(** ** The edge extractor: where the pairs come from *)

Lemma first_label_least a tbd e n :
  first_label a (map3 (λ x, x =? e) tbd) = Some n → least_under a tbd e n.
Proof.
  unfold first_label. intros Hf.
  apply bind_Some in Hf as (sel & Hsel & Hhead).
  apply np_unique_head in Hhead. by exists sel.
Qed.

Lemma edge_step_origin labels_block n_shift i tbd e edges edges' p :
  edge_step labels_block n_shift i tbd e edges = Some edges' →
  p ∈ edges' →
  p ∈ edges
  ∨ e ≠ 0
    ∧ ∃ sl, slicers n_shift !! i = Some sl
            ∧ least_under (slice3 sl.1 labels_block) tbd e p.1
            ∧ least_under (slice3 sl.2 labels_block) tbd e p.2.
Proof.
  unfold edge_step. destruct (e =? 0) eqn:He0.
  { intros [= <-]. by left. }
  apply Z.eqb_neq in He0. intros Hrun Hp.
  apply bind_Some in Hrun as (sl & Hsl & Hrun).
  apply bind_Some in Hrun as (n1 & Hn1 & Hrun).
  apply bind_Some in Hrun as (n2 & Hn2 & [= <-]).
  apply set_add_elem in Hp as [->|Hp]; [|by left].
  right. split; [done|]. exists sl.
  split_and!; [done|by apply first_label_least..].
Qed.

(** X10. Every pair that [get_edges] returns comes from a nonzero
    signature [e] of one of the first three arrays of the topology block:
    its first component is the least label under the mask of [e] in the
    first sub-volume of that axis, its second the least label under it in
    the second sub-volume. This holds for every shift and every input on
    which the call returns. *)
Theorem get_edges_sound topo_block_f labels_block n_shift edges n1 n2 :
  get_edges topo_block_f labels_block n_shift = Some edges →
  (n1, n2) ∈ edges →
  ∃ i sl tbd e,
    slicers n_shift !! i = Some sl ∧ topo_block_f !! i = Some tbd
    ∧ e ∈ flatten3 tbd ∧ e ≠ 0
    ∧ least_under (slice3 sl.1 labels_block) tbd e n1
    ∧ least_under (slice3 sl.2 labels_block) tbd e n2.
Proof.
  unfold get_edges. intros Hrun. revert n1 n2.
  eapply (for_each_inv (λ es : list (Z * Z), ∀ n1 n2, (n1, n2) ∈ es → _));
    [| |exact Hrun].
  - by intros n1 n2 ?%elem_of_nil.
  - intros [i tbd] es1 es2 Hit Hes1 Hinner.
    apply enumerate_elem in Hit.
    eapply (for_each_inv (λ es : list (Z * Z), ∀ n1 n2, (n1, n2) ∈ es → _));
      [exact Hes1| |exact Hinner].
    intros e s1 s2 He Hs1 Hstep n1 n2 Hin.
    destruct (edge_step_origin _ _ _ _ _ _ _ _ Hstep Hin)
      as [Hold|(Hne & sl & Hsl & H1 & H2)]; [by apply Hs1|].
    rewrite np_unique_elem in He. cbn [fst snd] in H1, H2.
    exists i, sl, tbd, e. by split_and!.
Qed.

Lemma get_edges_sound_witness :
  (get_topo_block block_two_orders 1 = Some topo_two_orders
   ∧ get_edges topo_two_orders block_two_orders 1
     = Some [(9, 9); (10, 9); (10, 10); (9, 10)]
   ∧ (10, 9) ∈ [(9, 9); (10, 9); (10, 10); (9, 10)])
  ∧ ∃ i sl tbd e,
      slicers 1 !! i = Some sl ∧ topo_two_orders !! i = Some tbd
      ∧ e ∈ flatten3 tbd ∧ e ≠ 0
      ∧ least_under (slice3 sl.1 block_two_orders) tbd e 10
      ∧ least_under (slice3 sl.2 block_two_orders) tbd e 9.
Proof.
  assert (get_edges topo_two_orders block_two_orders 1
          = Some [(9, 9); (10, 9); (10, 10); (9, 10)]) as Hrun
    by (vm_compute; reflexivity).
  assert ((10, 9) ∈ [(9, 9); (10, 9); (10, 10); (9, 10)]) as Hin
    by compute_done.
  split; [split_and!; [vm_compute; reflexivity|done..]|].
  exact (get_edges_sound _ _ _ _ 10 9 Hrun Hin).
Defined.
Lemma py_slice_elem {A} (sl : pyslice) (l : list A) x :
  x ∈ py_slice sl l → x ∈ l.
Proof.
  unfold py_slice. intros Hx.
  apply list_elem_of_lookup in Hx as [i Hi].
  apply lookup_take_Some in Hi as [Hi _]. rewrite lookup_drop in Hi.
  by eapply list_elem_of_lookup_2.
Qed.

Lemma flatten3_elem {A} (a : arr3 A) x :
  x ∈ flatten3 a
  ↔ ∃ plane row, plane ∈ (a : list (list (list A))) ∧ row ∈ plane ∧ x ∈ row.
Proof.
  unfold flatten3. rewrite list_elem_of_join. split.
  - intros (row & Hx & Hrow). apply list_elem_of_join in Hrow
      as (plane & Hrow & Hplane). by exists plane, row.
  - intros (plane & row & Hplane & Hrow & Hx). exists row. split; [done|].
    apply list_elem_of_join. by exists plane.
Qed.

Lemma flatten3_slice3_elem {A} sl (a : arr3 A) x :
  x ∈ flatten3 (slice3 sl a) → x ∈ flatten3 a.
Proof.
  destruct sl as [[sx sy] sz]. rewrite !flatten3_elem. unfold slice3.
  intros (plane & row & Hplane & Hrow & Hx).
  apply list_elem_of_fmap in Hplane as (plane0 & -> & Hplane0).
  apply list_elem_of_fmap in Hrow as (row0 & -> & Hrow0).
  exists plane0, row0.
  split_and!; by eapply py_slice_elem.
Qed.

Lemma mask_select_elem a mask sel x :
  mask_select a mask = Some sel → x ∈ sel → x ∈ flatten3 a.
Proof.
  unfold mask_select. case_match; [|done]. intros [= <-] Hx.
  apply list_elem_of_fmap in Hx as ([y b] & -> & Hyb).
  apply list_elem_of_filter in Hyb as [_ Hyb].
  by apply elem_of_zip_l in Hyb.
Qed.

(** X11. [get_edges] invents no node: both components of every pair it
    returns are labels that occur in the labels block. *)
Theorem get_edges_nodes_in_block topo_block_f labels_block n_shift edges
    n1 n2 :
  get_edges topo_block_f labels_block n_shift = Some edges →
  (n1, n2) ∈ edges →
  n1 ∈ flatten3 labels_block ∧ n2 ∈ flatten3 labels_block.
Proof.
  unfold get_edges. intros Hrun. revert n1 n2.
  eapply (for_each_inv (λ es : list (Z * Z), ∀ n1 n2, (n1, n2) ∈ es → _));
    [| |exact Hrun].
  - by intros n1 n2 ?%elem_of_nil.
  - intros [i tbd] es1 es2 _ Hes1 Hinner.
    eapply (for_each_inv (λ es : list (Z * Z), ∀ n1 n2, (n1, n2) ∈ es → _));
      [exact Hes1| |exact Hinner].
    intros e s1 s2 _ Hs1 Hstep n1 n2 Hin.
    destruct (edge_step_origin _ _ _ _ _ _ _ _ Hstep Hin)
      as [Hold|(_ & sl & _ & H1 & H2)]; [by apply Hs1|].
    destruct H1 as (sel1 & Hsel1 & Hn1 & _).
    destruct H2 as (sel2 & Hsel2 & Hn2 & _).
    split; [apply (flatten3_slice3_elem sl.1)|apply (flatten3_slice3_elem sl.2)];
      by eapply mask_select_elem.
Qed.

Lemma get_edges_nodes_in_block_witness :
  (get_edges topo_two_orders block_two_orders 1
   = Some [(9, 9); (10, 9); (10, 10); (9, 10)]
   ∧ (10, 9) ∈ [(9, 9); (10, 9); (10, 10); (9, 10)])
  ∧ 10 ∈ flatten3 block_two_orders ∧ 9 ∈ flatten3 block_two_orders.
Proof.
  assert (get_edges topo_two_orders block_two_orders 1
          = Some [(9, 9); (10, 9); (10, 10); (9, 10)]) as Hrun
    by (vm_compute; reflexivity).
  assert ((10, 9) ∈ [(9, 9); (10, 9); (10, 10); (9, 10)]) as Hin
    by compute_done.
  split; [by split|].
  exact (get_edges_nodes_in_block _ _ _ _ 10 9 Hrun Hin).
Defined.
(** ** The lithology lookup: its entries *)

(** X12. An entry of the mapping of [get_lith_lot] has a label of the
    block as its key, and as its value a bit position of the lithology
    range, [2 * n_faults <= v < 2 * n_faults + n_layers], whose template the
    pattern of the label occurs in. *)
Theorem get_lith_lot_entries labels n_faults n_layers node v :
  get_lith_lot labels n_faults n_layers !! node = Some v →
  node ∈ labels
  ∧ Z.of_nat n_faults * 2 <= v < Z.of_nat n_faults * 2 + Z.of_nat n_layers
  ∧ str_in (node_bin_nofault n_faults n_layers node)
      (layer_key n_faults n_layers v) = true.
Proof.
  rewrite get_lith_lot_lookup. case_decide as Hnode; [|done].
  intros Hlast. apply fmap_Some in Hlast as ([k v'] & Hlast & ->).
  apply last_Some_elem_of in Hlast. unfold matching_templates in Hlast.
  apply list_elem_of_filter in Hlast as [Hmatch Hin]. cbn [fst snd] in *.
  apply layer_ids_elem in Hin as [-> Hv]. unfold label_width in Hv.
  split; [done|split; [lia|done]].
Qed.

Lemma get_lith_lot_entries_witness :
  get_lith_lot [9; 17] 1 2 !! 9 = Some 3
  ∧ 9 ∈ [9; 17]
  ∧ Z.of_nat 1 * 2 <= 3 < Z.of_nat 1 * 2 + Z.of_nat 2
  ∧ str_in (node_bin_nofault 1 2 9) (layer_key 1 2 3) = true.
Proof.
  assert (get_lith_lot [9; 17] 1 2 !! 9 = Some 3) as H
    by (vm_compute; reflexivity).
  split; [exact H|]. exact (get_lith_lot_entries [9; 17] 1 2 9 3 H).
Defined.

Lemma dict_set_fresh `{EqDecision K} {V} (k : K) (v : V) d :
  k ∉ d.*1 → dict_set k v d = d ++ [(k, v)].
Proof.
  induction d as [|[k0 v0] d IH]; simpl; [done|].
  intros Hk. apply not_elem_of_cons in Hk as [Hne Hk].
  rewrite decide_False by done. by rewrite IH.
Qed.

(** The template table holds the keys of the lithology positions in
    ascending order. *)
Lemma layer_ids_list n_faults n_layers :
  layer_ids n_faults n_layers
  = (λ i, (layer_key n_faults n_layers i, i))
      <$> py_range (Z.of_nat n_faults * 2) (label_width n_faults n_layers).
Proof.
  unfold layer_ids.
  set (key := layer_key n_faults n_layers).
  assert (∀ l d,
    NoDup l → (∀ i, i ∈ l → 0 <= i) →
    (∀ i k v, i ∈ l → (k, v) ∈ d → 0 <= v ∧ k = key v ∧ v ∉ l) →
    foldl (λ d i, dict_set (key i) i d) d l
    = d ++ ((λ i, (key i, i)) <$> l)) as Hfold.
  { induction l as [|i l IH]; intros d Hnd Hpos Hd; simpl.
    - by rewrite app_nil_r.
    - apply NoDup_cons in Hnd as [Hi Hnd].
      rewrite dict_set_fresh.
      + rewrite IH; [by rewrite <- app_assoc|done| |].
        * intros j Hj. apply Hpos. by right.
        * intros j k v Hj [Hkv|Hkv]%elem_of_app.
          -- destruct (Hd j k v) as (Hv & Hk & Hnot); [by right|done|].
             split_and!; [done..|]. intros Hvl. apply Hnot. by right.
          -- apply list_elem_of_singleton in Hkv as [= -> ->].
             split_and!; [apply Hpos; by left|done..].
      + intros Hin. apply list_elem_of_fmap in Hin as ([k v] & Hk & Hkv).
        simpl in Hk. destruct (Hd i k v) as (Hv & Hkey & Hnot);
          [by left|done|].
        rewrite Hkey in Hk. unfold key in Hk.
        apply layer_key_inj in Hk; [|apply Hpos; by left|done].
        subst v. apply Hnot. by left. }
  rewrite Hfold; [done| | |].
  - unfold py_range. apply NoDup_fmap_2; [|apply NoDup_seq].
    intros a b Hab. lia.
  - intros i Hi%py_range_elem. lia.
  - by intros i k v _ ?%elem_of_nil.
Qed.

Lemma filter_all {A} (P : A → Prop) `{∀ x, Decision (P x)} (l : list A) :
  Forall P l → filter P l = l.
Proof.
  induction 1 as [|x l Hx _ IH]; [done|].
  by rewrite filter_cons_True, IH.
Qed.

Lemma node_bin_nofault_no_faults n_layers node :
  node_bin_nofault 0 n_layers node = [].
Proof.
  unfold node_bin_nofault, py_slice, slice_bound. cbn [fst snd].
  change (- Z.of_nat 0 * 2 <? 0) with false. cbn match.
  replace (Z.to_nat (Z.min _ _ - 0)) with 0%nat by lia. done.
Qed.

(** X13. Without faults the pattern of every node is the empty string,
    which occurs in every template: for [n_layers >= 1] the mapping of
    [get_lith_lot] takes every label of the block to [n_layers - 1], the
    value of the last template. *)
Theorem get_lith_lot_no_faults labels n_layers node :
  (1 <= n_layers)%nat → node ∈ labels →
  get_lith_lot labels 0 n_layers !! node = Some (Z.of_nat n_layers - 1).
Proof.
  intros Hnl Hnode. rewrite get_lith_lot_lookup, decide_True by done.
  unfold matching_templates. rewrite node_bin_nofault_no_faults.
  rewrite filter_all.
  2:{ apply Forall_forall. intros [k v] _. by destruct k. }
  rewrite layer_ids_list. unfold py_range, label_width.
  replace (Z.to_nat (Z.of_nat 0 * 2 + Z.of_nat n_layers - Z.of_nat 0 * 2))
    with (S (n_layers - 1)) by lia.
  rewrite seq_S, !fmap_app. cbn [fmap list_fmap].
  rewrite last_snoc. simpl. f_equal. lia.
Qed.

Lemma get_lith_lot_no_faults_witness :
  ((1 <= 3)%nat ∧ 5 ∈ [5; 6])
  ∧ get_lith_lot [5; 6] 0 3 !! 5 = Some (Z.of_nat 3 - 1).
Proof.
  split; [split; [lia|compute_done]|].
  apply (get_lith_lot_no_faults [5; 6] 3 5); [lia|compute_done].
Defined.
(** ** The adjacency matrix: shape, entries, failure *)

Lemma index_of_lookup `{EqDecision A} (x : A) l i :
  index_of x l = Some i → l !! i = Some x.
Proof.
  revert i. induction l as [|y l IH]; intros i; simpl; [done|].
  case_decide as Hy; [by intros [= <-]; subst|].
  intros Hi. apply fmap_Some in Hi as (k & Hk & ->). by apply IH.
Qed.

Lemma edges_loop (adj_matrix_labels : list str) w edges m0 m :
  square (length adj_matrix_labels) m0 →
  for_each edges
    (λ '(n1, n2) adj_matrix,
       i ← index_of (zfill w (binary_repr n1)) adj_matrix_labels;
       j ← index_of (zfill w (binary_repr n2)) adj_matrix_labels;
       Some (set_true j i (set_true i j adj_matrix))) m0 = Some m →
  square (length adj_matrix_labels) m
  ∧ ∀ i j, entry m i j = Some true
           ↔ entry m0 i j = Some true
             ∨ edge_entry adj_matrix_labels w edges i j.
Proof.
  set (n := length adj_matrix_labels).
  revert m0. induction edges as [|[n1 n2] edges IH]; intros m0 Hsq; simpl.
  - intros [= <-]. split; [done|]. intros i j. split; [by left|].
    intros [H|(? & ? & ? & ? & []%elem_of_nil & _)]. done.
  - intros Hrun. apply bind_Some in Hrun as (m1 & Hbody & Hrun).
    apply bind_Some in Hbody as (a & Ha & Hbody).
    apply bind_Some in Hbody as (b & Hb & [= <-]).
    pose proof (index_of_lt _ _ _ Ha) as Hlta.
    pose proof (index_of_lt _ _ _ Hb) as Hltb.
    destruct (IH _ (set_true_square _ _ _ _ (set_true_square _ _ _ _ Hsq))
                Hrun) as [Hsqm Hm].
    split; [done|]. intros i j. rewrite Hm.
    rewrite !(entry_set_true n) by auto using set_true_square.
    split.
    + intros [H|(n1' & n2' & a' & b' & Hin & Ha' & Hb' & Hij)].
      * destruct (decide (i = b ∧ j = a)) as [Hba|_].
        { right. exists n1, n2, a, b. split_and!; [by left|done..|by right]. }
        destruct (decide (i = a ∧ j = b)) as [Hab|_]; [|by left].
        right. exists n1, n2, a, b. split_and!; [by left|done..|by left].
      * right. exists n1', n2', a', b'. split_and!; [by right|done..].
    + intros [H|(n1' & n2' & a' & b' & Hin & Ha' & Hb' & Hij)].
      * left. by repeat case_decide.
      * apply elem_of_cons in Hin as [[= -> ->]|Hin].
        -- left. simplify_eq. repeat case_decide; try done.
           exfalso. intuition.
        -- right. by exists n1', n2', a', b'.
Qed.

Lemma diagonal_loop_entries (adj_matrix_labels : list str) bins m0 m :
  square (length adj_matrix_labels) m0 →
  for_each bins
    (λ bin_label adj_matrix,
       i ← index_of bin_label adj_matrix_labels;
       Some (set_true i i adj_matrix)) m0 = Some m →
  square (length adj_matrix_labels) m
  ∧ ∀ i j, entry m i j = Some true
           ↔ entry m0 i j = Some true
             ∨ i = j ∧ ∃ b, b ∈ bins ∧ index_of b adj_matrix_labels = Some i.
Proof.
  set (n := length adj_matrix_labels).
  revert m0. induction bins as [|b bins IH]; intros m0 Hsq; simpl.
  - intros [= <-]. split; [done|]. intros i j. split; [by left|].
    intros [H|(_ & ? & []%elem_of_nil & _)]. done.
  - intros Hrun. apply bind_Some in Hrun as (m1 & Hbody & Hrun).
    apply bind_Some in Hbody as (a & Ha & [= <-]).
    pose proof (index_of_lt _ _ _ Ha) as Hlta.
    destruct (IH _ (set_true_square _ _ _ _ Hsq) Hrun) as [Hsqm Hm].
    split; [done|]. intros i j. rewrite Hm.
    rewrite !(entry_set_true n) by done.
    split.
    + intros [H|(-> & b' & Hin & Hb')].
      * destruct (decide (i = a ∧ j = a)) as [[-> ->]|_]; [|by left].
        right. split; [done|]. exists b. split; [by left|done].
      * right. split; [done|]. exists b'. split; [by right|done].
    + intros [H|(-> & b' & Hin & Hb')].
      * left. by case_decide.
      * apply elem_of_cons in Hin as [->|Hin].
        -- left. simplify_eq. by rewrite decide_True.
        -- right. split; [done|]. by exists b'.
Qed.

Lemma get_adj_matrix_loops edges (adj_matrix_labels : list str) labels m :
  get_adj_matrix edges adj_matrix_labels labels = Some m →
  ∃ first,
    adj_matrix_labels !! 0%nat = Some first
    ∧ square (length adj_matrix_labels) m
    ∧ ∀ i j,
        entry m i j = Some true
        ↔ edge_entry adj_matrix_labels (Z.of_nat (length first)) edges i j
          ∨ diagonal_entry adj_matrix_labels labels i j.
Proof.
  unfold get_adj_matrix. set (n := length adj_matrix_labels).
  destruct (adj_matrix_labels !! 0%nat) as [first|]; [simpl|done].
  destruct (for_each edges _ _) as [m1|] eqn:Hedges; [simpl|done].
  intros Hdiag. exists first. split; [done|].
  destruct (edges_loop _ _ _ _ _ (square_zeros n) Hedges) as [Hsq1 Hm1].
  destruct (diagonal_loop_entries _ _ _ _ Hsq1 Hdiag) as [Hsq Hm].
  split; [done|]. intros i j. rewrite Hm, Hm1, entry_zeros.
  unfold diagonal_entry. split.
  - intros [[H|H]|(-> & b & Hb & Hi)]; [by case_decide|by left|].
    apply list_elem_of_fmap in Hb as (l & -> & Hl).
    rewrite np_unique_elem in Hl. right. split; [done|]. by exists l.
  - intros [H|(-> & l & Hl & Hi)]; [left; by right|].
    right. split; [done|]. exists (zfill 9 (binary_repr l)).
    split; [|done]. apply list_elem_of_fmap. exists l.
    by rewrite np_unique_elem.
Qed.

(** X14. The matrix that [get_adj_matrix] returns is square, with one row
    and one column for every canonical label: an index pair below
    [len(adj_matrix_labels)] holds a truth value, any other pair is out of
    range. *)
Theorem get_adj_matrix_shape edges (adj_matrix_labels : list str) labels m :
  get_adj_matrix edges adj_matrix_labels labels = Some m →
  length m = length adj_matrix_labels
  ∧ Forall (λ row, length row = length adj_matrix_labels) m
  ∧ ∀ i j, is_Some (entry m i j)
           ↔ (i < length adj_matrix_labels)%nat
             ∧ (j < length adj_matrix_labels)%nat.
Proof.
  intros Hrun.
  destruct (get_adj_matrix_loops _ _ _ _ Hrun) as (_ & _ & [Hlen Hrows] & _).
  split_and!; [done..|]. intros i j. unfold entry.
  rewrite Forall_lookup in Hrows. split.
  - intros [x Hx]. apply bind_Some in Hx as (row & Hrow & Hx).
    specialize (Hrows _ _ Hrow).
    apply lookup_lt_Some in Hrow, Hx. lia.
  - intros [Hi Hj].
    destruct (lookup_lt_is_Some_2 m i) as [row Hrow]; [lia|].
    rewrite Hrow. simpl. apply lookup_lt_is_Some_2.
    specialize (Hrows _ _ Hrow). lia.
Qed.

Lemma get_adj_matrix_shape_witness :
  get_adj_matrix [(1, 2)] [lit "01"; lit "10"] []
  = Some [[false; true]; [true; false]]
  ∧ length [[false; true]; [true; false]] = length [lit "01"; lit "10"]
  ∧ Forall (λ row, length row = length [lit "01"; lit "10"])
      [[false; true]; [true; false]].
Proof.
  assert (get_adj_matrix [(1, 2)] [lit "01"; lit "10"] []
          = Some [[false; true]; [true; false]]) as Hrun by reflexivity.
  split; [exact Hrun|].
  destruct (get_adj_matrix_shape _ _ _ _ Hrun) as (Hlen & Hrows & _).
  by split.
Defined.

(** X15. The matrix of [get_adj_matrix] is true exactly where the loops
    put an entry: at (i, j) and (j, i) for an edge whose node strings, padded
    to the length of the first canonical label, stand at the indices i and
    j, and at (i, i) for a label of the block whose nine-digit string stands
    at index i. Every other entry is false. *)
Theorem get_adj_matrix_entries edges (adj_matrix_labels : list str) labels m
    first i j :
  get_adj_matrix edges adj_matrix_labels labels = Some m →
  adj_matrix_labels !! 0%nat = Some first →
  entry m i j = Some true
  ↔ edge_entry adj_matrix_labels (Z.of_nat (length first)) edges i j
    ∨ diagonal_entry adj_matrix_labels labels i j.
Proof.
  intros Hrun Hfirst.
  destruct (get_adj_matrix_loops _ _ _ _ Hrun) as (first' & Hf & _ & Hm).
  rewrite Hfirst in Hf. injection Hf as <-. apply Hm.
Qed.

Lemma get_adj_matrix_entries_witness :
  (get_adj_matrix [(1, 2)] [lit "01"; lit "10"] []
   = Some [[false; true]; [true; false]]
   ∧ [lit "01"; lit "10"] !! 0%nat = Some (lit "01"))
  ∧ (entry [[false; true]; [true; false]] 0 0 = Some true
     ↔ edge_entry [lit "01"; lit "10"] (Z.of_nat (length (lit "01")))
         [(1, 2)] 0 0
       ∨ diagonal_entry [lit "01"; lit "10"] [] 0 0).
Proof.
  split; [by split|].
  by apply (get_adj_matrix_entries [(1, 2)] [lit "01"; lit "10"] []
              [[false; true]; [true; false]] (lit "01") 0 0).
Defined.
Lemma for_each_Some_all {A S} (l : list A) (body : A → S → option S) st st' :
  for_each l body st = Some st' →
  ∀ x, x ∈ l → ∃ s, is_Some (body x s).
Proof.
  revert st. induction l as [|y l IH]; intros st Hrun x Hx.
  - by apply elem_of_nil in Hx.
  - simpl in Hrun. apply bind_Some in Hrun as (s1 & Hy & Hrun).
    apply elem_of_cons in Hx as [->|Hx]; [by exists st; eexists|].
    by apply (IH s1).
Qed.

(** What a returning call has found. *)
Lemma get_adj_matrix_finds edges (adj_matrix_labels : list str) labels m :
  get_adj_matrix edges adj_matrix_labels labels = Some m →
  ∃ first,
    adj_matrix_labels !! 0%nat = Some first
    ∧ (∀ n1 n2, (n1, n2) ∈ edges →
         zfill (Z.of_nat (length first)) (binary_repr n1)
           ∈ adj_matrix_labels
         ∧ zfill (Z.of_nat (length first)) (binary_repr n2)
             ∈ adj_matrix_labels)
    ∧ (∀ l, l ∈ labels → zfill 9 (binary_repr l) ∈ adj_matrix_labels).
Proof.
  intros Hrun. unfold get_adj_matrix in Hrun.
  destruct (adj_matrix_labels !! 0%nat) as [first|]; [simpl in Hrun|done].
  destruct (for_each edges _ _) as [m1|] eqn:Hedges; [simpl in Hrun|done].
  exists first. split_and!; [done| |].
  - intros n1 n2 Hin.
    destruct (for_each_Some_all _ _ _ _ Hedges _ Hin) as (s & m2 & Hbody).
    apply bind_Some in Hbody as (i & Hi & Hbody).
    apply bind_Some in Hbody as (j & Hj & _).
    split; eapply list_elem_of_lookup_2, index_of_lookup; done.
  - intros l Hl.
    destruct (for_each_Some_all _ _ _ _ Hrun (zfill 9 (binary_repr l)))
      as (s & m2 & Hbody).
    { apply list_elem_of_fmap. exists l. by rewrite np_unique_elem. }
    apply bind_Some in Hbody as (i & Hi & _).
    by eapply list_elem_of_lookup_2, index_of_lookup.
Qed.

(** X16. [get_adj_matrix] returns exactly when the list of canonical
    labels is not empty, holds the strings of both nodes of every edge,
    padded to the length of its first element, and holds the nine-digit
    string of every label of the block; otherwise it raises, an
    [IndexError] for the empty list and a [ValueError] for a string that is
    not found. *)
Theorem get_adj_matrix_returns_iff edges (adj_matrix_labels : list str)
    labels :
  is_Some (get_adj_matrix edges adj_matrix_labels labels)
  ↔ ∃ first,
      adj_matrix_labels !! 0%nat = Some first
      ∧ (∀ n1 n2, (n1, n2) ∈ edges →
           zfill (Z.of_nat (length first)) (binary_repr n1)
             ∈ adj_matrix_labels
           ∧ zfill (Z.of_nat (length first)) (binary_repr n2)
               ∈ adj_matrix_labels)
      ∧ (∀ l, l ∈ labels → zfill 9 (binary_repr l) ∈ adj_matrix_labels).
Proof.
  split.
  - intros [m Hrun]. by eapply get_adj_matrix_finds.
  - intros (first & Hfirst & Hedges & Hlabels).
    by eapply get_adj_matrix_returns.
Qed.

Lemma zfill_length w x :
  Z.of_nat (length (zfill w x)) = Z.max w (Z.of_nat (length x)).
Proof.
  unfold zfill. destruct x as [|c x]; [rewrite length_replicate; simpl; lia|].
  case_bool_decide; cbn [length];
    rewrite ?length_app, length_replicate; cbn [length]; lia.
Qed.

(** X17. The nine digits of the diagonal loop are fixed: when every
    canonical label is shorter than nine characters, [get_adj_matrix] raises
    for every block that has a label, whatever the edges are. *)
Theorem get_adj_matrix_short_labels edges (adj_matrix_labels : list str)
    labels :
  Forall (λ s, (length s < 9)%nat) adj_matrix_labels → labels ≠ [] →
  get_adj_matrix edges adj_matrix_labels labels = None.
Proof.
  intros Hshort Hne.
  destruct (get_adj_matrix _ _ _) as [m|] eqn:Hrun; [exfalso|done].
  destruct (get_adj_matrix_finds _ _ _ _ Hrun) as (_ & _ & _ & Hlabels).
  destruct labels as [|l labels]; [done|].
  specialize (Hlabels l ltac:(by left)).
  rewrite Forall_forall in Hshort. specialize (Hshort _ Hlabels).
  pose proof (zfill_length 9 (binary_repr l)). lia.
Qed.

Lemma get_adj_matrix_short_labels_witness :
  (Forall (λ s, (length s < 9)%nat) [lit "0101"; lit "1001"] ∧ [9] ≠ [])
  ∧ get_adj_matrix [(9, 9)] [lit "0101"; lit "1001"] [9] = None.
Proof.
  assert (Forall (λ s, (length s < 9)%nat) [lit "0101"; lit "1001"])
    as Hshort by (repeat constructor; cbn; lia).
  split; [by split|].
  by apply (get_adj_matrix_short_labels [(9, 9)] [lit "0101"; lit "1001"]
              [9] Hshort).
Defined.
(** ** The canonical label space *)

Lemma py_range_lookup a b (i : nat) :
  (i < Z.to_nat (b - a))%nat → py_range a b !! i = Some (a + Z.of_nat i).
Proof.
  intros Hi. unfold py_range. rewrite list_lookup_fmap, lookup_seq_lt by done.
  done.
Qed.

Lemma get_fault_labels_rows n_faults :
  Z.of_nat n_faults <= 2 ^ 62 →
  get_fault_labels n_faults
  = (λ i : nat, [2 * Z.of_nat i; 2 * Z.of_nat i + 1]) <$> seq 0 n_faults.
Proof.
  intros Hn. unfold get_fault_labels. apply list_eq. intros i.
  rewrite lookup_zip_with, lookup_zip_with, list_lookup_fmap.
  destruct (decide (i < n_faults)%nat) as [Hi|Hi].
  - rewrite arange_lookup, py_range_lookup, lookup_seq_lt by lia.
    cbn [mbind option_bind fmap option_fmap option_map list_fmap].
    unfold Int64.add. rewrite !wrap_id by (unfold Int64.in_range; lia).
    do 3 f_equal; lia.
  - rewrite (lookup_ge_None_2 (arange n_faults))
      by (unfold arange; rewrite length_fmap, length_seq; lia).
    rewrite (lookup_ge_None_2 (seq 0 n_faults)) by (rewrite length_seq; lia).
    done.
Qed.

Lemma fault_labels_flatten n_faults :
  mjoin ((λ i : nat, [2 * Z.of_nat i; 2 * Z.of_nat i + 1]) <$> seq 0 n_faults)
  = arange (2 * n_faults).
Proof.
  unfold arange. induction n_faults as [|n IH]; [done|].
  rewrite seq_S, fmap_app, join_app, IH. cbn [fmap list_fmap mjoin list_join].
  replace (2 * S n)%nat with (S (S (2 * n))) by lia.
  rewrite !seq_S, !fmap_app. cbn [fmap list_fmap app].
  rewrite <- app_assoc. cbn [app]. do 3 f_equal; [|f_equal]; lia.
Qed.

(** X18. [get_fault_labels] gives fault [i] the pair of ids
    [2 i, 2 i + 1]: the rows are consecutive pairs, and read row by row the
    array counts from 0 to [2 n_faults - 1], each id once. *)
Theorem get_fault_labels_pairs n_faults :
  Z.of_nat n_faults <= 2 ^ 62 →
  length (get_fault_labels n_faults) = n_faults
  ∧ (∀ i : nat, (i < n_faults)%nat →
       get_fault_labels n_faults !! i
       = Some [2 * Z.of_nat i; 2 * Z.of_nat i + 1])
  ∧ mjoin (get_fault_labels n_faults) = arange (2 * n_faults).
Proof.
  intros Hn. rewrite get_fault_labels_rows by done. split_and!.
  - by rewrite length_fmap, length_seq.
  - intros i Hi. by rewrite list_lookup_fmap, lookup_seq_lt.
  - apply fault_labels_flatten.
Qed.

Lemma get_fault_labels_pairs_witness :
  Z.of_nat 3 <= 2 ^ 62
  ∧ length (get_fault_labels 3) = 3%nat
  ∧ mjoin (get_fault_labels 3) = arange (2 * 3).
Proof.
  split; [lia|].
  destruct (get_fault_labels_pairs 3 ltac:(lia)) as (Hlen & _ & Hflat).
  by split.
Defined.
Lemma binary_repr_pow2 (i : nat) :
  binary_repr (2 ^ Z.of_nat i) = "1"%char :: replicate i "0"%char.
Proof.
  induction i as [|i IH]; [done|].
  rewrite Nat2Z.inj_succ, Z.pow_succ_r by lia.
  assert (0 < 2 ^ Z.of_nat i) as Hpos by (apply Z.pow_pos_nonneg; lia).
  destruct (2 ^ Z.of_nat i) as [|p|p] eqn:Hp; [lia| |lia].
  change (2 * Z.pos p) with (Z.pos p~0). cbn [binary_repr bin_pos] in *.
  rewrite bin_pos_app, IH. cbn [app]. f_equal.
  change ["0"%char] with (replicate 1 "0"%char).
  rewrite <- replicate_add. f_equal. lia.
Qed.

(** X19. The strings of [get_lith_labels_bin] are one-hot: the one of
    layer [i] has [n_layers] digits, a single 1 at position [i] from the
    right and zeros elsewhere. *)
Theorem get_lith_labels_bin_one_hot n_layers :
  get_lith_labels_bin n_layers
  = (λ i : nat,
       replicate (n_layers - 1 - i) "0"%char
         ++ "1"%char :: replicate i "0"%char)
      <$> seq 0 n_layers.
Proof.
  unfold get_lith_labels_bin, py_range. rewrite <- list_fmap_compose.
  rewrite Z.sub_0_r, Nat2Z.id. apply Forall_fmap_ext, Forall_forall.
  intros i Hi%elem_of_seq. cbn [compose]. rewrite Z.add_0_l.
  rewrite binary_repr_pow2, zfill_bits.
  - cbn [length]. rewrite length_replicate. do 2 f_equal. lia.
  - constructor; [by right|apply is_bits_zeros].
Qed.
Lemma bind_singleton_fmap {A B} (g : A → B) (l : list A) :
  (x ← l; [g x]) = g <$> l.
Proof. induction l as [|x l IH]; [done|]. cbn. by f_equal. Qed.

Lemma get_adj_matrix_labels_cons l (lith_labels_bin fault_labels_bin : list str) :
  get_adj_matrix_labels (l :: lith_labels_bin) fault_labels_bin
  = ((λ f : str, l ++ f) <$> fault_labels_bin)
      ++ get_adj_matrix_labels lith_labels_bin fault_labels_bin.
Proof.
  unfold get_adj_matrix_labels. cbn [mbind list_bind].
  by rewrite (bind_singleton_fmap (λ f : str, l ++ f)).
Qed.

(** X20. [get_adj_matrix_labels] lists the canonical labels lithology by
    lithology: the label of lithology string [i] and fault string [j] stands
    at index [i * len(fault_labels_bin) + j] and is their concatenation, the
    lithology digits first. *)
Theorem get_adj_matrix_labels_lookup (lith_labels_bin fault_labels_bin : list str)
    (i j : nat) l f :
  lith_labels_bin !! i = Some l → fault_labels_bin !! j = Some f →
  get_adj_matrix_labels lith_labels_bin fault_labels_bin
    !! (i * length fault_labels_bin + j)%nat
  = Some (l ++ f).
Proof.
  revert i. induction lith_labels_bin as [|l0 lith IH]; intros i Hl Hf;
    [done|].
  rewrite get_adj_matrix_labels_cons.
  pose proof (lookup_lt_Some _ _ _ Hf) as Hj. unfold str in *.
  destruct i as [|i].
  - injection Hl as ->.
    rewrite lookup_app_l by (rewrite length_fmap; simpl; lia).
    rewrite list_lookup_fmap. cbn [Nat.mul Nat.add]. by rewrite Hf.
  - rewrite lookup_app_r by (rewrite length_fmap; simpl; lia).
    rewrite length_fmap.
    replace (S i * length fault_labels_bin + j - length fault_labels_bin)%nat
      with (i * length fault_labels_bin + j)%nat by (simpl; lia).
    by apply IH.
Qed.

Lemma get_adj_matrix_labels_lookup_witness :
  ([lit "01"; lit "10"] !! 1%nat = Some (lit "10")
   ∧ [lit "0101"; lit "1001"; lit "0110"] !! 2%nat = Some (lit "0110"))
  ∧ get_adj_matrix_labels [lit "01"; lit "10"]
      [lit "0101"; lit "1001"; lit "0110"]
      !! (1 * length [lit "0101"; lit "1001"; lit "0110"] + 2)%nat
    = Some (lit "10" ++ lit "0110").
Proof.
  split; [by split|].
  by apply (get_adj_matrix_labels_lookup [lit "01"; lit "10"]
              [lit "0101"; lit "1001"; lit "0110"] 1 2).
Defined.

Lemma get_adj_matrix_labels_length (lith_labels_bin fault_labels_bin : list str) :
  length (get_adj_matrix_labels lith_labels_bin fault_labels_bin)
  = (length lith_labels_bin * length fault_labels_bin)%nat.
Proof.
  induction lith_labels_bin as [|l lith IH]; [done|].
  rewrite get_adj_matrix_labels_cons, length_app, length_fmap, IH.
  cbn [length]. lia.
Qed.
Lemma combinations_sorted {A} (R : A → A → Prop) (l : list A) r c :
  StronglySorted R l → c ∈ combinations l r →
  StronglySorted R c ∧ length c = r ∧ ∀ x, x ∈ c → x ∈ l.
Proof.
  intros Hl. revert r c. induction Hl as [|x l Hl IH Hx]; intros r c Hc.
  - destruct r; simpl in Hc.
    + apply list_elem_of_singleton in Hc as ->.
      split_and!; [constructor|done..].
    + by apply elem_of_nil in Hc.
  - destruct r as [|r]; simpl in Hc.
    + apply list_elem_of_singleton in Hc as ->.
      split_and!; [constructor|done|]. by intros y ?%elem_of_nil.
    + apply elem_of_app in Hc as [Hc|Hc].
      * apply list_elem_of_fmap in Hc as (c' & -> & Hc').
        destruct (IH _ _ Hc') as (Hs & Hlen & Hsub).
        split_and!.
        -- constructor; [done|]. apply Forall_forall. intros y Hy.
           rewrite Forall_forall in Hx. by apply Hx, Hsub.
        -- simpl. by rewrite Hlen.
        -- intros y [->|Hy]%elem_of_cons; [by left|]. right. by apply Hsub.
      * destruct (IH _ _ Hc) as (Hs & Hlen & Hsub).
        split_and!; [done..|]. intros y Hy. right. by apply Hsub.
Qed.

Lemma arange_sorted n : StronglySorted Z.lt (arange n).
Proof.
  unfold arange. generalize 0%nat.
  induction n as [|n IH]; intros s; simpl; constructor; [apply IH|].
  apply Forall_fmap, Forall_forall. intros i Hi%elem_of_seq. simpl. lia.
Qed.

Lemma arange_elem n x : x ∈ arange n ↔ 0 <= x < Z.of_nat n.
Proof.
  unfold arange. rewrite list_elem_of_fmap. split.
  - intros (i & -> & Hi%elem_of_seq). lia.
  - intros Hx. exists (Z.to_nat x). split; [lia|]. apply elem_of_seq. lia.
Qed.

Lemma sum_pow2_sorted_upper k m c :
  0 <= k <= m → StronglySorted Z.lt c → Forall (λ x, k <= x < m) c →
  sum_pow2 c <= 2 ^ m - 2 ^ k.
Proof.
  intros Hk Hs. revert k Hk. induction Hs as [|p ps Hs IH Hp]; intros k Hk Hc.
  - unfold sum_pow2. simpl.
    assert (2 ^ k <= 2 ^ m) by (apply Z.pow_le_mono_r; lia). lia.
  - apply Forall_cons in Hc as [Hpk Hc]. rewrite sum_pow2_cons.
    assert (sum_pow2 ps <= 2 ^ m - 2 ^ (p + 1)) as Hps.
    { apply IH; [lia|]. apply Forall_forall. intros x Hx.
      rewrite Forall_forall in Hp, Hc. specialize (Hp _ Hx).
      specialize (Hc _ Hx). lia. }
    rewrite Z.pow_add_r in Hps by lia.
    assert (2 ^ k <= 2 ^ p) by (apply Z.pow_le_mono_r; lia). lia.
Qed.

Lemma sum64_pow2 c :
  - 2 ^ 63 <= sum_pow2 c < 2 ^ 63 →
  sum64 ((λ e, 2 ^ e) <$> c) = sum_pow2 c.
Proof.
  intros Hc. unfold sum64. change 0 with (Int64.wrap 0) at 1.
  rewrite foldl_add64. cbn [Z.add]. by apply wrap_id.
Qed.

Lemma count_ones_zeros n : count_ones (replicate n "0"%char) = 0%nat.
Proof. unfold count_ones. induction n as [|n IH]; [done|]. by simpl. Qed.

(** The string of a positive number below [2 ^ w], padded to [w] digits. *)
Lemma zfill_binary_repr w v :
  0 < v < 2 ^ w →
  let s := zfill w (binary_repr v) in
  Z.of_nat (length s) = w ∧ is_bits s ∧ bin_value s = v
  ∧ count_ones s = popcount v.
Proof.
  intros Hv s. subst s.
  assert (0 <= w) as Hw.
  { destruct (decide (0 <= w)); [done|]. rewrite Z.pow_neg_r in Hv; lia. }
  destruct (binary_repr_pos v) as (Hbits & Hval & Hlow & _); [lia|].
  destruct (zfill_bits_props w _ Hbits) as (Hb & Hvl & Hlen).
  assert (Z.of_nat (length (binary_repr v)) <= w) as Hle.
  { destruct (decide (Z.of_nat (length (binary_repr v)) <= w)); [done|].
    assert (2 ^ w <= 2 ^ (Z.of_nat (length (binary_repr v)) - 1))
      by (apply Z.pow_le_mono_r; lia). lia. }
  split_and!; [lia|done|congruence|].
  rewrite zfill_bits by done. unfold count_ones.
  rewrite filter_app, length_app. fold (count_ones (replicate
    (Z.to_nat (w - Z.of_nat (length (binary_repr v)))) "0"%char)).
  rewrite count_ones_zeros. simpl. by rewrite popcount_binary_repr.
Qed.

(** One pass of the loop of [get_fault_label_comb_bin] over the ids
    [0 .. 2 n_faults - 1]. *)
Lemma fault_comb_step n_faults comb (st : list str) (block_sums : list Z) :
  (1 <= n_faults <= 31)%nat →
  comb ∈ combinations (arange (2 * n_faults)) n_faults →
  Forall (λ s : str,
            length s = (2 * n_faults)%nat ∧ is_bits s
            ∧ count_ones s = n_faults) st →
  ∃ st',
    (if bool_decide (sum64 comb ∈ block_sums) then Some st
     else
       powers ← mapM Int64.pow2 comb;
       Some (st ++ [zfill (Z.of_nat n_faults * 2)
                      (binary_repr (sum64 powers))])) = Some st'
    ∧ Forall (λ s : str,
                length s = (2 * n_faults)%nat ∧ is_bits s
                ∧ count_ones s = n_faults) st'.
Proof.
  intros Hn Hcomb Hst. case_bool_decide; [by exists st|].
  destruct (combinations_sorted Z.lt _ _ _ (arange_sorted _) Hcomb)
    as (Hs & Hlen & Hsub).
  assert (Forall (λ x, 0 <= x < 2 * Z.of_nat n_faults) comb) as Hrange.
  { apply Forall_forall. intros x Hx%Hsub%arange_elem. lia. }
  rewrite mapM_pow2
    by (eapply Forall_impl; [exact Hrange|]; simpl; intros; lia).
  cbn [mbind option_bind]. eexists. split; [done|].
  apply Forall_app. split; [done|]. apply Forall_singleton.
  pose proof (sum_pow2_sorted_upper 0 (2 * Z.of_nat n_faults) comb
                ltac:(lia) Hs Hrange) as Hup.
  pose proof (sum_pow2_nonneg comb) as Hnn.
  assert (2 ^ (2 * Z.of_nat n_faults) <= 2 ^ 62)
    by (apply Z.pow_le_mono_r; lia).
  rewrite sum64_pow2 by lia.
  pose proof (popcount_sum_pow2_sorted comb
                ltac:(eapply Forall_impl; [exact Hrange|]; simpl; intros; lia)
                Hs) as Hpop.
  assert (sum_pow2 comb ≠ 0) as Hne.
  { intros Hzero. rewrite Hzero, Hlen in Hpop. simpl in Hpop. lia. }
  destruct (zfill_binary_repr (Z.of_nat n_faults * 2) (sum_pow2 comb))
    as (Hl & Hb & _ & Hc).
  { replace (Z.of_nat n_faults * 2) with (2 * Z.of_nat n_faults) by lia.
    lia. }
  split_and!; [lia|done|]. by rewrite Hc, Hpop.
Qed.

(** X21. For 1 to 31 faults [get_fault_label_comb_bin], called on the
    pairs of [get_fault_labels], returns, and every string it returns has
    [2 * n_faults] binary digits of which exactly [n_faults] are ones. *)
Theorem get_fault_label_comb_bin_strings n_faults :
  (1 <= n_faults <= 31)%nat →
  ∃ fault_labels_bin,
    get_fault_label_comb_bin (get_fault_labels n_faults)
    = Some fault_labels_bin
    ∧ Forall (λ s : str,
                length s = (2 * n_faults)%nat ∧ is_bits s
                ∧ count_ones s = n_faults)
        fault_labels_bin.
Proof.
  intros Hn. unfold get_fault_label_comb_bin.
  rewrite get_fault_labels_rows by lia.
  rewrite fault_labels_flatten, length_fmap, length_seq.
  apply for_each_total; [constructor|].
  intros comb st Hcomb Hst. by apply fault_comb_step.
Qed.

Lemma get_fault_label_comb_bin_strings_witness :
  (1 <= 2 <= 31)%nat
  ∧ ∃ fault_labels_bin,
      get_fault_label_comb_bin (get_fault_labels 2) = Some fault_labels_bin
      ∧ Forall (λ s : str,
                  length s = (2 * 2)%nat ∧ is_bits s ∧ count_ones s = 2%nat)
          fault_labels_bin.
Proof.
  split; [lia|]. apply (get_fault_label_comb_bin_strings 2). lia.
Defined.
Lemma get_lith_labels_bin_elem n_layers s :
  s ∈ get_lith_labels_bin n_layers →
  length s = n_layers ∧ is_bits s ∧ count_ones s = 1%nat.
Proof.
  unfold get_lith_labels_bin. intros Hs.
  apply list_elem_of_fmap in Hs as (i & -> & Hi%py_range_elem).
  assert (0 < 2 ^ i) by (apply Z.pow_pos_nonneg; lia).
  assert (2 ^ i < 2 ^ Z.of_nat n_layers) by (apply Z.pow_lt_mono_r; lia).
  destruct (zfill_binary_repr (Z.of_nat n_layers) (2 ^ i))
    as (Hl & Hb & _ & Hc); [lia|].
  split_and!; [lia|done|]. rewrite Hc.
  rewrite <- (Z.mul_1_r (2 ^ i)), popcount_shift by lia. done.
Qed.

Lemma get_adj_matrix_labels_elem (lith_labels_bin fault_labels_bin : list str) s :
  s ∈ get_adj_matrix_labels lith_labels_bin fault_labels_bin
  ↔ ∃ l f, l ∈ lith_labels_bin ∧ f ∈ fault_labels_bin ∧ s = l ++ f.
Proof.
  induction lith_labels_bin as [|l0 lith IH].
  - split; [by intros ?%elem_of_nil|]. by intros (l & f & ?%elem_of_nil & _).
  - rewrite get_adj_matrix_labels_cons, elem_of_app, IH, list_elem_of_fmap.
    split.
    + intros [(f & -> & Hf)|(l & f & Hl & Hf & ->)].
      * exists l0, f. split_and!; [by left|done..].
      * exists l, f. split_and!; [by right|done..].
    + intros (l & f & [->|Hl]%elem_of_cons & Hf & ->).
      * left. by exists f.
      * right. by exists l, f.
Qed.

Lemma count_ones_app (x y : str) :
  count_ones (x ++ y) = (count_ones x + count_ones y)%nat.
Proof. unfold count_ones. by rewrite filter_app, length_app. Qed.

(** X22. The canonical label space of a model with [n_layers] layers and
    1 to 31 faults: [get_adj_matrix_labels] applied to the strings of
    [get_lith_labels_bin] and [get_fault_label_comb_bin] gives one label per
    pair of a layer and a fault string, and every label has
    [n_layers + 2 * n_faults] binary digits with exactly [n_faults + 1]
    ones. *)
Theorem canonical_labels_shape n_layers n_faults :
  (1 <= n_faults <= 31)%nat →
  ∃ fault_labels_bin,
    get_fault_label_comb_bin (get_fault_labels n_faults)
    = Some fault_labels_bin
    ∧ length (get_adj_matrix_labels (get_lith_labels_bin n_layers)
                fault_labels_bin)
      = (n_layers * length fault_labels_bin)%nat
    ∧ Forall (λ s : str,
                length s = (n_layers + 2 * n_faults)%nat ∧ is_bits s
                ∧ count_ones s = S n_faults)
        (get_adj_matrix_labels (get_lith_labels_bin n_layers)
           fault_labels_bin).
Proof.
  intros Hn. unfold get_fault_label_comb_bin.
  destruct (for_each_total
    (Forall (λ s : str,
               length s = (2 * n_faults)%nat ∧ is_bits s
               ∧ count_ones s = n_faults))
    (combinations (mjoin (get_fault_labels n_faults))
       (length (get_fault_labels n_faults)))
    (λ comb fault_labels_bin,
       if bool_decide (sum64 comb ∈ sum64 <$> get_fault_labels n_faults)
       then Some fault_labels_bin
       else
         powers ← mapM Int64.pow2 comb;
         Some (fault_labels_bin ++
                 [zfill (Z.of_nat (length (get_fault_labels n_faults)) * 2)
                    (binary_repr (sum64 powers))]))
    []) as (fl & Hrun & Hfl); [constructor| |].
  - rewrite get_fault_labels_rows by lia.
    rewrite fault_labels_flatten, length_fmap, length_seq.
    intros comb st Hcomb Hst. apply (fault_comb_step n_faults); done.
  - exists fl. split; [done|]. split.
    + rewrite get_adj_matrix_labels_length. f_equal.
      unfold get_lith_labels_bin, py_range.
      rewrite !length_fmap, length_seq. lia.
    + apply Forall_forall. intros s Hs.
      apply get_adj_matrix_labels_elem in Hs as (l & f & Hl & Hf & ->).
      apply get_lith_labels_bin_elem in Hl as (Hl1 & Hl2 & Hl3).
      rewrite Forall_forall in Hfl. destruct (Hfl _ Hf) as (Hf1 & Hf2 & Hf3).
      split_and!.
      * rewrite length_app. lia.
      * by apply Forall_app.
      * rewrite count_ones_app. lia.
Qed.

Lemma canonical_labels_shape_witness :
  (1 <= 2 <= 31)%nat
  ∧ ∃ fault_labels_bin,
      get_fault_label_comb_bin (get_fault_labels 2) = Some fault_labels_bin
      ∧ length (get_adj_matrix_labels (get_lith_labels_bin 5)
                  fault_labels_bin)
        = (5 * length fault_labels_bin)%nat
      ∧ Forall (λ s : str,
                  length s = (5 + 2 * 2)%nat ∧ is_bits s
                  ∧ count_ones s = 3%nat)
          (get_adj_matrix_labels (get_lith_labels_bin 5) fault_labels_bin).
Proof.
  split; [lia|]. apply (canonical_labels_shape 5 2). lia.
Defined.
(** ** Degenerate blocks *)

Lemma flatten3_empty ny nz (t : arr3 Z) :
  rect3 ny nz t → (length t = 0 ∨ ny = 0 ∨ nz = 0)%nat → flatten3 t = [].
Proof.
  intros Hrect Hzero. apply elem_of_nil_inv. intros x Hx.
  apply flatten3_elem in Hx as (plane & row & Hplane & Hrow & Hx).
  unfold rect3 in Hrect. rewrite Forall_forall in Hrect.
  destruct (Hrect _ Hplane) as [Hny Hrows].
  rewrite Forall_forall in Hrows. specialize (Hrows _ Hrow).
  destruct t; [by apply elem_of_nil in Hplane|].
  destruct plane; [by apply elem_of_nil in Hrow|].
  destruct row; [by apply elem_of_nil in Hx|].
  simpl in *. lia.
Qed.

(** X23. A block that is not longer than the shift along one of its axes,
    a two-dimensional section for instance, has no topology: its three
    signature arrays are empty, and [get_edges] returns the empty set. *)
Theorem get_edges_thin_block ny nz labels n_shift :
  rect3 ny nz labels → 1 <= n_shift →
  (length labels <= Z.to_nat n_shift ∨ ny <= Z.to_nat n_shift
   ∨ nz <= Z.to_nat n_shift)%nat →
  ∃ topo_block,
    get_topo_block labels n_shift = Some topo_block
    ∧ Forall (λ t : arr3 Z, flatten3 t = []) topo_block
    ∧ get_edges topo_block labels n_shift = Some [].
Proof.
  intros Hrect Hshift Hthin.
  exists (shifted_sum labels <$> topo_slicers n_shift).
  assert (Forall (λ t : arr3 Z, flatten3 t = [])
            (shifted_sum labels <$> topo_slicers n_shift)) as Hempty.
  { apply Forall_fmap, Forall_forall. intros sl Hsl.
    destruct (topo_sum_shape ny nz labels n_shift Hrect Hshift sl Hsl)
      as [Hr Hl].
    apply (flatten3_empty _ _ _ Hr). lia. }
  split_and!; [by apply (get_topo_block_slices ny nz)|done|].
  unfold get_edges.
  destruct (for_each_total (λ es : list (Z * Z), es = [])
    (enumerate (shifted_sum labels <$> topo_slicers n_shift))
    (λ '(i, topo_block_dir) edges,
       for_each (np_unique (flatten3 topo_block_dir))
         (edge_step labels n_shift i topo_block_dir) edges) [])
    as (es & Hrun & ->); [done| |done].
  intros [i t] s Hit ->. apply enumerate_elem in Hit.
  rewrite Forall_forall in Hempty.
  rewrite (Hempty t) by (by eapply list_elem_of_lookup_2).
  by exists [].
Qed.

Lemma get_edges_thin_block_witness :
  (rect3 3 1 [[[9]; [9]; [10]]; [[9]; [10]; [10]]; [[10]; [10]; [10]]]
   ∧ 1 <= 1
   ∧ (length [[[9]; [9]; [10]]; [[9]; [10]; [10]]; [[10]; [10]; [10]]]
        <= Z.to_nat 1
      ∨ 3 <= Z.to_nat 1 ∨ 1 <= Z.to_nat 1)%nat)
  ∧ ∃ topo_block,
      get_topo_block [[[9]; [9]; [10]]; [[9]; [10]; [10]]; [[10]; [10]; [10]]]
        1 = Some topo_block
      ∧ Forall (λ t : arr3 Z, flatten3 t = []) topo_block
      ∧ get_edges topo_block
          [[[9]; [9]; [10]]; [[9]; [10]; [10]]; [[10]; [10]; [10]]] 1
        = Some [].
Proof.
  assert (rect3 3 1 [[[9]; [9]; [10]]; [[9]; [10]; [10]]; [[10]; [10]; [10]]])
    as Hrect
    by (repeat (constructor; [split; [done|by repeat constructor]|]);
        constructor).
  assert (length [[[9]; [9]; [10]]; [[9]; [10]; [10]]; [[10]; [10]; [10]]]
            <= Z.to_nat 1
          ∨ 3 <= Z.to_nat 1 ∨ 1 <= Z.to_nat 1)%nat as Hthin
    by (right; right; cbn; lia).
  split; [split_and!; [exact Hrect|lia|exact Hthin]|].
  exact (get_edges_thin_block 3 1 _ 1 Hrect ltac:(lia) Hthin).
Defined.
(** ** A block of one label *)

Lemma py_slice_replicate {A} sl n (x : A) :
  py_slice sl (replicate n x) = replicate (slice_len sl n) x.
Proof.
  unfold py_slice, slice_len. rewrite length_replicate.
  rewrite drop_replicate, take_replicate. done.
Qed.

Lemma slice3_full3 sx sy sz nx ny nz c :
  slice3 (sx, sy, sz) (full3 nx ny nz c)
  = full3 (slice_len sx nx) (slice_len sy ny) (slice_len sz nz) c.
Proof.
  unfold slice3, full3.
  rewrite py_slice_replicate, fmap_replicate. f_equal.
  rewrite py_slice_replicate, fmap_replicate. f_equal.
  apply py_slice_replicate.
Qed.

Lemma shifted_sum_full3 nx ny nz c sl :
  0 < c < 2 ^ 62 → sl ∈ slicers 1 →
  slice3 sl.1 (full3 nx ny nz c) = full3 (nx - 1) (ny - 1) (nz - 1) c
  ∧ slice3 sl.2 (full3 nx ny nz c) = full3 (nx - 1) (ny - 1) (nz - 1) c
  ∧ shifted_sum (full3 nx ny nz c) sl
    = full3 (nx - 1) (ny - 1) (nz - 1) (2 * c).
Proof.
  intros Hc Hsl.
  assert (slice3 sl.1 (full3 nx ny nz c) = full3 (nx - 1) (ny - 1) (nz - 1) c
          ∧ slice3 sl.2 (full3 nx ny nz c)
            = full3 (nx - 1) (ny - 1) (nz - 1) c) as [H1 H2].
  { unfold slicers in Hsl.
    change (1 - 1) with 0 in Hsl. change (- (1)) with (-1) in Hsl.
    repeat (apply elem_of_cons in Hsl as [->|Hsl]);
      [| | |by apply elem_of_nil in Hsl]; cbn [fst snd];
      rewrite !slice3_full3, ?slice_len_from_1, ?slice_len_to_1,
        ?slice_len_fit_1; done. }
  split_and!; [done..|]. unfold shifted_sum. rewrite H1, H2.
  unfold zip3, map3, full3. rewrite !zip_with_replicate, !fmap_replicate.
  do 3 f_equal. unfold Int64.abs, Int64.add.
  rewrite (wrap_id (c + c)) by (unfold Int64.in_range; lia).
  rewrite Z.abs_eq by lia.
  rewrite wrap_id by (unfold Int64.in_range; lia). lia.
Qed.

Lemma full3_elem nx ny nz c x :
  x ∈ flatten3 (full3 nx ny nz c)
  ↔ x = c ∧ nx ≠ 0%nat ∧ ny ≠ 0%nat ∧ nz ≠ 0%nat.
Proof.
  rewrite flatten3_elem. unfold full3. split.
  - intros (plane & row & Hplane & Hrow & Hx).
    apply elem_of_replicate in Hplane as [-> ?].
    apply elem_of_replicate in Hrow as [-> ?].
    by apply elem_of_replicate in Hx as [-> ?].
  - intros (-> & Hx & Hy & Hz). do 2 eexists.
    split_and!; apply elem_of_replicate; done.
Qed.

(** [np.unique] of an array that holds one value. *)
Lemma np_unique_const v l :
  l ≠ [] → (∀ x, x ∈ l → x = v) → np_unique l = [v].
Proof.
  intros Hne Hall.
  pose proof (np_unique_sorted l) as Hs.
  assert (∀ x, x ∈ np_unique l → x = v) as Hu.
  { intros x Hx. rewrite np_unique_elem in Hx. by apply Hall. }
  destruct (np_unique_head_is_Some l Hne) as [h Hh].
  destruct (np_unique l) as [|a [|b u]]; [done| |].
  - f_equal. apply Hu. by left.
  - apply StronglySorted_inv in Hs as [_ Hab].
    apply Forall_cons in Hab as [Hab _].
    rewrite (Hu a), (Hu b) in Hab; [lia|by right; left|by left].
Qed.

Lemma first_label_full3 nx ny nz c e :
  nx ≠ 0%nat → ny ≠ 0%nat → nz ≠ 0%nat →
  first_label (full3 nx ny nz c)
    (map3 (λ x, x =? e) (full3 nx ny nz e)) = Some c.
Proof.
  intros Hx Hy Hz. unfold first_label.
  destruct (mask_select_signature (full3 nx ny nz c) (full3 nx ny nz e) e)
    as (sel & Hsel & Hne).
  { unfold shape3, full3. by rewrite !fmap_replicate, !length_replicate. }
  { by apply full3_elem. }
  rewrite Hsel. cbn [mbind option_bind].
  rewrite (np_unique_const c); [done..|].
  intros x Hin. by eapply mask_select_elem, full3_elem in Hin as [-> _].
Qed.

(** X24. Self-loops: for a block that holds the single label [c], at
    least two voxels long on every axis, [get_topo_block] and [get_edges]
    with a shift of one voxel return exactly the edge (c, c). *)
Theorem get_edges_uniform_block nx ny nz c :
  (2 <= nx)%nat → (2 <= ny)%nat → (2 <= nz)%nat → 0 < c < 2 ^ 62 →
  ∃ topo_block,
    get_topo_block (full3 nx ny nz c) 1 = Some topo_block
    ∧ get_edges topo_block (full3 nx ny nz c) 1 = Some [(c, c)].
Proof.
  intros Hnx Hny Hnz Hc.
  assert (rect3 ny nz (full3 nx ny nz c)) as Hrect.
  { unfold rect3, full3. apply Forall_replicate.
    split; [by rewrite length_replicate|].
    apply Forall_replicate. by rewrite length_replicate. }
  exists (shifted_sum (full3 nx ny nz c) <$> slicers 1).
  split; [by apply (get_topo_block_shift_1 ny nz)|].
  assert (∀ i sl edges,
    slicers 1 !! i = Some sl →
    for_each (np_unique (flatten3 (shifted_sum (full3 nx ny nz c) sl)))
      (edge_step (full3 nx ny nz c) 1 i (shifted_sum (full3 nx ny nz c) sl))
      edges
    = Some (set_add (c, c) edges)) as Hinner.
  { intros i sl edges Hsl.
    destruct (shifted_sum_full3 nx ny nz c sl Hc) as (H1 & H2 & ->);
      [by eapply list_elem_of_lookup_2|].
    rewrite (np_unique_const (2 * c)).
    - cbn [for_each]. unfold edge_step.
      destruct (2 * c =? 0) eqn:H0; [lia|]. rewrite Hsl.
      cbn [mbind option_bind]. rewrite H1, H2.
      rewrite first_label_full3 by lia. by cbn [mbind option_bind].
    - intros Hnil.
      assert (2 * c ∈ flatten3 (full3 (nx - 1) (ny - 1) (nz - 1) (2 * c)))
        as Hin by (apply full3_elem; lia).
      rewrite Hnil in Hin. by apply elem_of_nil in Hin.
    - by intros x [-> _]%full3_elem. }
  unfold get_edges, slicers, enumerate.
  cbn [fmap list_fmap length seq zip zip_with for_each].
  rewrite !Hinner by done. cbn [mbind option_bind].
  rewrite !Hinner by done. cbn [mbind option_bind].
  rewrite !Hinner by done. cbn [mbind option_bind].
  assert (set_add (c, c) [] = [(c, c)]) as ->.
  { unfold set_add. rewrite decide_False; [done|by intros ?%elem_of_nil]. }
  assert (set_add (c, c) [(c, c)] = [(c, c)]) as Hsame.
  { unfold set_add. rewrite decide_True; [done|by left]. }
  by rewrite !Hsame.
Qed.

Lemma get_edges_uniform_block_witness :
  ((2 <= 2)%nat ∧ (2 <= 3)%nat ∧ (2 <= 2)%nat ∧ 0 < 9 < 2 ^ 62)
  ∧ ∃ topo_block,
      get_topo_block (full3 2 3 2 9) 1 = Some topo_block
      ∧ get_edges topo_block (full3 2 3 2 9) 1 = Some [(9, 9)].
Proof.
  split; [split_and!; lia|].
  apply (get_edges_uniform_block 2 3 2 9); lia.
Defined.
